(** * The room engine of the land server (server.ts), embedded in Rocq

    The TypeScript server keeps every room and player as a mutable object
    and lets several containers point at the same object: a player is
    referenced from [playerMap], from its room's [players] map and from
    the room's [gameState.players] array.  The embedding therefore keeps
    two heaps (lists indexed by address) and stores addresses wherever the
    source stores an object reference.  Random draws, generated
    identifiers and the clock are inputs of the functions that consume
    them.

    A function of the model returns [None] where the JavaScript function
    throws: [JSON.parse] on a frame that is no JSON text, the read of a
    property of [null], the read of a cell of a row that does not exist.
    A run of the model follows the server as long as no handler throws.
    [None] is also the result of following an address that lies outside
    its heap, which no JavaScript reference does and which no state the
    server reaches does either ([run_wellFormed]).  The Go port
    (goserver/main.go) is covered where a statement refers to it, in
    [GoServer]. *)

From Stdlib Require Import ZArith QArith Qabs Lia Lqa.
From stdpp Require Import base tactics option list numbers strings.

Open Scope Z_scope.

(** ** Numbers

    A coordinate and a speed are JavaScript numbers.  A speed is whatever
    number the client's JSON text carries, so coordinates need not be
    integers; the model keeps numbers as rationals with exact arithmetic.
    The rounding of IEEE doubles, the infinities and NaN are not
    modelled: sums that leave the range of exactly represented numbers
    are outside the model.  The program never compares two numbers for
    equality. *)
Abbreviation number := Q.

#[global] Instance number_eq_dec : EqDecision number.
Proof. solve_decision. Defined.

(** The array index a number names when used as a property key: the
    integer it is equal to, if there is one.  [board[0.5]] names no
    element. *)
Definition toIndex (x : number) : option Z :=
  if decide (Qnum x mod Zpos (Qden x) = 0)
  then Some (Qnum x / Zpos (Qden x))
  else None.

(** ** Configuration constants (server.ts, lines 117-121) *)

Definition boardSize : Z := 50.
Definition playerSpeed : Z := 1.
Definition gameInterval : Z := 100.
Definition gameDuration : Z := 3 * 60 * 1000.
Definition maxPlayers : nat := 4.

(** ** Data model *)

(** [interface Position].  Positions are modelled by value: the only
    in-place mutation of a position object ([updatePlayerPosition]) is
    followed at once by [player.position = targetPosition], so sharing
    between the two fields of one player is not observable. *)
Record Position := mkPosition { px : number; py : number }.

(** [string[][]]: rows of cells, a cell holds its owner's color, the
    empty string when unclaimed. *)
Abbreviation Board := (list (list string)).

(** [interface Player].  [socket] is the identifier of the player's
    connection and [room] the address of its room object ([null] is
    [None]). *)
Record Player := mkPlayer {
  id : string;
  name : string;
  color : string;
  score : Z;
  position : Position;
  targetPosition : Position;
  moveStartTime : Z;
  socket : nat;
  room : option nat
}.

(** [interface GameState]; [gsPlayers] is the [players] array of player
    references. *)
Record GameState := mkGameState {
  board : Board;
  gsPlayers : list nat;
  chatMessages : list string
}.

(** [interface Room]; [players] is the [Map<string, Player>], kept as an
    association list in insertion order (the order [Map] iterates in). *)
Record Room := mkRoom {
  roomId : string;
  players : list (string * nat);
  gameState : GameState;
  duration : Z;
  startTime : Z
}.

(** ** Grid *)

(** [createBoard] *)
Definition createBoard : Board :=
  replicate (Z.to_nat boardSize) (replicate (Z.to_nat boardSize) "").

(** [x >= 0] and [x < boardSize] on numbers. *)
Definition geZero (x : number) : bool := Qle_bool 0 x.
Definition ltBoardSize (x : number) : bool := negb (Qle_bool (inject_Z boardSize) x).

(** [isValidPosition] *)
Definition isValidPosition (p : Position) : bool :=
  geZero (px p) && ltBoardSize (px p) && geZero (py p) && ltBoardSize (py p).

(** Reading [board[y][x]]; [None] is JavaScript's [undefined]. *)
Definition cellAt (b : Board) (cx cy : Z) : option string :=
  if decide (0 ≤ cx ∧ 0 ≤ cy)
  then row ← b !! Z.to_nat cy; row !! Z.to_nat cx
  else None.

(** Writing the cell [(cx, cy)], a plain write of an existing element
    of an existing row.  An integer index outside the row would make
    JavaScript extend the row or add a property to it; that is outside the
    board the server maintains and is reported as [None] (the guard of
    [claimCell] excludes it on a board of the server's shape). *)
Definition cellWrite (b : Board) (cx cy : Z) (c : string) : option Board :=
  if decide (0 ≤ cx ∧ 0 ≤ cy)
  then
    row ← b !! Z.to_nat cy;
    if decide (Z.to_nat cx < length row)%nat
    then Some (<[Z.to_nat cy := <[Z.to_nat cx := c]> row]> b)
    else None
  else None.

(** The assignment [board[p.y][p.x] = c].  [board[p.y]] is evaluated
    first: when [p.y] is no integer, or the index of no row, it is
    [undefined] and the assignment throws a [TypeError].  When the row
    exists and [p.x] is no integer, the assignment adds a property to the
    row object that is no element of the array: no cell changes, and
    neither the counting loops nor the snapshots see it. *)
Definition boardWrite (b : Board) (p : Position) (c : string) : option Board :=
  match toIndex (py p) with
  | None => None
  | Some cy =>
      match toIndex (px p) with
      | None => if decide (0 ≤ cy) then (row ← b !! Z.to_nat cy; Some b) else None
      | Some cx => cellWrite b cx cy c
      end
  end.

(** The guarded write shared by [updateGame] and [claimInitialTerritory]:
    [if (isValidPosition(p)) { board[p.y][p.x] = color; }] *)
Definition claimCell (b : Board) (p : Position) (c : string) : option Board :=
  if isValidPosition p then boardWrite b p c else Some b.

(** [countPlayerSquares]: the two nested [for ... of] loops with their
    running counter. *)
Definition countPlayerSquares (b : Board) (c : string) : Z :=
  fold_left
    (fun count row =>
       fold_left (fun count cell => if decide (cell = c) then count + 1 else count)
                 row count)
    b 0.

(** A board has the shape [createBoard] gives it. *)
Definition boardShape (b : Board) : Prop :=
  length b = Z.to_nat boardSize ∧
  Forall (fun row => length row = Z.to_nat boardSize) b.

(** ** Random draws *)

(** [getRandomPosition]; [side] is [Math.floor(Math.random() * 4)] and
    [r] is [Math.floor(Math.random() * boardSize)] (each branch draws at
    most one coordinate). *)
Definition getRandomPosition (side r : Z) : Position :=
  match side with
  | 0 => mkPosition (inject_Z r) 0
  | 1 => mkPosition (inject_Z (boardSize - 1)) (inject_Z r)
  | 2 => mkPosition (inject_Z r) (inject_Z (boardSize - 1))
  | 3 => mkPosition 0 (inject_Z r)
  | _ => mkPosition 0 0
  end.

(** [letters[i]] for [letters = "0123456789ABCDEF"]; outside the string
    JavaScript yields [undefined], which [+=] appends as text. *)
Definition hexLetter (i : nat) : string :=
  match String.get i "0123456789ABCDEF" with
  | Some ch => String ch EmptyString
  | None => "undefined"
  end.

(** [getRandomColor]; [digits] are the six values of
    [Math.floor(Math.random() * 16)]. *)
Definition getRandomColor (digits : list nat) : string :=
  fold_left (fun color d => color +:+ hexLetter d) (take 6 digits) "#".

(** ** Movement *)

(** [updatePlayerPosition] *)
Definition updatePlayerPosition (player : Player) (direction : string)
    (speed : number) : Player :=
  let tp := targetPosition player in
  let tp' :=
    if decide (direction = "up") then mkPosition (px tp) (py tp - speed)%Q
    else if decide (direction = "down") then mkPosition (px tp) (py tp + speed)%Q
    else if decide (direction = "left") then mkPosition (px tp - speed)%Q (py tp)
    else if decide (direction = "right") then mkPosition (px tp + speed)%Q (py tp)
    else tp in
  mkPlayer (id player) (name player) (color player) (score player)
           tp' tp' (moveStartTime player) (socket player) (room player).

(** ** Messages *)

(** Inbound [interface Message]: the fields [processMessage] reads of a
    JSON object, each of the type the interface declares.  A field the
    JSON text does not carry is [None]; so is a [type] that is no
    string, which matches no case of the [switch] either.  A [speed] that
    is no number (a string, which [+=] would concatenate) is outside the
    model. *)
Record Message := mkMessage {
  msgType : option string;
  msgName : option string;
  msgDirection : option string;
  msgSpeed : option number;
  msgChatMessage : option string
}.

(** What [JSON.parse] returns: [null], an object with its fields, or
    another value (a number, a string, a boolean, an array), on which
    every field reads as [undefined]. *)
Inductive JsonValue :=
| jNull
| jOther
| jObject (fields : Message).

(** The data of a frame: a JSON text, or anything else (text that is no
    JSON, a binary frame). *)
Inductive Frame :=
| badFrame
| jsonFrame (v : JsonValue).

(** [JSON.parse(e.data)]; [None] is the [SyntaxError] it throws. *)
Definition JSON_parse (f : Frame) : option JsonValue :=
  match f with
  | badFrame => None
  | jsonFrame v => Some v
  end.

(** Reading fields off the parsed value; reading a property of [null]
    throws a [TypeError]. *)
Definition fieldsOf (v : JsonValue) : option Message :=
  match v with
  | jNull => None
  | jOther => Some (mkMessage None None None None None)
  | jObject fields => Some fields
  end.

(** [interface PlayerData]: a player without [socket] and [room]. *)
Record PlayerData := mkPlayerData {
  pdId : string;
  pdName : string;
  pdColor : string;
  pdScore : Z;
  pdPosition : Position;
  pdTargetPosition : Position;
  pdMoveStartTime : Z
}.

Definition playerData (p : Player) : PlayerData :=
  mkPlayerData (id p) (name p) (color p) (score p)
               (position p) (targetPosition p) (moveStartTime p).

(** The outbound payloads, one constructor per [type] the server sends. *)
Inductive BroadcastMessage :=
| playerJoined (joinedName : string)
| positionUpdate (playerId : string) (posX posY : number)
| chat (playerId senderName : string) (chatMessage : option string)
| gameOver (winner : option PlayerData)
| gameStateSnapshot (snapBoard : Board) (snapPlayers : list PlayerData)
                    (snapChat : list string) (remaining : Z).

(** ** JavaScript [Map] as an insertion-ordered association list *)

Section JsMap.
Context {K V : Type} `{EqDecision K}.

(** [m.set(k, v)]: replaces the value of an existing key in place,
    appends a new key. *)
Fixpoint mapSet (k : K) (v : V) (m : list (K * V)) : list (K * V) :=
  match m with
  | [] => [(k, v)]
  | (k', v') :: m' =>
      if decide (k' = k) then (k, v) :: m' else (k', v') :: mapSet k v m'
  end.

(** [m.get(k)] *)
Fixpoint mapGet (k : K) (m : list (K * V)) : option V :=
  match m with
  | [] => None
  | (k', v') :: m' => if decide (k' = k) then Some v' else mapGet k m'
  end.

(** [m.delete(k)] *)
Fixpoint mapDelete (k : K) (m : list (K * V)) : list (K * V) :=
  match m with
  | [] => []
  | (k', v') :: m' =>
      if decide (k' = k) then mapDelete k m' else (k', v') :: mapDelete k m'
  end.
End JsMap.

(** ** Server state *)

(** The module-level [rooms] and [playerMap], the two object heaps, the
    running [setInterval] timers (one entry per timer, naming its room)
    and the log of everything written to a socket. *)
Record Server := mkServer {
  rooms : list (string * nat);
  playerMap : list (nat * nat);
  roomHeap : list Room;
  playerHeap : list Player;
  intervals : list nat;
  sent : list (nat * BroadcastMessage)
}.

Definition initialServer : Server := mkServer [] [] [] [] [] [].

(** Field updates. *)
Definition setRooms (v : list (string * nat)) (s : Server) : Server :=
  mkServer v (playerMap s) (roomHeap s) (playerHeap s) (intervals s) (sent s).
Definition setPlayerMap (v : list (nat * nat)) (s : Server) : Server :=
  mkServer (rooms s) v (roomHeap s) (playerHeap s) (intervals s) (sent s).
Definition setRoomHeap (v : list Room) (s : Server) : Server :=
  mkServer (rooms s) (playerMap s) v (playerHeap s) (intervals s) (sent s).
Definition setPlayerHeap (v : list Player) (s : Server) : Server :=
  mkServer (rooms s) (playerMap s) (roomHeap s) v (intervals s) (sent s).
Definition setIntervals (v : list nat) (s : Server) : Server :=
  mkServer (rooms s) (playerMap s) (roomHeap s) (playerHeap s) v (sent s).
Definition setSent (v : list (nat * BroadcastMessage)) (s : Server) : Server :=
  mkServer (rooms s) (playerMap s) (roomHeap s) (playerHeap s) (intervals s) v.

Definition setPlayers (v : list (string * nat)) (r : Room) : Room :=
  mkRoom (roomId r) v (gameState r) (duration r) (startTime r).
Definition setGameState (v : GameState) (r : Room) : Room :=
  mkRoom (roomId r) (players r) v (duration r) (startTime r).
Definition setStartTime (v : Z) (r : Room) : Room :=
  mkRoom (roomId r) (players r) (gameState r) (duration r) v.

Definition setBoard (v : Board) (g : GameState) : GameState :=
  mkGameState v (gsPlayers g) (chatMessages g).
Definition setGsPlayers (v : list nat) (g : GameState) : GameState :=
  mkGameState (board g) v (chatMessages g).
Definition setChatMessages (v : list string) (g : GameState) : GameState :=
  mkGameState (board g) (gsPlayers g) v.

Definition setRoom (v : option nat) (p : Player) : Player :=
  mkPlayer (id p) (name p) (color p) (score p) (position p) (targetPosition p)
           (moveStartTime p) (socket p) v.
Definition setScore (v : Z) (p : Player) : Player :=
  mkPlayer (id p) (name p) (color p) v (position p) (targetPosition p)
           (moveStartTime p) (socket p) (room p).
Definition setPosition (v : Position) (p : Player) : Player :=
  mkPlayer (id p) (name p) (color p) (score p) v (targetPosition p)
           (moveStartTime p) (socket p) (room p).
Definition setTargetPosition (v : Position) (p : Player) : Player :=
  mkPlayer (id p) (name p) (color p) (score p) (position p) v
           (moveStartTime p) (socket p) (room p).
Definition setName (v : string) (p : Player) : Player :=
  mkPlayer (id p) v (color p) (score p) (position p) (targetPosition p)
           (moveStartTime p) (socket p) (room p).
Definition setColor (v : string) (p : Player) : Player :=
  mkPlayer (id p) (name p) v (score p) (position p) (targetPosition p)
           (moveStartTime p) (socket p) (room p).

(** Storing a mutated object back at its address (always an address
    that was just read). *)
Definition writePlayer (a : nat) (p : Player) (s : Server) : Server :=
  setPlayerHeap (<[a := p]> (playerHeap s)) s.
Definition writeRoom (a : nat) (r : Room) (s : Server) : Server :=
  setRoomHeap (<[a := r]> (roomHeap s)) s.

(** ** Broadcasting *)

(** [for (const player of room.players.values()) player.socket.send(msg)] *)
Definition socketsOf (heap : list Player) (members : list (string * nat)) : option (list nat) :=
  mapM (fun kv => socket <$> heap !! kv.2) members.

(** [broadcastMessage] *)
Definition broadcastMessage (ra : nat) (msg : BroadcastMessage) (s : Server) : option Server :=
  r ← roomHeap s !! ra;
  socks ← socketsOf (playerHeap s) (players r);
  Some (setSent (sent s ++ map (fun sk => (sk, msg)) socks) s).

(** [broadcastGameState] *)
Definition broadcastGameState (ra : nat) (remainingTime : Z) (s : Server) : option Server :=
  r ← roomHeap s !! ra;
  playersData ← mapM (fun a => playerData <$> playerHeap s !! a) (gsPlayers (gameState r));
  let message :=
    gameStateSnapshot (board (gameState r)) playersData
                      (chatMessages (gameState r)) (remainingTime / 1000) in
  socks ← socketsOf (playerHeap s) (players r);
  Some (setSent (sent s ++ map (fun sk => (sk, message)) socks) s).

(** ** Territory and scoring *)

(** The nine [claimPositions] of [claimInitialTerritory], in source order. *)
Definition claimPositions (p : Position) : list Position :=
  [ mkPosition (px p) (py p);
    mkPosition (px p - 1) (py p);
    mkPosition (px p + 1) (py p);
    mkPosition (px p) (py p - 1);
    mkPosition (px p) (py p + 1);
    mkPosition (px p - 1) (py p - 1);
    mkPosition (px p - 1) (py p + 1);
    mkPosition (px p + 1) (py p - 1);
    mkPosition (px p + 1) (py p + 1) ].

(** The loop of [claimInitialTerritory] over a list of positions. *)
Fixpoint claimAll (b : Board) (ps : list Position) (c : string) : option Board :=
  match ps with
  | [] => Some b
  | p :: ps' => b' ← claimCell b p c; claimAll b' ps' c
  end.

(** [claimInitialTerritory] *)
Definition claimInitialTerritory (ra pa : nat) (s : Server) : option Server :=
  r ← roomHeap s !! ra;
  player ← playerHeap s !! pa;
  b' ← claimAll (board (gameState r)) (claimPositions (position player)) (color player);
  Some (writeRoom ra (setGameState (setBoard b' (gameState r)) r) s).

(** One iteration of the loop of [updateGame], on the board and the
    player heap. *)
Definition updateGameStep (st : Board * list Player) (pa : nat) : option (Board * list Player) :=
  player ← st.2 !! pa;
  b' ← claimCell st.1 (position player) (color player);
  Some (b', <[pa := setScore (countPlayerSquares b' (color player)) player]> st.2).

(** The loop of [updateGame] over [gameState.players]. *)
Fixpoint updateGameLoop (ps : list nat) (st : Board * list Player) : option (Board * list Player) :=
  match ps with
  | [] => Some st
  | pa :: ps' => st' ← updateGameStep st pa; updateGameLoop ps' st'
  end.

(** [updateGame] *)
Definition updateGame (ra : nat) (s : Server) : option Server :=
  r ← roomHeap s !! ra;
  st ← updateGameLoop (gsPlayers (gameState r)) (board (gameState r), playerHeap s);
  Some (setPlayerHeap st.2 (writeRoom ra (setGameState (setBoard st.1 (gameState r)) r) s)).

(** The [reduce] of [endGame]: its initial value is [players[0]], so an
    empty array gives [undefined]. *)
Definition endGameWinner (ps : list Player) : option Player :=
  match ps with
  | [] => None
  | p0 :: _ =>
      Some (fold_left (fun maxScorePlayer player =>
                         if score player >? score maxScorePlayer
                         then player else maxScorePlayer) ps p0)
  end.

(** [endGame] *)
Definition endGame (ra : nat) (s : Server) : option Server :=
  r ← roomHeap s !! ra;
  ps ← mapM (fun a => playerHeap s !! a) (gsPlayers (gameState r));
  s1 ← broadcastMessage ra (gameOver (playerData <$> endGameWinner ps)) s;
  Some (setRooms (mapDelete (roomId r) (rooms s1)) s1).

(** ** Rooms: creation, joining, leaving *)

(** [createRoom]; [newRoomId] is the value [generateId()] returns. *)
Definition createRoom (newRoomId : string) (s : Server) : nat * Server :=
  let r := mkRoom newRoomId [] (mkGameState createBoard [] []) gameDuration 0 in
  let ra := length (roomHeap s) in
  (ra, setRooms (mapSet newRoomId ra (rooms s)) (setRoomHeap (roomHeap s ++ [r]) s)).

(** The scan of [findOrCreateRoom] over [rooms.values()]: the first room
    with a free seat, if any. *)
Fixpoint findRoom (heap : list Room) (dir : list (string * nat)) : option (option nat) :=
  match dir with
  | [] => Some None
  | (_, ra) :: dir' =>
      r ← heap !! ra;
      if decide (length (players r) < maxPlayers)%nat
      then Some (Some ra) else findRoom heap dir'
  end.

(** [findOrCreateRoom] *)
Definition findOrCreateRoom (newRoomId : string) (s : Server) : option (nat * Server) :=
  found ← findRoom (roomHeap s) (rooms s);
  match found with
  | Some ra => Some (ra, s)
  | None => Some (createRoom newRoomId s)
  end.

(** The [for] loop of [startGame] over [room.players.values()]: a fresh
    spawn point per player ([spawn i] holds the draws of iteration [i]),
    and the player is pushed onto [gameState.players]. *)
Fixpoint startGameLoop (spawn : nat → Z * Z) (i : nat) (members : list (string * nat))
    (st : list Player * list nat) : option (list Player * list nat) :=
  match members with
  | [] => Some st
  | (_, pa) :: members' =>
      player ← st.1 !! pa;
      let pos := getRandomPosition (spawn i).1 (spawn i).2 in
      startGameLoop spawn (S i) members'
        (<[pa := setTargetPosition pos (setPosition pos player)]> st.1, st.2 ++ [pa])
  end.

(** [startGame]: everything up to and including [setInterval]; the
    timer's callback is [intervalCallback] below. *)
Definition startGame (ra : nat) (now : Z) (spawn : nat → Z * Z) (s : Server) : option Server :=
  r ← roomHeap s !! ra;
  let r1 := setStartTime now r in
  st ← startGameLoop spawn 0 (players r1) (playerHeap s, gsPlayers (gameState r1));
  Some (setIntervals (intervals s ++ [ra])
          (setPlayerHeap st.1
             (writeRoom ra (setGameState (setGsPlayers st.2 (gameState r1)) r1) s))).

(** [joinRoom] *)
Definition joinRoom (pa ra : nat) (now : Z) (spawn : nat → Z * Z) (s : Server) : option Server :=
  player ← playerHeap s !! pa;
  r ← roomHeap s !! ra;
  let player1 := setRoom (Some ra) player in
  let r1 := setPlayers (mapSet (id player) pa (players r)) r in
  let s1 := writeRoom ra r1 (writePlayer pa player1 s) in
  if decide (length (players r1) = 1%nat)
  then startGame ra now spawn s1
  else
    let pos := getRandomPosition (spawn 0%nat).1 (spawn 0%nat).2 in
    let s2 := writePlayer pa (setTargetPosition pos (setPosition pos player1)) s1 in
    s3 ← claimInitialTerritory ra pa s2;
    broadcastMessage ra (playerJoined (name player1)) s3.

(** [leaveRoom] *)
Definition leaveRoom (pa : nat) (s : Server) : option Server :=
  player ← playerHeap s !! pa;
  match room player with
  | None => Some s
  | Some ra =>
      r ← roomHeap s !! ra;
      let r1 := setPlayers (mapDelete (id player) (players r)) r in
      let s1 := writePlayer pa (setRoom None player) (writeRoom ra r1 s) in
      if decide (length (players r1) = 0%nat)
      then Some (setRooms (mapDelete (roomId r1) (rooms s1)) s1)
      else Some s1
  end.

(** ** Message dispatch *)

(** The text a template literal gives an optional string. *)
Definition templateText (o : option string) : string := default "undefined" o.

(** [processMessage]; [parsed] is the value [onmessage] got from
    [JSON.parse], and [digits] are the draws of the [getRandomColor()]
    call of the [join] case.  The [switch] reads [message.type], which
    throws when the value is [null]. *)
Definition processMessage (pa : nat) (parsed : JsonValue) (digits : list nat)
    (s : Server) : option Server :=
  player ← playerHeap s !! pa;
  match room player with
  | None => Some s
  | Some ra =>
      message ← fieldsOf parsed;
      if decide (msgType message = Some "join") then
        Some (writePlayer pa
                (setColor (getRandomColor digits)
                   (setName (default "" (msgName message)) player)) s)
      else if decide (msgType message = Some "move") then
        let player1 := updatePlayerPosition player
                         (default "" (msgDirection message))
                         (default 0%Q (msgSpeed message)) in
        broadcastMessage ra
          (positionUpdate (id player1) (px (position player1)) (py (position player1)))
          (writePlayer pa player1 s)
      else if decide (msgType message = Some "stop") then
        Some (writePlayer pa (setTargetPosition (position player) player) s)
      else if decide (msgType message = Some "chat") then
        r ← roomHeap s !! ra;
        let line := name player +:+ ": " +:+ templateText (msgChatMessage message) in
        let g1 := setChatMessages (chatMessages (gameState r) ++ [line]) (gameState r) in
        broadcastMessage ra
          (chat (id player) (name player) (msgChatMessage message))
          (writeRoom ra (setGameState g1 r) s)
      else Some s
  end.

(** ** The game loop *)

(** [clearInterval(intervalId)]: the timer of this callback stops. *)
Fixpoint clearInterval (ra : nat) (timers : list nat) : list nat :=
  match timers with
  | [] => []
  | t :: timers' => if decide (t = ra) then timers' else t :: clearInterval ra timers'
  end.

(** The callback [startGame] hands to [setInterval]; [now] is the value
    of [Date.now()]. *)
Definition intervalCallback (ra : nat) (now : Z) (s : Server) : option Server :=
  s1 ← updateGame ra s;
  r ← roomHeap s1 !! ra;
  let remainingTime := duration r - (now - startTime r) in
  s2 ← (if decide (remainingTime ≤ 0)
        then s' ← endGame ra s1; Some (setIntervals (clearInterval ra (intervals s')) s')
        else Some s1);
  broadcastGameState ra remainingTime s2.

(** ** Connection handlers of [handle] *)

(** What one new connection draws: the ids [generateId()] returns, the
    digits of its color, the draws behind the two positions of
    [createPlayer] and those of the spawn points set on joining. *)
Record Entropy := mkEntropy {
  newPlayerId : string;
  newRoomId : string;
  colorDigits : list nat;
  firstPosition : Z * Z;
  firstTarget : Z * Z;
  spawnDraws : nat → Z * Z
}.

(** [createPlayer] *)
Definition createPlayer (sock : nat) (e : Entropy) : Player :=
  mkPlayer (newPlayerId e) "" (getRandomColor (colorDigits e)) 0
           (getRandomPosition (firstPosition e).1 (firstPosition e).2)
           (getRandomPosition (firstTarget e).1 (firstTarget e).2)
           0 sock None.

(** [socket.onopen] *)
Definition onopen (sock : nat) (now : Z) (e : Entropy) (s : Server) : option Server :=
  let pa := length (playerHeap s) in
  let s1 := setPlayerMap (mapSet sock pa (playerMap s))
              (setPlayerHeap (playerHeap s ++ [createPlayer sock e]) s) in
  '(ra, s2) ← findOrCreateRoom (newRoomId e) s1;
  joinRoom pa ra now (spawnDraws e) s2.

(** [socket.onmessage]: the frame is parsed before the player is
    looked up. *)
Definition onmessage (sock : nat) (frame : Frame) (digits : list nat)
    (s : Server) : option Server :=
  message ← JSON_parse frame;
  match mapGet sock (playerMap s) with
  | Some pa => processMessage pa message digits s
  | None => Some s
  end.

(** [socket.onclose] *)
Definition onclose (sock : nat) (s : Server) : option Server :=
  match mapGet sock (playerMap s) with
  | Some pa =>
      s1 ← leaveRoom pa s;
      Some (setPlayerMap (mapDelete sock (playerMap s1)) s1)
  | None => Some s
  end.

(** ** Runs of the server *)

Inductive Event :=
| Open (sock : nat) (now : Z) (e : Entropy)
| Receive (sock : nat) (frame : Frame) (digits : list nat)
| Close (sock : nat)
| Tick (ra : nat) (now : Z).

(** One event handled to completion.  A timer fires only while it is
    running: the tick of a timer that is not running is no event of the
    server, and has no result either. *)
Definition handleEvent (ev : Event) (s : Server) : option Server :=
  match ev with
  | Open sock now e => onopen sock now e s
  | Receive sock frame digits => onmessage sock frame digits s
  | Close sock => onclose sock s
  | Tick ra now => if decide (ra ∈ intervals s) then intervalCallback ra now s else None
  end.

Fixpoint run (evs : list Event) (s : Server) : option Server :=
  match evs with
  | [] => Some s
  | ev :: evs' => s' ← handleEvent ev s; run evs' s'
  end.

(** The states the server can be in: those some sequence of events leads
    to from the empty server. *)
Definition reachable (s : Server) : Prop :=
  ∃ evs, run evs initialServer = Some s.

(** ** Vocabulary of the statements *)

(** Number of cells of a row, and of a board, owned by color [c]. *)
Definition ownedInRow (c : string) (row : list string) : nat :=
  length (filter (fun cell => cell = c) row).
Definition owned (c : string) (b : Board) : nat :=
  sum_list (map (ownedInRow c) b).

(** Dereferencing a list of player references. *)
Definition playersAt (heap : list Player) (refs : list nat) : option (list Player) :=
  mapM (fun a => heap !! a) refs.


(** Every value of a room's [players] map is an allocated player. *)
Definition membersLive (heap : list Player) (members : list (string * nat)) : Prop :=
  Forall (fun kv => (kv.2 < length heap)%nat) members.

(** No room object holds more than [maxPlayers] sessions. *)
Definition capacityOk (s : Server) : Prop :=
  Forall (fun r => (length (players r) ≤ maxPlayers)%nat) (roomHeap s).

(** The 3×3 block around [sp]. *)
Definition inBlock (sp : Position) (cx cy : Z) : Prop :=
  (Qabs (inject_Z cx - px sp) <= 1)%Q ∧ (Qabs (inject_Z cy - py sp) <= 1)%Q.

#[global] Instance boardShape_dec b : Decision (boardShape b).
Proof. unfold boardShape. apply _. Defined.
#[global] Instance membersLive_dec heap members : Decision (membersLive heap members).
Proof. unfold membersLive. apply _. Defined.
#[global] Instance capacityOk_dec s : Decision (capacityOk s).
Proof. unfold capacityOk. apply _. Defined.
#[global] Instance inBlock_dec sp cx cy : Decision (inBlock sp cx cy).
Proof. unfold inBlock, Qle. apply _. Defined.

(** A position both of whose coordinates are integers, as every spawn
    point is and as moves by integer speeds keep it. *)
Definition integral (p : Position) : Prop :=
  is_Some (toIndex (px p)) ∧ is_Some (toIndex (py p)).

#[global] Instance integral_dec p : Decision (integral p).
Proof. unfold integral. apply _. Defined.

(** ** Two connections used in the worked runs *)

(** Alice spawns on the top side at (10, 0) with color [#123456]. *)
Definition aliceEntropy : Entropy :=
  mkEntropy "alice" "room-1" [1; 2; 3; 4; 5; 6]%nat (0, 3) (1, 4) (fun _ => (0, 10)).

(** Bob spawns on the left side at (0, 20) with color [#ABCDEF]. *)
Definition bobEntropy : Entropy :=
  mkEntropy "bob" "room-2" [10; 11; 12; 13; 14; 15]%nat (2, 7) (3, 8) (fun _ => (3, 20)).

(** A [move] message. *)
Definition moveMessage (direction : string) (speed : number) : Message :=
  mkMessage (Some "move") None (Some direction) (Some speed) None.

(** The state a run ends in (the empty server if a handler failed). *)
Definition stateAfter (evs : list Event) : Server :=
  default initialServer (run evs initialServer).

(** Three more connections, and five players arriving one after the
    other. *)
Definition carolEntropy : Entropy :=
  mkEntropy "carol" "room-3" [0; 0; 15; 15; 0; 0]%nat (0, 0) (0, 0) (fun _ => (1, 5)).
Definition daveEntropy : Entropy :=
  mkEntropy "dave" "room-4" [15; 0; 0; 0; 0; 0]%nat (0, 0) (0, 0) (fun _ => (2, 49)).
Definition erinEntropy : Entropy :=
  mkEntropy "erin" "room-5" [0; 0; 0; 0; 15; 15]%nat (0, 0) (0, 0) (fun _ => (0, 0)).

Definition fiveConnections : list Event :=
  [Open 1 1000 aliceEntropy; Open 2 1500 bobEntropy; Open 3 2000 carolEntropy;
   Open 4 2500 daveEntropy; Open 5 3000 erinEntropy].

(** The [gameOver] messages of a send log, with their recipients. *)
Definition gameOvers (log : list (nat * BroadcastMessage)) : list (nat * option PlayerData) :=
  omap (fun m => match m.2 with gameOver w => Some (m.1, w) | _ => None end) log.

(** ** The Go port (goserver/main.go)

    The functions of the Go server that the statements below refer to,
    over the same records.  A Go map is iterated in an order the runtime
    picks; the list order of [players] stands for that order. *)
Module GoServer.

(** [updatePlayerPosition]: the step is the constant [playerSpeed]. *)
Definition updatePlayerPosition (player : Player) (direction : string) : Player :=
  let tp := targetPosition player in
  let tp' :=
    if decide (direction = "up") then mkPosition (px tp) (py tp - inject_Z playerSpeed)%Q
    else if decide (direction = "down") then mkPosition (px tp) (py tp + inject_Z playerSpeed)%Q
    else if decide (direction = "left") then mkPosition (px tp - inject_Z playerSpeed)%Q (py tp)
    else if decide (direction = "right") then mkPosition (px tp + inject_Z playerSpeed)%Q (py tp)
    else tp in
  mkPlayer (id player) (name player) (color player) (score player)
           tp' tp' (moveStartTime player) (socket player) (room player).

(** The loop of [endGame] over [room.Players]: [winner] starts as [nil]
    and [maxScore] as 0. *)
Definition endGameWinner (ps : list Player) : option Player :=
  (fold_left
     (fun (acc : option Player * Z) player =>
        if score player >? acc.2 then (Some player, score player) else acc)
     ps (None, 0)).1.

(** [getRandomColor]; [i] is [rand.Intn(len(colors))]. *)
Definition getRandomColor (i : nat) : string :=
  default "" (["#f44336"; "#e91e63"; "#9c27b0"; "#673ab7"; "#3f51b5"; "#2196f3";
               "#03a9f4"; "#00bcd4"; "#009688"; "#4caf50"; "#8bc34a"; "#cddc39";
               "#ffeb3b"; "#ffc107"; "#ff9800"; "#ff5722"] !! (i mod 16)%nat).

(** [processMessage]; [decoded] is [None] when [json.Unmarshal] returns
    an error.  Broadcasting through a [nil] room panics ([None]).  An
    absent [type] decodes to the empty string, which no case matches. *)
Definition processMessage (pa : nat) (decoded : option Message) (i : nat)
    (s : Server) : option Server :=
  match decoded with
  | None => Some s
  | Some msg =>
      player ← playerHeap s !! pa;
      if decide (msgType msg = Some "join") then
        Some (writePlayer pa
                (setColor (getRandomColor i) (setName (default "" (msgName msg)) player)) s)
      else if decide (msgType msg = Some "move") then
        let player1 := updatePlayerPosition player (default "" (msgDirection msg)) in
        ra ← room player;
        broadcastMessage ra
          (positionUpdate (id player1) (px (position player1)) (py (position player1)))
          (writePlayer pa player1 s)
      else if decide (msgType msg = Some "chat") then
        ra ← room player;
        r ← roomHeap s !! ra;
        let text := default "" (msgChatMessage msg) in
        let g1 := setChatMessages (chatMessages (gameState r) ++ [name player +:+ ": " +:+ text])
                    (gameState r) in
        broadcastMessage ra (chat (id player) (name player) (Some text))
          (writeRoom ra (setGameState g1 r) s)
      else Some s
  end.

End GoServer.

(** Cells owned by any of the colors [cs], in a row and in a board. *)
Definition ownedInRowBy (cs : list string) (row : list string) : nat :=
  sum_list (map (fun c => ownedInRow c row) cs).
Definition ownedBy (cs : list string) (b : Board) : nat :=
  sum_list (map (fun c => owned c b) cs).

(** How many of the colors [cs] equal [o] (at most one when [cs] has no
    duplicates). *)
Definition matches (o : string) (cs : list string) : nat :=
  sum_list (map (fun c => if decide (o = c) then 1%nat else 0%nat) cs).

(** ** Well-formed states

    In JavaScript every reference points at an object.  In the model a
    reference is an address, which is live when it lies inside its heap. *)

(** A room whose player references are live among [n] players and whose
    board has the shape [createBoard] gives it. *)
Definition roomWf (n : nat) (r : Room) : Prop :=
  Forall (fun kv => (kv.2 < n)%nat) (players r) ∧
  Forall (fun a => (a < n)%nat) (gsPlayers (gameState r)) ∧
  boardShape (board (gameState r)).

(** A player whose room reference, if any, is live among [n] rooms. *)
Definition roomRefLive (n : nat) (p : Player) : Prop :=
  match room p with Some ra => (ra < n)%nat | None => True end.

Definition wellFormed (s : Server) : Prop :=
  Forall (roomWf (length (playerHeap s))) (roomHeap s) ∧
  Forall (roomRefLive (length (roomHeap s))) (playerHeap s) ∧
  Forall (fun kv => (kv.2 < length (roomHeap s))%nat) (rooms s) ∧
  Forall (fun kv => (kv.2 < length (playerHeap s))%nat) (playerMap s) ∧
  Forall (fun ra => (ra < length (roomHeap s))%nat) (intervals s).

(** A step that keeps the state well formed and allocates nothing. *)
Definition okStep (s s' : Server) : Prop :=
  wellFormed s' ∧
  length (playerHeap s') = length (playerHeap s) ∧
  length (roomHeap s') = length (roomHeap s).

(** ** Proof automation *)

(** Splitting a successful [x ← m; k x]. *)
Ltac bind_inv H x Hx :=
  apply bind_Some in H as (x & Hx & H).

(** ** Vocabulary of the further statements *)

(** A sequence of guarded writes, each with its own color: what the loop
    of [updateGame] does to the board. *)
Fixpoint claimEach (b : Board) (cl : list (Position * string)) : option Board :=
  match cl with
  | [] => Some b
  | (p, c) :: cl' => b' ← claimCell b p c; claimEach b' cl'
  end.

(** Where the referenced players stand, and in which color. *)
Definition claimsOf (heap : list Player) (refs : list nat) : option (list (Position * string)) :=
  mapM (fun a => (fun p => (position p, color p)) <$> heap !! a) refs.

(** [p] stands on the in-grid cell [(cx, cy)]. *)
Definition standsOn (p : Position) (cx cy : Z) : Prop :=
  isValidPosition p = true ∧ toIndex (px p) = Some cx ∧ toIndex (py p) = Some cy.

#[global] Instance standsOn_dec p cx cy : Decision (standsOn p cx cy).
Proof. unfold standsOn. apply _. Defined.

(** The room object at an address (an empty room if there is none), and
    the players behind a list of references. *)
Definition roomAt (s : Server) (ra : nat) : Room :=
  default (mkRoom "" [] (mkGameState [] [] []) 0 0) (roomHeap s !! ra).
Definition listedPlayers (s : Server) (ra : nat) : list Player :=
  default [] (playersAt (playerHeap s) (gsPlayers (gameState (roomAt s ra)))).

(** Alice and Bob connected, in this order. *)
Definition aliceAndBob : Server :=
  stateAfter [Open 1 1000 aliceEntropy; Open 2 1500 bobEntropy].

(** ** The links between the directory, the rooms and the players *)

(** What a room and a player contribute to the linking structure: the
    room's id and sessions, the player's id and room reference. *)
Definition roster (r : Room) : string * list (string * nat) := (roomId r, players r).
Definition role (p : Player) : string * option nat := (id p, room p).

(** The linking structure of a state: the directory, the running
    timers, and the rosters and roles by address. *)
Definition Links : Type :=
  list (string * nat) * list nat * list (string * list (string * nat))
  * list (string * option nat).
Definition links (s : Server) : Links :=
  (rooms s, intervals s, map roster (roomHeap s), map role (playerHeap s)).

(** Every directory entry, except possibly the one for room [ex], names
    a room with this id, with a session and with a running timer. *)
Definition dirExceptV (ex : option nat) (v : Links) : Prop :=
  let '(R, T, RS, PS) := v in
  ∀ k ra, (k, ra) ∈ R →
    ∃ m, RS !! ra = Some (k, m) ∧ (Some ra ≠ ex → m ≠ [] ∧ ra ∈ T).

(** Every session of a room is filed under the player's id, and the
    player's room reference is this room. *)
Definition membersV (v : Links) : Prop :=
  let '(R, T, RS, PS) := v in
  ∀ ra k m i a, RS !! ra = Some (k, m) → (i, a) ∈ m → PS !! a = Some (i, Some ra).

Definition linked (s : Server) : Prop :=
  dirExceptV None (links s) ∧ membersV (links s).

(** ** Players at rest *)

(** A player whose position and target coincide and whose score is a
    number of cells of the board. *)
Definition playerOk (p : Player) : Prop :=
  position p = targetPosition p ∧ 0 ≤ score p ≤ boardSize * boardSize.

(** A [stop] message. *)
Definition stopMessage : Message := mkMessage (Some "stop") None None None None.

(** Every player of the heap has a score that is a number of cells, and
    every one except possibly the player at [ex] is at rest. *)
Definition restExcept (ex : option nat) (heap : list Player) : Prop :=
  ∀ a p, heap !! a = Some p →
    0 ≤ score p ≤ boardSize * boardSize ∧
    (Some a ≠ ex → position p = targetPosition p).

(** ** More of the Go port (goserver/main.go)

    [countPlayerSquares] is the same two loops as in server.ts and is
    shared with it. *)
Module GoGame.

Definition boardSize : Z := 40.

(** [createBoard]: [make] fills the rows with the zero value of
    [string]. *)
Definition createBoard : Board :=
  replicate (Z.to_nat boardSize) (replicate (Z.to_nat boardSize) "").

(** [updateGame] over the values of [room.Players]: every player's score
    becomes the count of its color; the board is read only. *)
Definition updateGame (b : Board) (ps : list Player) : list Player :=
  map (fun player => setScore (countPlayerSquares b (color player)) player) ps.

End GoGame.

(** ** Claimed cells *)

(** The in-grid cell [(cx, cy)] of the board carries a color, that is,
    anything but the empty string [createBoard] fills it with. *)
Definition claimedAt (b : Board) (cx cy : Z) : Prop :=
  ∃ c, cellAt b cx cy = Some c ∧ c ≠ "".

(** Every cell claimed on a board of [s] is still claimed on the board
    of the same room in [s']. *)
Definition keepsClaims (s s' : Server) : Prop :=
  ∀ ra r cx cy, roomHeap s !! ra = Some r → claimedAt (board (gameState r)) cx cy →
    ∃ r', roomHeap s' !! ra = Some r' ∧ claimedAt (board (gameState r')) cx cy.

(** No player has the empty string as its color. *)
Definition colorsOk (heap : list Player) : Prop :=
  Forall (fun p => color p ≠ "") heap.

(** The player object at an address (a blank player if there is
    none). *)
Definition playerAt (s : Server) (a : nat) : Player :=
  default (mkPlayer "" "" "" 0 (mkPosition 0 0) (mkPosition 0 0) 0 0 None)
          (playerHeap s !! a).

(** ** The history of a room *)

(** Room [r'] is room [r] later on: the same id and duration, and a
    chat log that extends that of [r]. *)
Definition roomGrows (r r' : Room) : Prop :=
  roomId r' = roomId r ∧ duration r' = duration r ∧
  chatMessages (gameState r) `prefix_of` chatMessages (gameState r').

(** Every room object of [s] is still there in [s'], grown. *)
Definition roomsGrow (s s' : Server) : Prop :=
  ∀ ra r, roomHeap s !! ra = Some r → ∃ r', roomHeap s' !! ra = Some r' ∧ roomGrows r r'.

(** A position at which the guarded write of a claim does not throw: if
    it passes [isValidPosition], its row coordinate is an integer. *)
Definition claimable (p : Position) : Prop :=
  isValidPosition p = true → is_Some (toIndex (py p)).

#[global] Instance claimable_dec p : Decision (claimable p).
Proof. unfold claimable. apply _. Defined.


(** The frames a client playing the game sends: a JSON value other than
    [null] whose speed, if it has one, is an integer. *)
Definition integerFrame (f : Frame) : Prop :=
  match f with
  | badFrame => False
  | jsonFrame jNull => False
  | jsonFrame jOther => True
  | jsonFrame (jObject m) =>
      match msgSpeed m with
      | Some v => is_Some (toIndex v)
      | None => True
      end
  end.

Definition integerEvent (ev : Event) : Prop :=
  match ev with
  | Receive _ f _ => integerFrame f
  | _ => True
  end.

#[global] Instance integerFrame_dec f : Decision (integerFrame f).
Proof. destruct f as [|[| |m]]; cbn; [apply _..|]. destruct (msgSpeed m); apply _. Defined.
#[global] Instance integerEvent_dec ev : Decision (integerEvent ev).
Proof. destruct ev; cbn; apply _. Defined.

(** The speed a [move] would read off a frame. *)
Definition frameSpeed (f : Frame) : number :=
  match f with
  | jsonFrame (jObject m) => default 0%Q (msgSpeed m)
  | _ => 0%Q
  end.

(** The speed an event carries satisfies [okSpeed], the draws of a new
    connection satisfy [okNew]. *)
Definition eventIn (okSpeed : number → Prop) (okNew : Entropy → Prop) (ev : Event) : Prop :=
  match ev with
  | Open _ _ e => okNew e
  | Receive _ f _ => okSpeed (frameSpeed f)
  | _ => True
  end.


(** A second connection that draws Alice's id, spawn point included:
    the one way a room comes to list two players. *)
Definition twinEntropy : Entropy :=
  mkEntropy "alice" "room-9" [10; 11; 12; 13; 14; 15]%nat (0, 0) (0, 0) (fun _ => (0, 10)).
Definition twoListed : Server :=
  stateAfter [Open 1 1000 aliceEntropy; Open 2 1500 twinEntropy].

(** Alice, alone in her room at (10, 0), moves by half a cell: down, or
    to the right. *)
Definition halfStepDown : list Event :=
  [Open 1 1000 aliceEntropy;
   Receive 1 (jsonFrame (jObject (moveMessage "down" (1 # 2)))) []].
Definition halfStepRight : list Event :=
  [Open 1 1000 aliceEntropy;
   Receive 1 (jsonFrame (jObject (moveMessage "right" (1 # 2)))) []].

(** ** Who is listed and who is scored *)







(** * Properties of the grid *)

Section Grid.
Implicit Types (b : Board) (row : list string) (p : Position) (c : string).

Lemma countRow_spec c row (n : Z) :
  fold_left (fun count cell => if decide (cell = c) then count + 1 else count) row n
  = n + Z.of_nat (ownedInRow c row).
Proof.
  revert n. induction row as [|cell row IH]; intros n; simpl.
  - unfold ownedInRow. simpl. lia.
  - rewrite IH. unfold ownedInRow. rewrite filter_cons.
    destruct (decide (cell = c)); simpl; lia.
Qed.

Lemma countPlayerSquares_owned b c :
  countPlayerSquares b c = Z.of_nat (owned c b).
Proof.
  unfold countPlayerSquares.
  assert (H : ∀ n, fold_left
    (fun count row =>
       fold_left (fun count cell => if decide (cell = c) then count + 1 else count)
                 row count) b n = n + Z.of_nat (owned c b)).
  { induction b as [|row b IH]; intros n; simpl.
    - unfold owned. simpl. lia.
    - rewrite IH, countRow_spec. unfold owned. simpl. lia. }
  rewrite H. lia.
Qed.

(** *** Numbers as indices *)

Lemma toIndex_inject (z : Z) : toIndex (inject_Z z) = Some z.
Proof.
  unfold toIndex, inject_Z. cbn [Qnum Qden].
  rewrite Z.mod_1_r, Z.div_1_r. by rewrite decide_True.
Qed.

Lemma toIndex_Some (x : number) (z : Z) : toIndex x = Some z ↔ (x == inject_Z z)%Q.
Proof.
  unfold toIndex, Qeq, inject_Z. cbn [Qnum Qden]. split.
  - case_decide as H; [|done]. intros [= <-].
    apply Z.div_exact in H; [|done]. lia.
  - intros H. rewrite Z.mul_1_r in H. rewrite H.
    rewrite Z.mod_mul by done. rewrite decide_True by done.
    by rewrite Z.div_mul.
Qed.

Lemma toIndex_zero : toIndex 0 = Some 0.
Proof. reflexivity. Qed.

Lemma integral_inject (x y : Z) : integral (mkPosition (inject_Z x) (inject_Z y)).
Proof. split; cbn [px py]; rewrite toIndex_inject; by eexists. Qed.

Lemma geZero_iff (x : number) : geZero x = true ↔ (0 <= x)%Q.
Proof. apply Qle_bool_iff. Qed.

Lemma ltBoardSize_iff (x : number) : ltBoardSize x = true ↔ (x < inject_Z boardSize)%Q.
Proof.
  unfold ltBoardSize. rewrite negb_true_iff, <- not_true_iff_false, Qle_bool_iff.
  split; [apply Qnot_le_lt|apply Qlt_not_le].
Qed.

Lemma isValidPosition_iff p :
  isValidPosition p = true ↔
  (0 <= px p)%Q ∧ (px p < inject_Z boardSize)%Q ∧
  (0 <= py p)%Q ∧ (py p < inject_Z boardSize)%Q.
Proof.
  unfold isValidPosition.
  rewrite !andb_true_iff, !geZero_iff, !ltBoardSize_iff. tauto.
Qed.

Lemma inject_Z_range (x : number) (z : Z) :
  (x == inject_Z z)%Q →
  ((0 <= x)%Q ∧ (x < inject_Z boardSize)%Q ↔ 0 ≤ z < boardSize).
Proof.
  intros Heq. rewrite Heq. rewrite (Zle_Qle 0 z), (Zlt_Qlt z boardSize). done.
Qed.

(** A valid position with integer coordinates names a cell of the grid. *)
Lemma isValidPosition_cell p (cx cy : Z) :
  toIndex (px p) = Some cx → toIndex (py p) = Some cy →
  (isValidPosition p = true ↔ 0 ≤ cx < boardSize ∧ 0 ≤ cy < boardSize).
Proof.
  intros Hx%toIndex_Some Hy%toIndex_Some. rewrite isValidPosition_iff.
  rewrite <- (inject_Z_range _ _ Hx), <- (inject_Z_range _ _ Hy). tauto.
Qed.

Lemma isValidPosition_inject (cx cy : Z) :
  isValidPosition (mkPosition (inject_Z cx) (inject_Z cy)) = true
  ↔ 0 ≤ cx < boardSize ∧ 0 ≤ cy < boardSize.
Proof. apply isValidPosition_cell; cbn [px py]; apply toIndex_inject. Qed.

(** *** The board *)

Lemma boardShape_createBoard : boardShape createBoard.
Proof.
  split.
  - unfold createBoard. apply length_replicate.
  - unfold createBoard. apply Forall_replicate, length_replicate.
Qed.

Lemma boardShape_row b y row :
  boardShape b → b !! y = Some row → length row = Z.to_nat boardSize.
Proof. intros [_ H] Hy. eapply Forall_lookup_1 in H; eauto. Qed.

Lemma cellWrite_shape b (cx cy : Z) c b' :
  boardShape b → cellWrite b cx cy c = Some b' → boardShape b'.
Proof.
  intros Hb Hw. unfold cellWrite in Hw.
  case_decide; [|done].
  destruct (b !! Z.to_nat cy) as [row|] eqn:Hrow; simpl in Hw; [|done].
  case_decide; [|done]. injection Hw as <-.
  destruct Hb as [Hl Hr]. split.
  - by rewrite length_insert.
  - apply Forall_insert; [done|]. rewrite length_insert.
    eapply boardShape_row; [split|]; eauto.
Qed.

Lemma cellWrite_defined b (cx cy : Z) c :
  boardShape b → 0 ≤ cx < boardSize → 0 ≤ cy < boardSize →
  is_Some (cellWrite b cx cy c).
Proof.
  intros Hb Hx Hy. unfold cellWrite.
  rewrite decide_True by lia.
  destruct (lookup_lt_is_Some_2 b (Z.to_nat cy)) as [row Hrow].
  { destruct Hb as [-> _]. lia. }
  rewrite Hrow. simpl. rewrite decide_True; [eauto|].
  rewrite (boardShape_row b _ row Hb Hrow). lia.
Qed.

Lemma boardWrite_shape b p c b' :
  boardShape b → boardWrite b p c = Some b' → boardShape b'.
Proof.
  intros Hb Hw. unfold boardWrite in Hw.
  destruct (toIndex (py p)) as [cy|]; [|done].
  destruct (toIndex (px p)) as [cx|].
  - by eapply cellWrite_shape.
  - case_decide; [|done]. bind_inv Hw row Hrow. by injection Hw as <-.
Qed.

(** On a board of the server's shape a guarded write returns unless the
    row index is no integer. *)
Lemma boardWrite_defined b p c :
  boardShape b → isValidPosition p = true →
  is_Some (boardWrite b p c) ↔ is_Some (toIndex (py p)).
Proof.
  intros Hb Hv. unfold boardWrite.
  destruct (toIndex (py p)) as [cy|] eqn:Hy; [|split; by intros []].
  split; [by eexists|]. intros _.
  apply isValidPosition_iff in Hv as (Hx1 & Hx2 & Hy1 & Hy2).
  assert (Hcy : 0 ≤ cy < boardSize).
  { apply toIndex_Some in Hy. by apply (inject_Z_range _ _ Hy). }
  destruct (toIndex (px p)) as [cx|] eqn:Hx.
  - apply cellWrite_defined; [done| |done].
    apply toIndex_Some in Hx. by apply (inject_Z_range _ _ Hx).
  - rewrite decide_True by lia.
    destruct (lookup_lt_is_Some_2 b (Z.to_nat cy)) as [row Hrow].
    { destruct Hb as [-> _]. lia. }
    rewrite Hrow. by eexists.
Qed.

Lemma claimCell_defined b p c :
  boardShape b → is_Some (toIndex (py p)) → is_Some (claimCell b p c).
Proof.
  intros Hb Hy. unfold claimCell. destruct (isValidPosition p) eqn:Hv; [|eauto].
  by apply boardWrite_defined.
Qed.

(** A claim on a board of the server's shape throws exactly when the
    position passes the guard with a row coordinate that is no integer. *)
Lemma claimCell_throws b p c :
  boardShape b →
  claimCell b p c = None ↔ isValidPosition p = true ∧ toIndex (py p) = None.
Proof.
  intros Hb. unfold claimCell. destruct (isValidPosition p) eqn:Hv.
  - pose proof (boardWrite_defined b p c Hb Hv) as [Hd1 Hd2].
    destruct (boardWrite b p c) as [b'|], (toIndex (py p)) as [cy|]; split.
    + done.
    + by intros [_ ?].
    + done.
    + intros _. exfalso. destruct Hd1 as [? ?]; [by eexists|done].
    + intros _. exfalso. destruct Hd2 as [? ?]; [by eexists|done].
    + by intros [_ ?].
    + done.
    + done.
  - split; [done|]. by intros [? _].
Qed.

Lemma claimCell_shape b p c b' :
  boardShape b → claimCell b p c = Some b' → boardShape b'.
Proof.
  unfold claimCell. intros Hb Hc. destruct (isValidPosition p).
  - by eapply boardWrite_shape.
  - by injection Hc as <-.
Qed.

(** Reading a board after a write. *)
Lemma cellAt_cellWrite b (x y : Z) c b' cx cy :
  cellWrite b x y c = Some b' →
  cellAt b' cx cy = if decide (cx = x ∧ cy = y) then Some c else cellAt b cx cy.
Proof.
  intros Hw. unfold cellWrite in Hw.
  case_decide as Hp; [|done].
  destruct (b !! Z.to_nat y) as [row|] eqn:Hrow; simpl in Hw; [|done].
  case_decide as Hx; [|done]. injection Hw as <-.
  unfold cellAt. case_decide as Hc.
  - destruct (decide (cy = y)) as [->|Hy].
    + rewrite list_lookup_insert_eq by (by eapply lookup_lt_Some).
      simpl. rewrite Hrow. simpl.
      destruct (decide (cx = x)) as [->|Hxx].
      * rewrite decide_True by done. by rewrite list_lookup_insert_eq.
      * rewrite decide_False by tauto. rewrite list_lookup_insert_ne; [done|lia].
    + rewrite decide_False by tauto. rewrite list_lookup_insert_ne; [done|lia].
  - rewrite decide_False; [done|]. intros [-> ->]. tauto.
Qed.

Lemma cellAt_boardWrite b p c b' cx cy :
  boardWrite b p c = Some b' →
  cellAt b' cx cy =
    if decide (toIndex (px p) = Some cx ∧ toIndex (py p) = Some cy)
    then Some c else cellAt b cx cy.
Proof.
  intros Hw. unfold boardWrite in Hw.
  destruct (toIndex (py p)) as [y|]; [|done].
  destruct (toIndex (px p)) as [x|].
  - rewrite (cellAt_cellWrite _ _ _ _ _ _ _ Hw).
    destruct (decide (cx = x ∧ cy = y)) as [[-> ->]|Hne].
    + by rewrite decide_True.
    + rewrite decide_False; [done|]. intros [[= ->] [= ->]]. tauto.
  - case_decide; [|done]. bind_inv Hw row Hrow. injection Hw as <-.
    rewrite decide_False; [done|]. by intros [? _].
Qed.

Lemma cellAt_claimCell b p c b' cx cy :
  claimCell b p c = Some b' →
  cellAt b' cx cy = if decide (standsOn p cx cy) then Some c else cellAt b cx cy.
Proof.
  unfold claimCell. intros Hc.
  destruct (decide (standsOn p cx cy)) as [(Hv & Hx & Hy)|Hn].
  - rewrite Hv in Hc. rewrite (cellAt_boardWrite _ _ _ _ _ _ Hc).
    by rewrite decide_True.
  - destruct (isValidPosition p) eqn:Hv.
    + rewrite (cellAt_boardWrite _ _ _ _ _ _ Hc).
      rewrite decide_False; [done|]. intros [Hx Hy]. apply Hn. by split_and!.
    + by injection Hc as <-.
Qed.

(** Outside the grid there is nothing to read. *)
Lemma cellAt_outside b cx cy :
  boardShape b →
  isValidPosition (mkPosition (inject_Z cx) (inject_Z cy)) = false →
  cellAt b cx cy = None.
Proof.
  intros [Hl Hr] Hv. unfold cellAt. case_decide as Hc; [|done].
  assert (Hn : ¬ (0 ≤ cx < boardSize ∧ 0 ≤ cy < boardSize)).
  { intros H. apply isValidPosition_inject in H. congruence. }
  destruct (b !! Z.to_nat cy) as [row|] eqn:Hrow; simpl; [|done].
  apply lookup_ge_None. eapply Forall_lookup_1 in Hr; [|done].
  simpl in Hr. apply lookup_lt_Some in Hrow. lia.
Qed.

Lemma cellAt_inside b cx cy :
  boardShape b →
  isValidPosition (mkPosition (inject_Z cx) (inject_Z cy)) = true →
  is_Some (cellAt b cx cy).
Proof.
  intros Hb Hv. apply isValidPosition_inject in Hv.
  unfold cellAt. rewrite decide_True by lia.
  destruct (lookup_lt_is_Some_2 b (Z.to_nat cy)) as [row Hrow].
  { destruct Hb as [-> _]. lia. }
  rewrite Hrow. simpl. apply lookup_lt_is_Some_2.
  rewrite (boardShape_row b _ row Hb Hrow). lia.
Qed.
End Grid.

(** ** Spawn points *)

(** C9. Every position the spawn generator produces is inside the grid
    and on its border, and its coordinates are integers.  The drawn
    coordinate [r] is [Math.floor(Math.random() * boardSize)], hence in
    [0, boardSize). *)
Theorem getRandomPosition_on_border (side r : Z) :
  0 ≤ r < boardSize →
  isValidPosition (getRandomPosition side r) = true ∧
  (px (getRandomPosition side r) = 0%Q ∨
   px (getRandomPosition side r) = inject_Z (boardSize - 1) ∨
   py (getRandomPosition side r) = 0%Q ∨
   py (getRandomPosition side r) = inject_Z (boardSize - 1)) ∧
  integral (getRandomPosition side r).
Proof.
  intros Hr.
  assert (H0 : (0 : number) = inject_Z 0) by reflexivity.
  unfold getRandomPosition.
  repeat case_match; rewrite ?H0;
    (split; [apply isValidPosition_inject; unfold boardSize in *; lia|]);
    (split; [|apply integral_inject]); cbn [px py]; tauto.
Qed.

Lemma getRandomPosition_on_border_witness :
  isValidPosition (getRandomPosition 2 17) = true ∧
  (px (getRandomPosition 2 17) = 0%Q ∨
   px (getRandomPosition 2 17) = inject_Z (boardSize - 1) ∨
   py (getRandomPosition 2 17) = 0%Q ∨
   py (getRandomPosition 2 17) = inject_Z (boardSize - 1)) ∧
  integral (getRandomPosition 2 17).
Proof. apply (getRandomPosition_on_border 2 17). unfold boardSize. lia. Defined.

(** * Properties of the [Map] operations *)

Section JsMapFacts.
Context {K V : Type} `{EqDecision K}.
Implicit Types (k : K) (v : V) (m : list (K * V)).

Lemma mapDelete_filter k m : mapDelete k m = filter (fun kv => kv.1 ≠ k) m.
Proof.
  induction m as [|[k' v'] m IH]; [done|]. simpl. rewrite filter_cons. simpl.
  destruct (decide (k' = k)) as [->|Hne].
  - rewrite decide_False by (intros Hc; by apply Hc). done.
  - rewrite decide_True by done. by rewrite IH.
Qed.

Lemma mapGet_mapDelete k m : mapGet k (mapDelete k m) = None.
Proof.
  induction m as [|[k' v'] m IH]; [done|]. simpl.
  destruct (decide (k' = k)); [done|]. simpl. by rewrite decide_False.
Qed.

Lemma mapGet_mapDelete_ne k k' m :
  k ≠ k' → mapGet k' (mapDelete k m) = mapGet k' m.
Proof.
  intros Hne. induction m as [|[k1 v1] m IH]; [done|]. simpl.
  destruct (decide (k1 = k)) as [->|].
  - by rewrite decide_False.
  - simpl. by rewrite IH.
Qed.

Lemma length_mapDelete k m : (length (mapDelete k m) ≤ length m)%nat.
Proof.
  induction m as [|[k' v'] m IH]; [done|]. simpl.
  destruct (decide (k' = k)); simpl; lia.
Qed.

Lemma mapDelete_elem k m kv : kv ∈ mapDelete k m ↔ kv ∈ m ∧ kv.1 ≠ k.
Proof. rewrite mapDelete_filter, list_elem_of_filter. tauto. Qed.

Lemma length_mapSet k v m : (length (mapSet k v m) ≤ S (length m))%nat.
Proof.
  induction m as [|[k' v'] m IH]; [done|]. simpl.
  destruct (decide (k' = k)); simpl; lia.
Qed.

Lemma mapSet_fresh k v m : mapGet k m = None → mapSet k v m = m ++ [(k, v)].
Proof.
  induction m as [|[k' v'] m IH]; [done|]. simpl.
  destruct (decide (k' = k)); [done|]. intros Hm. by rewrite IH.
Qed.

Lemma mapGet_mapSet k v m : mapGet k (mapSet k v m) = Some v.
Proof.
  induction m as [|[k' v'] m IH]; simpl.
  - by rewrite decide_True.
  - destruct (decide (k' = k)) as [->|Hne]; simpl.
    + by rewrite decide_True.
    + by rewrite decide_False.
Qed.

Lemma mapSet_values k v m kv : kv ∈ mapSet k v m → kv = (k, v) ∨ kv ∈ m.
Proof.
  induction m as [|[k' v'] m IH]; simpl.
  - intros ->%list_elem_of_singleton. by left.
  - destruct (decide (k' = k)).
    + intros [->|?]%elem_of_cons; [by left|]. right. by apply elem_of_cons; right.
    + intros [->|?]%elem_of_cons.
      * right. by apply elem_of_cons; left.
      * destruct IH as [?|?]; [done|by left|]. right. by apply elem_of_cons; right.
Qed.
End JsMapFacts.

(** * Broadcasting, message dispatch and leaving *)

Lemma socketsOf_defined (heap : list Player) (members : list (string * nat)) :
  membersLive heap members → is_Some (socketsOf heap members).
Proof.
  intros Hl. apply mapM_is_Some_2. eapply Forall_impl; [exact Hl|].
  intros [k a] Ha. simpl in *.
  destruct (lookup_lt_is_Some_2 heap a Ha) as [p Hp]. rewrite Hp. by eexists.
Qed.

Lemma broadcastMessage_inv (ra : nat) (msg : BroadcastMessage) (s s' : Server) :
  broadcastMessage ra msg s = Some s' →
  ∃ r socks,
    roomHeap s !! ra = Some r ∧
    socketsOf (playerHeap s) (players r) = Some socks ∧
    s' = setSent (sent s ++ map (fun sk => (sk, msg)) socks) s.
Proof.
  unfold broadcastMessage. intros H.
  destruct (roomHeap s !! ra) as [r|] eqn:Hr; simpl in H; [|done].
  destruct (socketsOf (playerHeap s) (players r)) as [socks|] eqn:Hs; simpl in H; [|done].
  injection H as <-. by exists r, socks.
Qed.

Lemma broadcastMessage_defined (ra : nat) (msg : BroadcastMessage) (s : Server) (r : Room) :
  roomHeap s !! ra = Some r → membersLive (playerHeap s) (players r) →
  ∃ socks, socketsOf (playerHeap s) (players r) = Some socks ∧
    broadcastMessage ra msg s = Some (setSent (sent s ++ map (fun sk => (sk, msg)) socks) s).
Proof.
  intros Hr Hl. destruct (socketsOf_defined _ _ Hl) as [socks Hs].
  exists socks. split; [done|]. unfold broadcastMessage. rewrite Hr. simpl.
  by rewrite Hs.
Qed.

(** What [updatePlayerPosition] does to the two positions. *)
Lemma updatePlayerPosition_target (player : Player) (direction : string)
    (speed : number) :
  let tp := targetPosition player in
  let player' := updatePlayerPosition player direction speed in
  position player' = targetPosition player' ∧
  (direction = "up" → targetPosition player' = mkPosition (px tp) (py tp - speed)%Q) ∧
  (direction = "down" → targetPosition player' = mkPosition (px tp) (py tp + speed)%Q) ∧
  (direction = "left" → targetPosition player' = mkPosition (px tp - speed)%Q (py tp)) ∧
  (direction = "right" → targetPosition player' = mkPosition (px tp + speed)%Q (py tp)) ∧
  (direction ∉ ["up"; "down"; "left"; "right"] → targetPosition player' = tp).
Proof.
  simpl. split_and!; try (intros ->; reflexivity); [done|].
  intros Hd. rewrite !not_elem_of_cons in Hd. destruct Hd as (? & ? & ? & ? & _).
  unfold updatePlayerPosition. simpl. by rewrite !decide_False.
Qed.

(** C3 (amended). A [move] message shifts [targetPosition] by the
    message's speed (0 when absent), whatever number that is, along the
    named axis and then sets [position] to [targetPosition]; the shifted
    coordinates are stored as they are, with no clamping to the grid.
    Any other direction leaves [targetPosition] where it was. *)
Theorem processMessage_move_unclamped (s : Server) (pa : nat) (player : Player)
    (ra : nat) (r : Room) (message : Message) (digits : list nat) :
  playerHeap s !! pa = Some player →
  room player = Some ra →
  roomHeap s !! ra = Some r →
  membersLive (playerHeap s) (players r) →
  msgType message = Some "move" →
  let speed := default 0%Q (msgSpeed message) in
  let direction := default "" (msgDirection message) in
  let tp := targetPosition player in
  ∃ s' player',
    processMessage pa (jObject message) digits s = Some s' ∧
    playerHeap s' !! pa = Some player' ∧
    position player' = targetPosition player' ∧
    (direction = "up" → targetPosition player' = mkPosition (px tp) (py tp - speed)%Q) ∧
    (direction = "down" → targetPosition player' = mkPosition (px tp) (py tp + speed)%Q) ∧
    (direction = "left" → targetPosition player' = mkPosition (px tp - speed)%Q (py tp)) ∧
    (direction = "right" → targetPosition player' = mkPosition (px tp + speed)%Q (py tp)) ∧
    (direction ∉ ["up"; "down"; "left"; "right"] → targetPosition player' = tp).
Proof.
  intros Hp Hroom Hr Hl Ht speed direction tp.
  assert (Hpa : (pa < length (playerHeap s))%nat) by (by eapply lookup_lt_Some).
  set (player1 := updatePlayerPosition player direction speed).
  destruct (broadcastMessage_defined ra
              (positionUpdate (id player1) (px (position player1)) (py (position player1)))
              (writePlayer pa player1 s) r) as (socks & _ & Hb).
  { done. }
  { simpl. unfold membersLive in *. by rewrite length_insert. }
  exists (setSent
            (sent (writePlayer pa player1 s) ++
             map (fun sk => (sk, positionUpdate (id player1) (px (position player1))
                                   (py (position player1)))) socks)
            (writePlayer pa player1 s)), player1.
  split; [|split].
  - unfold processMessage. rewrite Hp. cbn [mbind option_bind]. rewrite Hroom.
    cbn [fieldsOf mbind option_bind]. rewrite Ht.
    rewrite decide_False by done. rewrite decide_True by done. exact Hb.
  - cbn [playerHeap setSent writePlayer setPlayerHeap]. by apply list_lookup_insert_eq.
  - apply updatePlayerPosition_target.
Qed.

Lemma processMessage_move_unclamped_witness :
  ∃ s' player',
    processMessage 0 (jObject (moveMessage "up" 5)) []
      (stateAfter [Open 1 1000 aliceEntropy]) = Some s' ∧
    playerHeap s' !! 0%nat = Some player' ∧
    position player' = targetPosition player' ∧
    targetPosition player' = mkPosition 10 (-5).
Proof.
  destruct (processMessage_move_unclamped
              (stateAfter [Open 1 1000 aliceEntropy]) 0
              (setTargetPosition (mkPosition 10 0)
                 (setPosition (mkPosition 10 0)
                    (setRoom (Some 0%nat) (createPlayer 1 aliceEntropy))))
              0
              (mkRoom "room-1" [("alice", 0%nat)]
                 (mkGameState createBoard [0%nat] []) gameDuration 1000)
              (moveMessage "up" 5) [])
    as (s' & player' & H1 & H2 & H3 & H4 & _).
  - reflexivity.
  - reflexivity.
  - reflexivity.
  - compute_done.
  - reflexivity.
  - exists s', player'. split_and!; try done. by apply H4.
Defined.

(** C3, as stated, fails: a player at (10, 0) who moves up by 5 ends at
    (10, -5), outside the grid. *)
Lemma move_is_not_clamped :
  (s ← run [Open 1 1000 aliceEntropy;
            Receive 1 (jsonFrame (jObject (moveMessage "up" 5))) []] initialServer;
   player ← playerHeap s !! 0%nat;
   Some (targetPosition player, position player,
         isValidPosition (targetPosition player)))
  = Some (mkPosition 10 (-5), mkPosition 10 (-5), false).
Proof. vm_compute. reflexivity. Qed.

(** ** Frames the dispatch does not know *)

(** A JSON object whose type is none of [join], [move], [stop], [chat]
    (or is missing), and a JSON value that is neither an object nor
    [null], change nothing: the handler returns and the server state is
    the one it started from.  The Go port's [processMessage] ignores such
    a message just the same. *)
Lemma unknown_type_ignored (s : Server) (sock pa : nat) (player : Player)
    (message : Message) (digits : list nat) (i : nat) :
  mapGet sock (playerMap s) = Some pa →
  playerHeap s !! pa = Some player →
  msgType message ∉ [Some "join"; Some "move"; Some "stop"; Some "chat"] →
  processMessage pa (jObject message) digits s = Some s ∧
  onmessage sock (jsonFrame (jObject message)) digits s = Some s ∧
  onmessage sock (jsonFrame jOther) digits s = Some s ∧
  GoServer.processMessage pa (Some message) i s = Some s.
Proof.
  intros Hm Hp Ht.
  rewrite !not_elem_of_cons in Ht. destruct Ht as (? & ? & ? & ? & _).
  assert (Hpm : processMessage pa (jObject message) digits s = Some s).
  { unfold processMessage. rewrite Hp. simpl.
    destruct (room player); [|done]. by rewrite !decide_False. }
  split_and!; [done| | |].
  - unfold onmessage. cbn [JSON_parse mbind option_bind]. by rewrite Hm.
  - unfold onmessage. cbn [JSON_parse mbind option_bind]. rewrite Hm.
    unfold processMessage. rewrite Hp. cbn [mbind option_bind].
    by destruct (room player).
  - unfold GoServer.processMessage. rewrite Hp. simpl. by rewrite !decide_False.
Qed.

(** What the handler does with the two frames that carry no message:
    text that is no JSON makes [JSON.parse] throw, whoever sends it; the
    JSON text [null] makes the [switch] of [processMessage] throw when the
    sender is in a room. *)
Lemma onmessage_throws (s : Server) (sock pa ra : nat) (player : Player)
    (digits : list nat) :
  onmessage sock badFrame digits s = None ∧
  (mapGet sock (playerMap s) = Some pa →
   playerHeap s !! pa = Some player →
   room player = Some ra →
   onmessage sock (jsonFrame jNull) digits s = None).
Proof.
  split; [done|]. intros Hm Hp Hroom. unfold onmessage.
  cbn [JSON_parse mbind option_bind]. rewrite Hm. unfold processMessage.
  rewrite Hp. cbn [mbind option_bind]. by rewrite Hroom.
Qed.

(** C8.  The claim holds for JSON objects of unknown or missing type
    ([unknown_type_ignored]) but not for every message that has none of
    the four types: on the frame [null] the handler of a connected player
    throws instead of ignoring it, and so it does on a frame that is no
    JSON text, whereas an object of unknown type is ignored.  The Go port
    ignores all three. *)
Theorem null_message_throws :
  let s := stateAfter [Open 1 1000 aliceEntropy] in
  onmessage 1 (jsonFrame jNull) [] s = None ∧
  onmessage 1 badFrame [] s = None ∧
  onmessage 1 (jsonFrame (jObject (mkMessage (Some "dance") None None None None))) [] s
    = Some s ∧
  GoServer.processMessage 0 (Some (mkMessage None None None None None)) 0 s = Some s ∧
  GoServer.processMessage 0 None 0 s = Some s ∧
  GoServer.processMessage 0 (Some (mkMessage (Some "dance") None None None None)) 0 s
    = Some s.
Proof. vm_compute. by split_and!. Qed.

(** C7. Leaving removes the leaving session's entry, and only that
    entry, from the room's session map and leaves the room's game state
    (grid included) as it was; if the map is empty afterwards the room's
    id is no longer in the directory, whatever its timer says (the timer
    list is not consulted and not changed). *)
Theorem leaveRoom_removes_session (s : Server) (pa : nat) (player : Player)
    (ra : nat) (r : Room) :
  playerHeap s !! pa = Some player →
  room player = Some ra →
  roomHeap s !! ra = Some r →
  mapGet (id player) (players r) = Some pa →
  ∃ s' r',
    leaveRoom pa s = Some s' ∧
    roomHeap s' !! ra = Some r' ∧
    players r' = filter (fun kv => kv.1 ≠ id player) (players r) ∧
    mapGet (id player) (players r') = None ∧
    (∀ k, k ≠ id player → mapGet k (players r') = mapGet k (players r)) ∧
    gameState r' = gameState r ∧
    (∀ ra2, ra2 ≠ ra → roomHeap s' !! ra2 = roomHeap s !! ra2) ∧
    intervals s' = intervals s ∧
    (players r' = [] → mapGet (roomId r) (rooms s') = None) ∧
    (players r' ≠ [] → rooms s' = rooms s).
Proof.
  intros Hp Hroom Hr Hin.
  assert (Hra : (ra < length (roomHeap s))%nat) by (by eapply lookup_lt_Some).
  set (r1 := setPlayers (mapDelete (id player) (players r)) r).
  set (s1 := writePlayer pa (setRoom None player) (writeRoom ra r1 s)).
  assert (Hr1 : roomHeap s1 !! ra = Some r1).
  { simpl. by apply list_lookup_insert_eq. }
  assert (Hother : ∀ ra2, ra2 ≠ ra → roomHeap s1 !! ra2 = roomHeap s !! ra2).
  { intros ra2 Hne. simpl. by apply list_lookup_insert_ne. }
  assert (Hleave : leaveRoom pa s =
            if decide (length (players r1) = 0%nat)
            then Some (setRooms (mapDelete (roomId r1) (rooms s1)) s1) else Some s1).
  { unfold leaveRoom. rewrite Hp. simpl. rewrite Hroom, Hr. done. }
  destruct (decide (length (players r1) = 0%nat)) as [Hz|Hz].
  - exists (setRooms (mapDelete (roomId r1) (rooms s1)) s1), r1.
    split_and!; try done.
    + apply mapDelete_filter.
    + apply mapGet_mapDelete.
    + intros k Hk. apply mapGet_mapDelete_ne. done.
    + intros _. simpl. apply mapGet_mapDelete.
    + intros Hne. by apply nil_length_inv in Hz.
  - exists s1, r1. split_and!; try done.
    + apply mapDelete_filter.
    + apply mapGet_mapDelete.
    + intros k Hk. apply mapGet_mapDelete_ne. done.
    + intros Hnil. simpl in Hz. simpl in Hnil. rewrite Hnil in Hz. done.
Qed.

Lemma leaveRoom_removes_session_witness :
  ∃ s' r',
    leaveRoom 0 (stateAfter [Open 1 1000 aliceEntropy]) = Some s' ∧
    roomHeap s' !! 0%nat = Some r' ∧
    players r' = [] ∧
    board (gameState r') = createBoard ∧
    intervals s' = [0%nat] ∧
    mapGet "room-1" (rooms s') = None.
Proof.
  destruct (leaveRoom_removes_session
              (stateAfter [Open 1 1000 aliceEntropy]) 0
              (setTargetPosition (mkPosition 10 0)
                 (setPosition (mkPosition 10 0)
                    (setRoom (Some 0%nat) (createPlayer 1 aliceEntropy))))
              0
              (mkRoom "room-1" [("alice", 0%nat)]
                 (mkGameState createBoard [0%nat] []) gameDuration 1000))
    as (s' & r' & H1 & H2 & H3 & _ & _ & H6 & _ & H8 & H9 & _).
  - reflexivity.
  - reflexivity.
  - reflexivity.
  - reflexivity.
  - exists s', r'. split_and!; try done.
    + by rewrite H6.
    + by apply H9.
Defined.

(** * Joining and the initial claim *)

(** *** Integer positions and the cells around them *)

Lemma toIndex_Qeq (x y : number) : (x == y)%Q → toIndex x = toIndex y.
Proof.
  intros Heq. destruct (toIndex y) as [z|] eqn:Hy.
  - apply toIndex_Some. rewrite Heq. by apply toIndex_Some.
  - destruct (toIndex x) as [z|] eqn:Hx; [|done].
    apply toIndex_Some in Hx. rewrite Heq in Hx. apply toIndex_Some in Hx. congruence.
Qed.

Lemma toIndex_plus (x : number) (X d : Z) :
  toIndex x = Some X → toIndex (x + inject_Z d) = Some (X + d).
Proof.
  intros Hx%toIndex_Some. apply toIndex_Some. rewrite Hx, inject_Z_plus. reflexivity.
Qed.

Lemma toIndex_minus (x : number) (X d : Z) :
  toIndex x = Some X → toIndex (x - inject_Z d) = Some (X - d).
Proof.
  intros Hx%toIndex_Some. apply toIndex_Some.
  rewrite Hx. unfold Z.sub. rewrite inject_Z_plus, inject_Z_opp. reflexivity.
Qed.

Lemma getRandomPosition_integral (side r : Z) : integral (getRandomPosition side r).
Proof.
  assert (H0 : (0 : number) = inject_Z 0) by reflexivity.
  unfold getRandomPosition. repeat case_match; rewrite ?H0; apply integral_inject.
Qed.

Lemma inBlock_cell (sp : Position) (X Y cx cy : Z) :
  toIndex (px sp) = Some X → toIndex (py sp) = Some Y →
  inBlock sp cx cy ↔ Z.abs (cx - X) ≤ 1 ∧ Z.abs (cy - Y) ≤ 1.
Proof.
  intros Hx%toIndex_Some Hy%toIndex_Some. unfold inBlock.
  assert (H : ∀ (q : number) (Q c : Z), (q == inject_Z Q)%Q →
            (Qabs (inject_Z c - q) <= 1)%Q ↔ Z.abs (c - Q) ≤ 1).
  { intros q Q c Hq. rewrite Qabs_Qle_condition, Hq.
    assert (He : (inject_Z c - inject_Z Q == inject_Z (c - Q))%Q).
    { unfold Z.sub. rewrite inject_Z_plus, inject_Z_opp. reflexivity. }
    rewrite He.
    change (- (1))%Q with (inject_Z (-1)). change 1%Q with (inject_Z 1).
    rewrite <- !Zle_Qle. lia. }
  by rewrite (H _ _ _ Hx), (H _ _ _ Hy).
Qed.

(** *** The loop of the initial claim *)

Lemma claimAll_defined (b : Board) (ps : list Position) (c : string) :
  boardShape b → Forall (fun p => is_Some (toIndex (py p))) ps →
  ∃ b', claimAll b ps c = Some b' ∧ boardShape b'.
Proof.
  revert b. induction ps as [|p ps IH]; intros b Hb Hint; simpl.
  - by exists b.
  - apply Forall_cons in Hint as [Hp Hint].
    destruct (claimCell_defined b p c Hb Hp) as [b1 H1]. rewrite H1. simpl.
    apply IH; [|done]. by eapply claimCell_shape.
Qed.

(** After the loop a cell holds the color exactly when one of the
    positions claimed was a valid position naming that cell. *)
Lemma cellAt_claimAll (b : Board) (ps : list Position) (c : string) (b' : Board)
    (cx cy : Z) :
  claimAll b ps c = Some b' →
  cellAt b' cx cy =
    if decide (Exists (fun p => standsOn p cx cy) ps)
    then Some c else cellAt b cx cy.
Proof.
  revert b. induction ps as [|p ps IH]; intros b; cbn [claimAll].
  - intros [= <-]. rewrite decide_False; [done|]. by intros ?%Exists_nil.
  - destruct (claimCell b p c) as [b1|] eqn:H1; [|done].
    intros H2. change (claimAll b1 ps c = Some b') in H2.
    rewrite (IH _ H2), (cellAt_claimCell _ _ _ _ _ _ H1).
    destruct (decide (Exists _ ps)) as [He|He].
    + rewrite decide_True; [done|]. by apply Exists_cons; right.
    + destruct (decide (standsOn p cx cy)) as [Hp|Hp].
      * rewrite decide_True; [done|]. by apply Exists_cons; left.
      * rewrite decide_False; [done|]. by intros [?|?]%Exists_cons.
Qed.

(** Standing on a cell, for a position of known integer coordinates. *)
Lemma standsOn_cell (p : Position) (X Y cx cy : Z) :
  toIndex (px p) = Some X → toIndex (py p) = Some Y →
  standsOn p cx cy ↔ (0 ≤ X < boardSize ∧ 0 ≤ Y < boardSize) ∧ cx = X ∧ cy = Y.
Proof.
  intros Hx Hy. unfold standsOn. rewrite (isValidPosition_cell p X Y Hx Hy), Hx, Hy.
  split.
  - intros (? & [= <-] & [= <-]). done.
  - intros (? & -> & ->). done.
Qed.

(** The nine positions claimed around an integer position are the
    cells of the 3×3 block. *)
Lemma claimPositions_block (sp : Position) (cx cy : Z) :
  integral sp →
  Exists (fun p => standsOn p cx cy) (claimPositions sp)
  ↔ isValidPosition (mkPosition (inject_Z cx) (inject_Z cy)) = true ∧ inBlock sp cx cy.
Proof.
  intros [[X HX] [Y HY]].
  rewrite isValidPosition_inject, (inBlock_cell sp X Y cx cy HX HY).
  pose proof (toIndex_plus _ _ 1 HX) as HXp. pose proof (toIndex_minus _ _ 1 HX) as HXm.
  pose proof (toIndex_plus _ _ 1 HY) as HYp. pose proof (toIndex_minus _ _ 1 HY) as HYm.
  change (inject_Z 1) with 1%Q in *.
  unfold claimPositions.
  rewrite !Exists_cons, Exists_nil.
  rewrite (standsOn_cell _ X Y) by done.
  rewrite (standsOn_cell _ (X - 1) Y) by done.
  rewrite (standsOn_cell _ (X + 1) Y) by done.
  rewrite (standsOn_cell _ X (Y - 1)) by done.
  rewrite (standsOn_cell _ X (Y + 1)) by done.
  rewrite (standsOn_cell _ (X - 1) (Y - 1)) by done.
  rewrite (standsOn_cell _ (X - 1) (Y + 1)) by done.
  rewrite (standsOn_cell _ (X + 1) (Y - 1)) by done.
  rewrite (standsOn_cell _ (X + 1) (Y + 1)) by done.
  split.
  - intros H.
    repeat (destruct H as [(Hv & -> & ->)|H]; [split; lia|]).
    done.
  - intros (Hv & Hx & Hy).
    assert (Hcx : cx = X - 1 ∨ cx = X ∨ cx = X + 1) by lia.
    assert (Hcy : cy = Y - 1 ∨ cy = Y ∨ cy = Y + 1) by lia.
    destruct Hcx as [->|[->| ->]]; destruct Hcy as [->|[->| ->]];
    repeat (first [ by (left; split_and!; lia) | right ]).
Qed.

Lemma claimPositions_rows (sp : Position) :
  integral sp → Forall (fun p => is_Some (toIndex (py p))) (claimPositions sp).
Proof.
  intros [_ [Y HY]].
  pose proof (toIndex_plus _ _ 1 HY) as HYp. pose proof (toIndex_minus _ _ 1 HY) as HYm.
  change (inject_Z 1) with 1%Q in *.
  unfold claimPositions. repeat constructor; cbn [py]; by eexists.
Qed.

(** C4. When a session joins a room that already has a session, it is
    given a spawn point, and every in-grid cell of the 3×3 block around
    that point is owned by the joiner's color afterwards, whoever owned it
    before; the cells of the block outside the grid are skipped (there is
    no such cell before or after), and every other cell keeps its
    owner. *)
Theorem joinRoom_initial_claim (s : Server) (pa : nat) (player : Player)
    (ra : nat) (r : Room) (now : Z) (spawn : nat → Z * Z) :
  playerHeap s !! pa = Some player →
  roomHeap s !! ra = Some r →
  players r ≠ [] →
  mapGet (id player) (players r) = None →
  membersLive (playerHeap s) (players r) →
  boardShape (board (gameState r)) →
  let sp := getRandomPosition (spawn 0%nat).1 (spawn 0%nat).2 in
  ∃ s' r' player',
    joinRoom pa ra now spawn s = Some s' ∧
    roomHeap s' !! ra = Some r' ∧
    playerHeap s' !! pa = Some player' ∧
    position player' = sp ∧ color player' = color player ∧
    boardShape (board (gameState r')) ∧
    ∀ cx cy,
      cellAt (board (gameState r')) cx cy =
        if decide (isValidPosition (mkPosition (inject_Z cx) (inject_Z cy)) = true
                   ∧ inBlock sp cx cy)
        then Some (color player)
        else cellAt (board (gameState r)) cx cy.
Proof.
  intros Hp Hr Hne Hfresh Hl Hb sp.
  assert (Hpa : (pa < length (playerHeap s))%nat) by (by eapply lookup_lt_Some).
  assert (Hra : (ra < length (roomHeap s))%nat) by (by eapply lookup_lt_Some).
  set (player1 := setRoom (Some ra) player).
  set (r1 := setPlayers (mapSet (id player) pa (players r)) r).
  set (s1 := writeRoom ra r1 (writePlayer pa player1 s)).
  set (player2 := setTargetPosition sp (setPosition sp player1)).
  set (s2 := writePlayer pa player2 s1).
  assert (Hsp : integral sp) by apply getRandomPosition_integral.
  destruct (claimAll_defined (board (gameState r1)) (claimPositions (position player2))
              (color player2)) as (b' & Hc & Hb'); [done|by apply claimPositions_rows|].
  set (r2 := setGameState (setBoard b' (gameState r1)) r1).
  set (s3 := writeRoom ra r2 s2).
  assert (Hsize : length (players r1) ≠ 1%nat).
  { simpl. rewrite (mapSet_fresh _ _ _ Hfresh), length_app. simpl.
    destruct (players r); [done|]. simpl. lia. }
  assert (Hr3 : roomHeap s3 !! ra = Some r2).
  { simpl. rewrite list_lookup_insert_eq; [done|]. by rewrite length_insert. }
  assert (Hl3 : membersLive (playerHeap s3) (players r2)).
  { simpl. unfold membersLive. rewrite !length_insert.
    apply Forall_forall. intros kv [->|Hkv]%mapSet_values; [done|].
    unfold membersLive in Hl. rewrite Forall_forall in Hl. by apply Hl. }
  destruct (broadcastMessage_defined ra (playerJoined (name player1)) s3 r2 Hr3 Hl3)
    as (socks & _ & Hbc).
  assert (Hci : claimInitialTerritory ra pa s2 = Some s3).
  { unfold claimInitialTerritory.
    assert (H1 : roomHeap s2 !! ra = Some r1).
    { cbn [roomHeap s2 writePlayer setPlayerHeap s1 writeRoom setRoomHeap].
      by apply list_lookup_insert_eq. }
    assert (H2 : playerHeap s2 !! pa = Some player2).
    { cbn [playerHeap s2 writePlayer setPlayerHeap s1 writeRoom setRoomHeap].
      apply list_lookup_insert_eq. by rewrite length_insert. }
    rewrite H1. cbn [mbind option_bind]. rewrite H2. cbn [mbind option_bind].
    rewrite Hc. reflexivity. }
  assert (Hj : joinRoom pa ra now spawn s =
               s4 ← claimInitialTerritory ra pa s2;
               broadcastMessage ra (playerJoined (name player1)) s4).
  { unfold joinRoom. rewrite Hp. cbn [mbind option_bind].
    rewrite Hr. cbn [mbind option_bind].
    rewrite decide_False by exact Hsize. reflexivity. }
  eexists _, r2, player2. split_and!.
  - rewrite Hj, Hci. cbn [mbind option_bind]. exact Hbc.
  - done.
  - change (<[pa := player2]> (<[pa := player1]> (playerHeap s)) !! pa = Some player2).
    apply list_lookup_insert_eq. by rewrite length_insert.
  - done.
  - done.
  - done.
  - intros cx cy.
    change (board (gameState r2)) with b'.
    rewrite (cellAt_claimAll _ _ _ _ cx cy Hc).
    change (position player2) with sp. change (color player2) with (color player).
    change (board (gameState r1)) with (board (gameState r)).
    destruct (decide (isValidPosition (mkPosition (inject_Z cx) (inject_Z cy)) = true
                      ∧ inBlock sp cx cy)) as [Hd|Hd].
    + rewrite decide_True; [done|]. by apply claimPositions_block.
    + rewrite decide_False; [done|]. by rewrite claimPositions_block.
Qed.

Lemma joinRoom_initial_claim_witness :
  ∃ s' r' player',
    joinRoom 1 0 1500 (spawnDraws bobEntropy)
      (setPlayerHeap
         (playerHeap (stateAfter [Open 1 1000 aliceEntropy]) ++ [createPlayer 2 bobEntropy])
         (stateAfter [Open 1 1000 aliceEntropy])) = Some s' ∧
    roomHeap s' !! 0%nat = Some r' ∧
    playerHeap s' !! 1%nat = Some player' ∧
    position player' = mkPosition 0 20 ∧
    cellAt (board (gameState r')) 0 19 = Some "#ABCDEF" ∧
    cellAt (board (gameState r')) 1 21 = Some "#ABCDEF" ∧
    cellAt (board (gameState r')) 2 20 = Some "" ∧
    cellAt (board (gameState r')) (-1) 20 = None.
Proof.
  destruct (joinRoom_initial_claim
              (setPlayerHeap
                 (playerHeap (stateAfter [Open 1 1000 aliceEntropy])
                    ++ [createPlayer 2 bobEntropy])
                 (stateAfter [Open 1 1000 aliceEntropy]))
              1 (createPlayer 2 bobEntropy) 0
              (mkRoom "room-1" [("alice", 0%nat)]
                 (mkGameState createBoard [0%nat] []) gameDuration 1000)
              1500 (spawnDraws bobEntropy))
    as (s' & r' & player' & H1 & H2 & H3 & Hpos & _ & _ & H4).
  - reflexivity.
  - reflexivity.
  - discriminate.
  - reflexivity.
  - compute_done.
  - compute_done.
  - exists s', r', player'. split_and!; try done; rewrite H4; reflexivity.
Defined.

(** * Room capacity *)

Lemma capacityOk_same_rooms (s s' : Server) :
  roomHeap s' = roomHeap s → capacityOk s → capacityOk s'.
Proof. unfold capacityOk. by intros ->. Qed.

Lemma capacityOk_writeRoom (s : Server) (ra : nat) (r' : Room) :
  capacityOk s → (length (players r') ≤ maxPlayers)%nat → capacityOk (writeRoom ra r' s).
Proof. unfold capacityOk. simpl. intros H Hr. by apply Forall_insert. Qed.

Lemma capacityOk_lookup (s : Server) (ra : nat) (r : Room) :
  capacityOk s → roomHeap s !! ra = Some r → (length (players r) ≤ maxPlayers)%nat.
Proof. unfold capacityOk. intros H Hr. by eapply (Forall_lookup_1 _ _ _ _ H Hr). Qed.

Lemma broadcastMessage_capacity (ra : nat) (msg : BroadcastMessage) (s s' : Server) :
  broadcastMessage ra msg s = Some s' → capacityOk s → capacityOk s'.
Proof.
  intros (r & socks & _ & _ & ->)%broadcastMessage_inv. by apply capacityOk_same_rooms.
Qed.

Lemma broadcastGameState_capacity (ra : nat) (t : Z) (s s' : Server) :
  broadcastGameState ra t s = Some s' → capacityOk s → capacityOk s'.
Proof.
  unfold broadcastGameState. intros H.
  bind_inv H r Hr. bind_inv H pd Hpd. bind_inv H socks Hs. injection H as <-.
  by apply capacityOk_same_rooms.
Qed.

Lemma claimInitialTerritory_capacity (ra pa : nat) (s s' : Server) :
  claimInitialTerritory ra pa s = Some s' → capacityOk s → capacityOk s'.
Proof.
  unfold claimInitialTerritory. intros H Hc.
  bind_inv H r Hr. bind_inv H p Hp. bind_inv H b' Hb. injection H as <-.
  apply capacityOk_writeRoom; [done|]. simpl. by eapply capacityOk_lookup.
Qed.

Lemma updateGame_capacity (ra : nat) (s s' : Server) :
  updateGame ra s = Some s' → capacityOk s → capacityOk s'.
Proof.
  unfold updateGame. intros H Hc.
  bind_inv H r Hr. bind_inv H st Hst. injection H as <-.
  eapply capacityOk_same_rooms; [|apply (capacityOk_writeRoom s ra); [done|]]; [done|].
  simpl. by eapply capacityOk_lookup.
Qed.

Lemma endGame_capacity (ra : nat) (s s' : Server) :
  endGame ra s = Some s' → capacityOk s → capacityOk s'.
Proof.
  unfold endGame. intros H Hc.
  bind_inv H r Hr. bind_inv H ps Hps. bind_inv H s1 Hs1. injection H as <-.
  eapply capacityOk_same_rooms; [|by eapply broadcastMessage_capacity]. done.
Qed.

Lemma intervalCallback_capacity (ra : nat) (now : Z) (s s' : Server) :
  intervalCallback ra now s = Some s' → capacityOk s → capacityOk s'.
Proof.
  unfold intervalCallback. intros H Hc.
  bind_inv H s1 Hs1. bind_inv H r Hr. bind_inv H s2 Hs2.
  apply (broadcastGameState_capacity _ _ _ _ H).
  pose proof (updateGame_capacity _ _ _ Hs1 Hc) as Hc1.
  case_decide.
  - bind_inv Hs2 s3 Hs3. injection Hs2 as <-.
    eapply capacityOk_same_rooms; [|by eapply endGame_capacity]. done.
  - by injection Hs2 as <-.
Qed.

Lemma startGame_capacity (ra : nat) (now : Z) (spawn : nat → Z * Z) (s s' : Server) :
  startGame ra now spawn s = Some s' → capacityOk s → capacityOk s'.
Proof.
  unfold startGame. intros H Hc.
  bind_inv H r Hr. bind_inv H st Hst. injection H as <-.
  eapply capacityOk_same_rooms; [|apply (capacityOk_writeRoom s ra); [done|]]; [done|].
  simpl. by eapply capacityOk_lookup.
Qed.

(** Joining a room that has a free seat keeps every room within
    capacity. *)
Lemma joinRoom_capacity (pa ra : nat) (r : Room) (now : Z) (spawn : nat → Z * Z)
    (s s' : Server) :
  capacityOk s → roomHeap s !! ra = Some r →
  (length (players r) < maxPlayers)%nat →
  joinRoom pa ra now spawn s = Some s' → capacityOk s'.
Proof.
  unfold joinRoom. intros Hc Hr Hfree H.
  bind_inv H p Hp. bind_inv H r0 Hr0.
  assert (r0 = r) as -> by congruence.
  assert (Hc1 : capacityOk
            (writeRoom ra (setPlayers (mapSet (id p) pa (players r)) r)
               (writePlayer pa (setRoom (Some ra) p) s))).
  { apply capacityOk_writeRoom; [by eapply capacityOk_same_rooms|].
    simpl. pose proof (length_mapSet (id p) pa (players r)). lia. }
  case_decide.
  - by eapply startGame_capacity.
  - bind_inv H s3 Hs3. eapply broadcastMessage_capacity; [done|].
    eapply claimInitialTerritory_capacity; [done|].
    by eapply capacityOk_same_rooms.
Qed.

Lemma leaveRoom_capacity (pa : nat) (s s' : Server) :
  leaveRoom pa s = Some s' → capacityOk s → capacityOk s'.
Proof.
  unfold leaveRoom. intros H Hc. bind_inv H p Hp.
  destruct (room p) as [ra|]; [|by injection H as <-].
  bind_inv H r Hr.
  assert (Hc1 : capacityOk
            (writePlayer pa (setRoom None p)
               (writeRoom ra (setPlayers (mapDelete (id p) (players r)) r) s))).
  { eapply capacityOk_same_rooms; [|apply (capacityOk_writeRoom s ra); [done|]]; [done|].
    simpl. pose proof (length_mapDelete (id p) (players r)).
    pose proof (capacityOk_lookup _ _ _ Hc Hr). lia. }
  case_decide; injection H as <-; [|done].
  by eapply capacityOk_same_rooms.
Qed.

Lemma processMessage_capacity (pa : nat) (parsed : JsonValue) (digits : list nat)
    (s s' : Server) :
  processMessage pa parsed digits s = Some s' → capacityOk s → capacityOk s'.
Proof.
  unfold processMessage. intros H Hc. bind_inv H p Hp.
  destruct (room p) as [ra|]; [|by injection H as <-].
  bind_inv H message Hmsg. repeat case_decide.
  - injection H as <-. by eapply capacityOk_same_rooms.
  - eapply broadcastMessage_capacity; [done|]. by eapply capacityOk_same_rooms.
  - injection H as <-. by eapply capacityOk_same_rooms.
  - bind_inv H r Hr. eapply broadcastMessage_capacity; [done|].
    apply capacityOk_writeRoom; [done|]. simpl. by eapply capacityOk_lookup.
  - by injection H as <-.
Qed.

(** What the scan of the directory returns. *)
Lemma findRoom_found (heap : list Room) (dir : list (string * nat)) (ra : nat) :
  findRoom heap dir = Some (Some ra) →
  ∃ k r, (k, ra) ∈ dir ∧ heap !! ra = Some r ∧ (length (players r) < maxPlayers)%nat.
Proof.
  induction dir as [|[k a] dir IH]; cbn [findRoom]; [done|].
  intros H. bind_inv H r Hr. case_decide.
  - injection H as <-. exists k, r. split; [by left|done].
  - destruct (IH H) as (k' & r' & ? & ? & ?). exists k', r'.
    split; [by right|done].
Qed.

Lemma findRoom_none (heap : list Room) (dir : list (string * nat)) :
  findRoom heap dir = Some None →
  ∀ k ra r, (k, ra) ∈ dir → heap !! ra = Some r → (maxPlayers ≤ length (players r))%nat.
Proof.
  induction dir as [|[k a] dir IH]; cbn [findRoom].
  - intros _ k ra r Hin. by apply elem_of_nil in Hin.
  - intros H. bind_inv H r Hr. case_decide; [done|].
    intros k' ra' r' [[= -> ->]|Hin]%elem_of_cons Hr'.
    + assert (r' = r) as -> by congruence. lia.
    + by eapply IH.
Qed.

Lemma findOrCreateRoom_spec (newId : string) (s s1 : Server) (ra : nat) :
  findOrCreateRoom newId s = Some (ra, s1) →
  ∃ r, roomHeap s1 !! ra = Some r ∧ (length (players r) < maxPlayers)%nat ∧
    ((s1 = s ∧ ∃ k, (k, ra) ∈ rooms s) ∨
     (r = mkRoom newId [] (mkGameState createBoard [] []) gameDuration 0 ∧
      ra = length (roomHeap s) ∧
      roomHeap s1 = roomHeap s ++ [r] ∧
      mapGet newId (rooms s1) = Some ra ∧
      ∀ k ra0 r0, (k, ra0) ∈ rooms s → roomHeap s !! ra0 = Some r0 →
                  (maxPlayers ≤ length (players r0))%nat)).
Proof.
  unfold findOrCreateRoom. intros H. bind_inv H found Hf.
  destruct found as [ra0|].
  - injection H as <- <-. destruct (findRoom_found _ _ _ Hf) as (k & r & Hin & Hr & Hlt).
    exists r. split_and!; try done. left. split; [done|]. by exists k.
  - injection H as <- <-. eexists. split_and!.
    + simpl. rewrite lookup_app_r by done. by rewrite Nat.sub_diag.
    + simpl. unfold maxPlayers. lia.
    + right. split_and!; try done.
      * simpl. apply mapGet_mapSet.
      * by apply findRoom_none.
Qed.

Lemma onopen_capacity (sock : nat) (now : Z) (e : Entropy) (s s' : Server) :
  onopen sock now e s = Some s' → capacityOk s → capacityOk s'.
Proof.
  unfold onopen. intros H Hc. bind_inv H x Hx. destruct x as [ra s2].
  destruct (findOrCreateRoom_spec _ _ _ _ Hx) as (r & Hr & Hlt & Hcase).
  eapply (joinRoom_capacity _ ra r); [|done|done|done].
  destruct Hcase as [[-> _]|(_ & _ & Hheap & _)].
  - by eapply capacityOk_same_rooms.
  - unfold capacityOk. rewrite Hheap. apply Forall_app. split; [done|].
    apply Forall_singleton. lia.
Qed.

Lemma handleEvent_capacity (ev : Event) (s s' : Server) :
  handleEvent ev s = Some s' → capacityOk s → capacityOk s'.
Proof.
  destruct ev as [sock now e|sock frame digits|sock|ra now]; simpl; intros H Hc.
  - by eapply onopen_capacity.
  - unfold onmessage in H. bind_inv H parsed Hparsed.
    destruct (mapGet sock (playerMap s)).
    + by eapply processMessage_capacity.
    + by injection H as <-.
  - unfold onclose in H. destruct (mapGet sock (playerMap s)).
    + bind_inv H s1 Hs1. injection H as <-.
      eapply capacityOk_same_rooms; [|by eapply leaveRoom_capacity]. done.
    + by injection H as <-.
  - case_decide; [|done]. by eapply intervalCallback_capacity.
Qed.

Lemma run_capacity (evs : list Event) (s s' : Server) :
  run evs s = Some s' → capacityOk s → capacityOk s'.
Proof.
  revert s. induction evs as [|ev evs IH]; intros s; cbn [run].
  - by intros [= <-].
  - intros H Hc. bind_inv H s1 Hs1. eapply IH; [done|].
    by eapply handleEvent_capacity.
Qed.

(** C6. In every reachable state no room holds more than [maxPlayers]
    sessions, be it listed in the directory or not.  [findOrCreateRoom]
    returns a room with fewer than [maxPlayers] sessions: either a room
    of the directory, or, when every room of the directory is full, a
    fresh empty room that it enters in the directory; and joining a room
    that has a free seat leaves every room within capacity. *)
Theorem room_capacity :
  (∀ s, reachable s →
     (∀ ra r, roomHeap s !! ra = Some r → (length (players r) ≤ maxPlayers)%nat) ∧
     (∀ k ra r, (k, ra) ∈ rooms s → roomHeap s !! ra = Some r →
                (length (players r) ≤ maxPlayers)%nat)) ∧
  (∀ s newId ra s1,
     findOrCreateRoom newId s = Some (ra, s1) →
     ∃ r, roomHeap s1 !! ra = Some r ∧ (length (players r) < maxPlayers)%nat ∧
       ((s1 = s ∧ ∃ k, (k, ra) ∈ rooms s) ∨
        (players r = [] ∧ ra = length (roomHeap s) ∧
         mapGet newId (rooms s1) = Some ra ∧
         ∀ k ra0 r0, (k, ra0) ∈ rooms s → roomHeap s !! ra0 = Some r0 →
                     (maxPlayers ≤ length (players r0))%nat))) ∧
  (∀ s pa ra r now spawn s2,
     capacityOk s → roomHeap s !! ra = Some r →
     (length (players r) < maxPlayers)%nat →
     joinRoom pa ra now spawn s = Some s2 →
     ∀ ra2 r2, roomHeap s2 !! ra2 = Some r2 → (length (players r2) ≤ maxPlayers)%nat).
Proof.
  split_and!.
  - intros s [evs Hrun].
    assert (Hc : capacityOk s).
    { eapply run_capacity; [done|]. unfold capacityOk. simpl. constructor. }
    split.
    + intros ra r Hr. by eapply capacityOk_lookup.
    + intros k ra r _ Hr. by eapply capacityOk_lookup.
  - intros s newId ra s1 H.
    destruct (findOrCreateRoom_spec _ _ _ _ H) as (r & Hr & Hlt & Hcase).
    exists r. split_and!; try done.
    destruct Hcase as [?|(-> & ? & ? & ? & ?)]; [by left|by right].
  - intros s pa ra r now spawn s2 Hc Hr Hlt Hj ra2 r2 Hr2.
    eapply capacityOk_lookup; [|done]. by eapply joinRoom_capacity.
Qed.

Lemma room_capacity_witness :
  (∀ ra r, roomHeap (stateAfter fiveConnections) !! ra = Some r →
           (length (players r) ≤ maxPlayers)%nat) ∧
  map (fun r => (roomId r, length (players r))) (roomHeap (stateAfter fiveConnections))
  = [("room-1", 4%nat); ("room-5", 1%nat)].
Proof.
  split.
  - apply (proj1 room_capacity (stateAfter fiveConnections)).
    exists fiveConnections. vm_compute. reflexivity.
  - vm_compute. reflexivity.
Defined.

(** * Scoring and the end of the game *)

(** The [reduce] of [endGame] keeps an element of the list whose score is
    maximal, and the first such element. *)
Lemma endGame_fold_spec (ps : list Player) (m : Player) :
  let w := fold_left (fun maxScorePlayer player =>
                        if score player >? score maxScorePlayer
                        then player else maxScorePlayer) ps m in
  score m ≤ score w ∧
  (∀ p, p ∈ ps → score p ≤ score w) ∧
  ((w = m ∧ ∀ p, p ∈ ps → score p ≤ score m) ∨
   (∃ i, ps !! i = Some w ∧ score m < score w ∧
         ∀ j p, (j < i)%nat → ps !! j = Some p → score p < score w)).
Proof.
  revert m. induction ps as [|q ps IH]; intros m; simpl.
  - split_and!; [lia| |].
    + intros p Hp. by apply elem_of_nil in Hp.
    + left. split; [done|]. intros p Hp. by apply elem_of_nil in Hp.
  - destruct (Z.gtb_spec (score q) (score m)) as [Hgt|Hle].
    + destruct (IH q) as (H1 & H2 & H3). split_and!; [lia| |].
      * intros p [->|Hp]%elem_of_cons; [done|by apply H2].
      * right. destruct H3 as [[Hw Hall]|(i & Hi & Hlt & Hbefore)].
        -- exists 0%nat. rewrite Hw. split_and!; [done|lia|]. intros j p Hj. lia.
        -- exists (S i). split_and!; [done|lia|].
           intros [|j] p Hj Hp; simpl in Hp.
           ++ injection Hp as <-. lia.
           ++ eapply Hbefore; [|done]. lia.
    + destruct (IH m) as (H1 & H2 & H3). split_and!; [done| |].
      * intros p [->|Hp]%elem_of_cons; [lia|by apply H2].
      * destruct H3 as [[Hw Hall]|(i & Hi & Hlt & Hbefore)].
        -- left. split; [done|]. intros p [->|Hp]%elem_of_cons; [lia|by apply Hall].
        -- right. exists (S i). split_and!; [done|lia|].
           intros [|j] p Hj Hp; simpl in Hp.
           ++ injection Hp as <-. lia.
           ++ eapply Hbefore; [|done]. lia.
Qed.

(** On the list it is given, [endGame] names the first player of highest
    score, and nobody exactly when the list is empty. *)
Lemma endGameWinner_spec (ps : list Player) :
  match endGameWinner ps with
  | None => ps = []
  | Some w =>
      ∃ i, ps !! i = Some w ∧
           (∀ p, p ∈ ps → score p ≤ score w) ∧
           (∀ j p, (j < i)%nat → ps !! j = Some p → score p < score w)
  end.
Proof.
  destruct ps as [|p0 ps]; [done|]. unfold endGameWinner.
  destruct (endGame_fold_spec (p0 :: ps) p0) as (H1 & H2 & H3).
  destruct H3 as [[Hw Hall]|(i & Hi & Hlt & Hbefore)].
  - rewrite Hw. exists 0%nat. split_and!; [done|done|]. intros j p Hj. lia.
  - exists i. done.
Qed.

(** What [endGame] does to the server: every member of [room.players]
    is sent a [gameOver] naming the winner of [gameState.players], and the
    room's id leaves the directory. *)
Lemma endGame_spec (s : Server) (ra : nat) (r : Room) (ps : list Player) :
  roomHeap s !! ra = Some r →
  playersAt (playerHeap s) (gsPlayers (gameState r)) = Some ps →
  membersLive (playerHeap s) (players r) →
  ∃ socks,
    socketsOf (playerHeap s) (players r) = Some socks ∧
    endGame ra s =
      Some (setRooms (mapDelete (roomId r) (rooms s))
              (setSent (sent s ++ map (fun sk => (sk, gameOver (playerData <$> endGameWinner ps)))
                                      socks) s)).
Proof.
  intros Hr Hps Hl.
  destruct (broadcastMessage_defined ra (gameOver (playerData <$> endGameWinner ps)) s r Hr Hl)
    as (socks & Hs & Hb).
  exists socks. split; [done|].
  unfold endGame. rewrite Hr. cbn [mbind option_bind].
  unfold playersAt in Hps. rewrite Hps. cbn [mbind option_bind].
  rewrite Hb. reflexivity.
Qed.

(** The Go port names nobody when no session has a positive score. *)
Lemma go_endGameWinner_all_zero (ps : list Player) :
  Forall (fun p => score p ≤ 0) ps → GoServer.endGameWinner ps = None.
Proof.
  unfold GoServer.endGameWinner.
  assert (H : ∀ acc : option Player * Z, 0 ≤ acc.2 →
            Forall (fun p => score p ≤ 0) ps →
            fold_left (fun (acc : option Player * Z) player =>
                         if score player >? acc.2 then (Some player, score player) else acc)
                      ps acc = acc).
  { induction ps as [|p ps IH]; intros acc Hacc Hall; simpl; [done|].
    apply Forall_cons in Hall as [Hp Hall].
    destruct (Z.gtb_spec (score p) acc.2); [lia|]. by apply IH. }
  intros Hall. rewrite H; [done|simpl; lia|done].
Qed.

(** The Go port's move is a step of [playerSpeed], not clamped either. *)
Lemma go_move_is_not_clamped :
  targetPosition
    (GoServer.updatePlayerPosition
       (mkPlayer "alice" "" "#f44336" 0 (mkPosition 10 0) (mkPosition 10 0) 0 1 None) "up")
  = mkPosition 10 (-1).
Proof. reflexivity. Qed.

(** [updateGame] writes the score of the players listed in
    [gameState.players] and of nobody else. *)
Lemma updateGameLoop_untouched (ps : list nat) (st st' : Board * list Player) (a : nat) :
  updateGameLoop ps st = Some st' → a ∉ ps → st'.2 !! a = st.2 !! a.
Proof.
  revert st. induction ps as [|pa ps IH]; intros st; cbn [updateGameLoop].
  - by intros [= <-].
  - intros H Ha. bind_inv H st1 Hst1.
    apply not_elem_of_cons in Ha as [Hne Ha].
    rewrite (IH _ H Ha). unfold updateGameStep in Hst1.
    bind_inv Hst1 p Hp. bind_inv Hst1 b' Hb. injection Hst1 as <-. simpl.
    by apply list_lookup_insert_ne.
Qed.

Lemma updateGame_untouched (ra : nat) (s s' : Server) (r : Room) (a : nat) :
  roomHeap s !! ra = Some r → updateGame ra s = Some s' →
  a ∉ gsPlayers (gameState r) → playerHeap s' !! a = playerHeap s !! a.
Proof.
  unfold updateGame. intros Hr H Ha. rewrite Hr in H. simpl in H.
  bind_inv H st Hst. injection H as <-. simpl.
  by apply (updateGameLoop_untouched _ _ _ _ Hst).
Qed.

(** C1 fails on the running server.  Alice connects first, Bob second;
    Bob's join claims six cells around (0, 20).  [startGame] ran when
    Alice was alone, so [gameState.players] holds Alice only, and the
    tick leaves Bob's score at 0 although six cells carry his color. *)
Theorem late_joiner_never_scored :
  (s ← run [Open 1 1000 aliceEntropy; Open 2 1500 bobEntropy; Tick 0 1600] initialServer;
   r ← roomHeap s !! 0%nat;
   bob ← playerHeap s !! 1%nat;
   Some (players r, gsPlayers (gameState r), color bob, score bob,
         countPlayerSquares (board (gameState r)) (color bob)))
  = Some ([("alice", 0%nat); ("bob", 1%nat)], [0%nat], "#ABCDEF", 0, 6).
Proof. vm_compute. reflexivity. Qed.

(** C2 fails on the running server.  [endGame] ranks
    [gameState.players], which [leaveRoom] never prunes.  After Alice
    (first to join) has left, the timer expires: Bob, the only session,
    is sent a [gameOver] naming Alice.  And when Alice was the only
    player and has left, the room has no session, its timer still runs,
    and the winner [endGame] computes is Alice. *)
Theorem departed_first_joiner_wins :
  (s ← run [Open 1 1000 aliceEntropy; Open 2 1500 bobEntropy; Close 1;
            Tick 0 (1000 + gameDuration)] initialServer;
   r ← roomHeap s !! 0%nat;
   Some (players r, rooms s, intervals s,
         map (fun m => (m.1, pdId <$> m.2)) (gameOvers (sent s))))
  = Some ([("bob", 1%nat)], [], [], [(2%nat, Some "alice")])
  ∧
  (s ← run [Open 1 1000 aliceEntropy; Close 1] initialServer;
   r ← roomHeap s !! 0%nat;
   ps ← playersAt (playerHeap s) (gsPlayers (gameState r));
   Some (players r, intervals s, id <$> endGameWinner ps))
  = Some ([], [0%nat], Some "alice").
Proof. split; vm_compute; reflexivity. Qed.

(** * Counting the cells of a color *)

Section Counting.
Implicit Types (b : Board) (row : list string) (c o v : string) (cs : list string).

Lemma matches_NoDup o cs : NoDup cs → (matches o cs ≤ 1)%nat.
Proof.
  unfold matches. induction 1 as [|c cs Hc Hnd IH]; simpl; [lia|].
  destruct (decide (o = c)) as [->|]; [|lia].
  assert (Hz : sum_list (map (fun c0 => if decide (c = c0) then 1%nat else 0%nat) cs) = 0%nat).
  { clear IH Hnd. induction cs as [|c1 cs IH]; simpl; [done|].
    apply not_elem_of_cons in Hc as [Hne Hc].
    rewrite decide_False by done. by rewrite IH. }
  lia.
Qed.

Lemma ownedInRow_cons c cell row :
  ownedInRow c (cell :: row) = ((if decide (cell = c) then 1 else 0) + ownedInRow c row)%nat.
Proof. unfold ownedInRow. rewrite filter_cons. by destruct (decide (cell = c)). Qed.

Lemma ownedInRow_insert c row i o v :
  row !! i = Some o →
  (ownedInRow c (<[i := v]> row) + (if decide (o = c) then 1 else 0)
   = ownedInRow c row + (if decide (v = c) then 1 else 0))%nat.
Proof.
  revert i. induction row as [|cell row IH]; intros [|i] Hi; simpl in *; try done.
  - injection Hi as ->. rewrite !ownedInRow_cons. lia.
  - rewrite !ownedInRow_cons. specialize (IH i Hi). lia.
Qed.

Lemma sum_list_map_insert {A} (f : A → nat) (l : list A) (i : nat) (x x' : A) :
  l !! i = Some x →
  (sum_list (map f (<[i := x']> l)) + f x = sum_list (map f l) + f x')%nat.
Proof.
  revert i. induction l as [|y l IH]; intros [|i] Hi; simpl in *; try done.
  - injection Hi as ->. lia.
  - specialize (IH i Hi). lia.
Qed.

Lemma ownedInRowBy_cons cs cell row :
  ownedInRowBy cs (cell :: row) = (matches cell cs + ownedInRowBy cs row)%nat.
Proof.
  unfold ownedInRowBy, matches. induction cs as [|c cs IH]; simpl; [done|].
  rewrite ownedInRow_cons, IH. lia.
Qed.

Lemma ownedInRowBy_le cs row : NoDup cs → (ownedInRowBy cs row ≤ length row)%nat.
Proof.
  intros Hnd. induction row as [|cell row IH].
  - unfold ownedInRowBy. induction cs; simpl; [lia|]. unfold ownedInRow at 1. simpl.
    apply NoDup_cons in Hnd as [_ Hnd]. by apply IHcs.
  - rewrite ownedInRowBy_cons. pose proof (matches_NoDup cell cs Hnd). simpl. lia.
Qed.

Lemma ownedBy_cons cs row b :
  ownedBy cs (row :: b) = (ownedInRowBy cs row + ownedBy cs b)%nat.
Proof.
  unfold ownedBy, ownedInRowBy, owned. induction cs as [|c cs IH]; simpl; [done|].
  simpl in IH. rewrite IH. lia.
Qed.

(** Distinct colors own at most as many cells as the board has. *)
Lemma ownedBy_le_cells cs b :
  NoDup cs → boardShape b → (Z.of_nat (ownedBy cs b) ≤ boardSize * boardSize).
Proof.
  intros Hnd [Hlen Hrows].
  assert (H : (ownedBy cs b ≤ length b * Z.to_nat boardSize)%nat).
  { clear Hlen. generalize dependent (Z.to_nat boardSize). intros n Hrows.
    induction b as [|row b IH].
    - unfold ownedBy, owned. simpl. induction cs; simpl; [lia|].
      apply NoDup_cons in Hnd as [_ Hnd]. by apply IHcs.
    - apply Forall_cons in Hrows as [Hrow Hrows]. rewrite ownedBy_cons.
      pose proof (ownedInRowBy_le cs row Hnd). specialize (IH Hrows).
      cbn [length]. rewrite Nat.mul_succ_l. lia. }
  rewrite Hlen in H. unfold boardSize in *. lia.
Qed.
End Counting.

(** ** A claim at a coordinate that is no integer *)

(** The per-tick update throws as soon as one listed player stands
    inside the grid at a row coordinate that is no integer, whatever the
    board and the other players are; the timer callback, which starts
    with the update, throws with it. *)
Lemma updateGameLoop_throws (refs : list nat) (b : Board) (heap : list Player)
    (a : nat) (p : Player) :
  a ∈ refs → heap !! a = Some p →
  isValidPosition (position p) = true → toIndex (py (position p)) = None →
  updateGameLoop refs (b, heap) = None.
Proof.
  intros Ha Hp Hv Hy. revert b heap Ha Hp.
  induction refs as [|a0 refs IH]; intros b heap Ha Hp; [by apply elem_of_nil in Ha|].
  cbn [updateGameLoop].
  destruct (updateGameStep (b, heap) a0) as [[b1 heap1]|] eqn:Hstep; [|done].
  cbn [mbind option_bind].
  unfold updateGameStep in Hstep. cbn [fst snd] in Hstep.
  bind_inv Hstep p0 Hp0. bind_inv Hstep b' Hb'. injection Hstep as <- <-.
  destruct (decide (a0 = a)) as [->|Hne].
  - assert (p0 = p) as -> by congruence.
    unfold claimCell, boardWrite in Hb'. by rewrite Hv, Hy in Hb'.
  - apply elem_of_cons in Ha as [->|Ha]; [done|].
    apply IH; [done|]. by rewrite list_lookup_insert_ne.
Qed.

Lemma updateGame_throws (s : Server) (ra : nat) (r : Room) (a : nat) (p : Player)
    (now : Z) :
  roomHeap s !! ra = Some r →
  a ∈ gsPlayers (gameState r) → playerHeap s !! a = Some p →
  isValidPosition (position p) = true → toIndex (py (position p)) = None →
  updateGame ra s = None ∧ intervalCallback ra now s = None.
Proof.
  intros Hr Ha Hp Hv Hy.
  assert (H : updateGame ra s = None).
  { unfold updateGame. rewrite Hr. cbn [mbind option_bind].
    by rewrite (updateGameLoop_throws _ _ _ a p Ha Hp Hv Hy). }
  split; [done|]. unfold intervalCallback. by rewrite H.
Qed.

(** C5. A claim inside the grid does not always set a cell, and can throw.
    Alice, alone in her room at (10, 0), sends [move] [down] with speed
    1/2: the handler stores the position (10, 1/2), which passes
    [isValidPosition], and the next firing of the room's timer throws in
    [updateGame], on the write through the row [board[0.5]], which does
    not exist.  With [right] instead she stands at (10 1/2, 0), inside
    the grid as well: the update returns, but the write has set no cell
    (the board is still the one [createBoard] built) and her score
    is 0. *)
Theorem fractional_claim_throws :
  let sY := stateAfter halfStepDown in
  let sX := stateAfter halfStepRight in
  run halfStepDown initialServer = Some sY ∧
  position (playerAt sY 0) = mkPosition 10 (1 # 2) ∧
  isValidPosition (position (playerAt sY 0)) = true ∧
  intervals sY = [0%nat] ∧
  updateGame 0 sY = None ∧
  intervalCallback 0 2000 sY = None ∧
  run (halfStepDown ++ [Tick 0 2000]) initialServer = None ∧
  run halfStepRight initialServer = Some sX ∧
  position (playerAt sX 0) = mkPosition (21 # 2) 0 ∧
  isValidPosition (position (playerAt sX 0)) = true ∧
  ∃ s', updateGame 0 sX = Some s' ∧
        board (gameState (roomAt s' 0)) = createBoard ∧
        score (playerAt s' 0) = 0.
Proof.
  cbv zeta. split_and!; try (vm_compute; reflexivity).
  eexists. split_and!; vm_compute; reflexivity.
Qed.

(** * Reading players off the heap, and the loop of [updateGame] *)

Lemma playersAt_cons (heap : list Player) (a : nat) (refs : list nat) (ps : list Player) :
  playersAt heap (a :: refs) = Some ps ↔
  ∃ p ps', heap !! a = Some p ∧ playersAt heap refs = Some ps' ∧ ps = p :: ps'.
Proof.
  unfold playersAt. rewrite mapM_Some. split.
  - intros H. inversion H as [|? p ? ps' Hp Hps]; subst.
    exists p, ps'. split_and!; [done| |done]. by apply mapM_Some.
  - intros (p & ps' & Hp & Hps & ->). constructor; [done|]. by apply mapM_Some.
Qed.


(** The loop of [updateGame] runs to its end when the board has the
    server's shape, every reference is live and no listed player stands
    where the guarded write throws. *)
Lemma updateGameLoop_defined (refs : list nat) (b : Board) (heap : list Player) :
  boardShape b → Forall (fun a => (a < length heap)%nat) refs →
  (∀ a p, a ∈ refs → heap !! a = Some p → claimable (position p)) →
  is_Some (updateGameLoop refs (b, heap)).
Proof.
  revert b heap. induction refs as [|a refs IH]; intros b heap Hb Hl Hc;
    cbn [updateGameLoop].
  - by eexists.
  - apply Forall_cons in Hl as [Ha Hl].
    destruct (lookup_lt_is_Some_2 heap a Ha) as [p Hp].
    assert (Hcp : claimable (position p)) by (eapply Hc; [by left|done]).
    assert (Hdef : is_Some (claimCell b (position p) (color p))).
    { unfold claimCell. destruct (isValidPosition (position p)) eqn:Hv; [|by eexists].
      apply boardWrite_defined; [done|done|]. by apply Hcp. }
    destruct Hdef as [b1 Hb1].
    unfold updateGameStep. simpl. rewrite Hp. simpl. rewrite Hb1. simpl.
    apply IH; [by eapply claimCell_shape|by rewrite length_insert|].
    intros a' p' Ha' Hp'. destruct (decide (a' = a)) as [->|Hne].
    + rewrite list_lookup_insert_eq in Hp' by done. injection Hp' as <-. exact Hcp.
    + rewrite list_lookup_insert_ne in Hp' by done. eapply Hc; [by right|done].
Qed.

Lemma playersAt_live (heap : list Player) (refs : list nat) (ps : list Player) :
  playersAt heap refs = Some ps → Forall (fun a => (a < length heap)%nat) refs.
Proof.
  unfold playersAt. intros H. apply mapM_Some in H.
  apply Forall_forall. intros a Ha. apply list_elem_of_lookup in Ha as [i Hi].
  destruct (Forall2_lookup_l _ _ _ _ _ H Hi) as (q & _ & Hq). by eapply lookup_lt_Some.
Qed.

Lemma playersAt_elem (heap : list Player) (refs : list nat) (ps : list Player)
    (a : nat) (p : Player) :
  playersAt heap refs = Some ps → a ∈ refs → heap !! a = Some p → p ∈ ps.
Proof.
  unfold playersAt. intros H Ha Hp. apply mapM_Some in H.
  apply list_elem_of_lookup in Ha as [i Hi].
  destruct (Forall2_lookup_l _ _ _ _ _ H Hi) as (q & Hq & Hhq).
  assert (q = p) as -> by congruence. by eapply list_elem_of_lookup_2.
Qed.

Lemma updateGameLoop_defined_at (refs : list nat) (b : Board) (heap : list Player)
    (ps : list Player) :
  boardShape b → playersAt heap refs = Some ps →
  Forall (fun p => claimable (position p)) ps →
  is_Some (updateGameLoop refs (b, heap)).
Proof.
  intros Hb Hps Hc. apply updateGameLoop_defined; [done|by eapply playersAt_live|].
  intros a p Ha Hp. rewrite Forall_forall in Hc. apply Hc. by eapply playersAt_elem.
Qed.

(** * Well-formed states and the handlers that return

    The [None] results of the model stand for what JavaScript cannot do
    (follow a reference to nothing) or for an exception.  On the states
    the server reaches no reference dangles, so a handler returns [None]
    only where the JavaScript throws: on a frame that does not parse or
    parses to [null], and on a tick with a listed player inside the grid
    at a row coordinate that is no integer. *)

Section MapForall.
Context {K V : Type} `{EqDecision K}.
Implicit Types (k : K) (v : V) (m : list (K * V)) (P : K * V → Prop).

Lemma mapSet_Forall P k v m : Forall P m → P (k, v) → Forall P (mapSet k v m).
Proof.
  intros Hm Hkv. apply Forall_forall. intros kv [->|Hin]%mapSet_values; [done|].
  rewrite Forall_forall in Hm. by apply Hm.
Qed.

Lemma mapDelete_Forall P k m : Forall P m → Forall P (mapDelete k m).
Proof.
  intros Hm. apply Forall_forall. intros kv [Hin _]%mapDelete_elem.
  rewrite Forall_forall in Hm. by apply Hm.
Qed.

Lemma mapGet_elem k v m : mapGet k m = Some v → (k, v) ∈ m.
Proof.
  induction m as [|[k' v'] m IH]; simpl; [done|].
  destruct (decide (k' = k)) as [->|].
  - intros [= ->]. by left.
  - intros Hm. right. by apply IH.
Qed.
End MapForall.

Lemma clearInterval_Forall (P : nat → Prop) (ra : nat) (timers : list nat) :
  Forall P timers → Forall P (clearInterval ra timers).
Proof.
  induction 1 as [|t timers Ht Hts IH]; simpl; [done|].
  destruct (decide (t = ra)); [done|]. by constructor.
Qed.

Lemma roomWf_mono (n m : nat) (r : Room) : (n ≤ m)%nat → roomWf n r → roomWf m r.
Proof.
  intros Hle (H1 & H2 & H3). split_and!; [| |done].
  - eapply Forall_impl; [exact H1|]. simpl. intros. lia.
  - eapply Forall_impl; [exact H2|]. simpl. intros. lia.
Qed.

Lemma roomRefLive_mono (n m : nat) (p : Player) :
  (n ≤ m)%nat → roomRefLive n p → roomRefLive m p.
Proof. unfold roomRefLive. destruct (room p); [lia|done]. Qed.

Lemma wellFormed_room (s : Server) (ra : nat) :
  wellFormed s → (ra < length (roomHeap s))%nat →
  ∃ r, roomHeap s !! ra = Some r ∧ roomWf (length (playerHeap s)) r.
Proof.
  intros (H1 & _) Hra. destruct (lookup_lt_is_Some_2 _ _ Hra) as [r Hr].
  exists r. split; [done|]. by eapply (Forall_lookup_1 _ _ _ _ H1 Hr).
Qed.

Lemma wellFormed_player (s : Server) (pa : nat) :
  wellFormed s → (pa < length (playerHeap s))%nat →
  ∃ p, playerHeap s !! pa = Some p ∧ roomRefLive (length (roomHeap s)) p.
Proof.
  intros (_ & H2 & _) Hpa. destruct (lookup_lt_is_Some_2 _ _ Hpa) as [p Hp].
  exists p. split; [done|]. by eapply (Forall_lookup_1 _ _ _ _ H2 Hp).
Qed.

Lemma okStep_refl (s : Server) : wellFormed s → okStep s s.
Proof. by intros; split_and!. Qed.

Lemma okStep_trans (s1 s2 s3 : Server) : okStep s1 s2 → okStep s2 s3 → okStep s1 s3.
Proof. intros (? & ? & ?) (? & ? & ?). split_and!; [done| |]; congruence. Qed.

Lemma okStep_setSent (s : Server) (log : list (nat * BroadcastMessage)) :
  wellFormed s → okStep s (setSent log s).
Proof. intros Hwf. by split_and!. Qed.

Lemma okStep_writeRoom (s : Server) (ra : nat) (r' : Room) :
  wellFormed s → roomWf (length (playerHeap s)) r' → okStep s (writeRoom ra r' s).
Proof.
  intros (H1 & H2 & H3 & H4 & H5) Hr'. unfold okStep, wellFormed. simpl.
  rewrite !length_insert. split_and!; try done. by apply Forall_insert.
Qed.

Lemma okStep_writePlayer (s : Server) (pa : nat) (p' : Player) :
  wellFormed s → roomRefLive (length (roomHeap s)) p' → okStep s (writePlayer pa p' s).
Proof.
  intros (H1 & H2 & H3 & H4 & H5) Hp'. unfold okStep, wellFormed. simpl.
  rewrite !length_insert. split_and!; try done. by apply Forall_insert.
Qed.

Lemma roomWf_members (n : nat) (r : Room) (heap : list Player) :
  roomWf n r → length heap = n → membersLive heap (players r).
Proof. intros (H1 & _) <-. exact H1. Qed.

Lemma playersAt_defined (heap : list Player) (refs : list nat) :
  Forall (fun a => (a < length heap)%nat) refs → is_Some (playersAt heap refs).
Proof.
  intros Hl. apply mapM_is_Some_2. eapply Forall_impl; [exact Hl|].
  intros a Ha. by apply lookup_lt_is_Some_2.
Qed.

Lemma broadcastMessage_ok (ra : nat) (msg : BroadcastMessage) (s : Server) :
  wellFormed s → (ra < length (roomHeap s))%nat →
  ∃ s', broadcastMessage ra msg s = Some s' ∧ okStep s s'.
Proof.
  intros Hwf Hra. destruct (wellFormed_room s ra Hwf Hra) as (r & Hr & Hrwf).
  destruct (broadcastMessage_defined ra msg s r Hr) as (socks & _ & Hb).
  { by eapply roomWf_members. }
  eexists. split; [exact Hb|]. by apply okStep_setSent.
Qed.

Lemma broadcastGameState_ok (ra : nat) (t : Z) (s : Server) :
  wellFormed s → (ra < length (roomHeap s))%nat →
  ∃ s', broadcastGameState ra t s = Some s' ∧ okStep s s'.
Proof.
  intros Hwf Hra. destruct (wellFormed_room s ra Hwf Hra) as (r & Hr & Hrwf).
  destruct (socketsOf_defined (playerHeap s) (players r)) as [socks Hs].
  { by eapply roomWf_members. }
  assert (Hpd : is_Some (mapM (fun a => playerData <$> playerHeap s !! a)
                           (gsPlayers (gameState r)))).
  { apply mapM_is_Some_2. destruct Hrwf as (_ & H2 & _).
    eapply Forall_impl; [exact H2|]. intros a Ha. simpl.
    destruct (lookup_lt_is_Some_2 _ _ Ha) as [p Hp]. rewrite Hp. by eexists. }
  destruct Hpd as [pd Hpd].
  eexists. split.
  - unfold broadcastGameState. rewrite Hr. cbn [mbind option_bind].
    rewrite Hpd. cbn [mbind option_bind]. rewrite Hs. reflexivity.
  - by apply okStep_setSent.
Qed.

Lemma claimInitialTerritory_ok (ra pa : nat) (s : Server) :
  wellFormed s → (ra < length (roomHeap s))%nat → (pa < length (playerHeap s))%nat →
  (∀ p, playerHeap s !! pa = Some p → integral (position p)) →
  ∃ s', claimInitialTerritory ra pa s = Some s' ∧ okStep s s'.
Proof.
  intros Hwf Hra Hpa Hint. destruct (wellFormed_room s ra Hwf Hra) as (r & Hr & Hrwf).
  destruct (wellFormed_player s pa Hwf Hpa) as (p & Hp & _).
  destruct Hrwf as (H1 & H2 & H3).
  destruct (claimAll_defined (board (gameState r)) (claimPositions (position p)) (color p) H3)
    as (b' & Hc & Hb'); [by apply claimPositions_rows, Hint|].
  eexists. split.
  - unfold claimInitialTerritory. rewrite Hr. cbn [mbind option_bind].
    rewrite Hp. cbn [mbind option_bind]. rewrite Hc. reflexivity.
  - apply okStep_writeRoom; [done|]. by split_and!.
Qed.

(** What a completed loop of [updateGame] keeps. *)
Lemma updateGameLoop_wf (refs : list nat) (b : Board) (heap : list Player) (n : nat)
    (b' : Board) (heap' : list Player) :
  updateGameLoop refs (b, heap) = Some (b', heap') →
  boardShape b → Forall (roomRefLive n) heap →
  boardShape b' ∧ length heap' = length heap ∧ Forall (roomRefLive n) heap'.
Proof.
  revert b heap. induction refs as [|a refs IH]; intros b heap; cbn [updateGameLoop].
  - by intros [= <- <-].
  - intros H Hb Hh. bind_inv H st1 Hstep. unfold updateGameStep in Hstep.
    cbn [fst snd] in Hstep. bind_inv Hstep p Hp. bind_inv Hstep b1 Hb1.
    injection Hstep as <-.
    destruct (IH _ _ H) as (Hb' & Hlen & Hh').
    + by eapply claimCell_shape.
    + apply Forall_insert; [done|]. by eapply (Forall_lookup_1 _ _ _ _ Hh Hp).
    + split_and!; try done. by rewrite Hlen, length_insert.
Qed.

Lemma updateGame_wf (ra : nat) (s s' : Server) :
  wellFormed s → updateGame ra s = Some s' → okStep s s'.
Proof.
  intros Hwf H. unfold updateGame in H. bind_inv H r Hr. bind_inv H st Hst.
  injection H as <-. destruct st as [b' heap'].
  assert (Hra : (ra < length (roomHeap s))%nat) by (by eapply lookup_lt_Some).
  destruct (wellFormed_room s ra Hwf Hra) as (r0 & Hr0 & Hrwf).
  assert (r0 = r) as -> by congruence.
  destruct Hwf as (H1 & H2 & H3 & H4 & H5). destruct Hrwf as (R1 & R2 & R3).
  destruct (updateGameLoop_wf _ _ _ (length (roomHeap s)) _ _ Hst R3 H2)
    as (Hb' & Hlen & Hh').
  unfold okStep, wellFormed. simpl. rewrite !length_insert, Hlen.
  split_and!; try done. apply Forall_insert; [done|]. by split_and!.
Qed.


Lemma endGame_ok (ra : nat) (s : Server) :
  wellFormed s → (ra < length (roomHeap s))%nat →
  ∃ s', endGame ra s = Some s' ∧ okStep s s' ∧ intervals s' = intervals s.
Proof.
  intros Hwf Hra. destruct (wellFormed_room s ra Hwf Hra) as (r & Hr & Hrwf).
  destruct (playersAt_defined (playerHeap s) (gsPlayers (gameState r))) as [ps Hps].
  { by destruct Hrwf as (_ & ? & _). }
  destruct (broadcastMessage_defined ra (gameOver (playerData <$> endGameWinner ps)) s r Hr)
    as (socks & _ & Hb).
  { by eapply roomWf_members. }
  eexists. split_and!.
  - unfold endGame. rewrite Hr. cbn [mbind option_bind].
    unfold playersAt in Hps. rewrite Hps. cbn [mbind option_bind].
    rewrite Hb. reflexivity.
  - destruct Hwf as (H1 & H2 & H3 & H4 & H5). unfold okStep, wellFormed. simpl.
    split_and!; try done. by apply mapDelete_Forall.
  - done.
Qed.

(** The callback after [updateGame]. *)
Lemma afterUpdate_ok (ra : nat) (now : Z) (s1 : Server) :
  wellFormed s1 → (ra < length (roomHeap s1))%nat →
  ∃ s3,
    (r ← roomHeap s1 !! ra;
     let remainingTime := duration r - (now - startTime r) in
     s2 ← (if decide (remainingTime ≤ 0)
           then s' ← endGame ra s1;
                Some (setIntervals (clearInterval ra (intervals s')) s')
           else Some s1);
     broadcastGameState ra remainingTime s2) = Some s3 ∧ okStep s1 s3.
Proof.
  intros Hwf1 Hra1.
  destruct (wellFormed_room s1 ra Hwf1 Hra1) as (r & Hr & _).
  set (remainingTime := duration r - (now - startTime r)).
  assert (Hmid : ∃ s2,
            (if decide (remainingTime ≤ 0)
             then s' ← endGame ra s1;
                  Some (setIntervals (clearInterval ra (intervals s')) s')
             else Some s1) = Some s2 ∧ okStep s1 s2).
  { case_decide.
    - destruct (endGame_ok ra s1 Hwf1 Hra1) as (s' & Hs' & (Hwf' & Hp' & Hr') & Hint).
      eexists. split; [rewrite Hs'; reflexivity|].
      destruct Hwf' as (W1 & W2 & W3 & W4 & W5). unfold okStep, wellFormed. simpl.
      split_and!; try done. by apply clearInterval_Forall.
    - exists s1. split; [done|]. by apply okStep_refl. }
  destruct Hmid as (s2 & Hs2 & Hok2). pose proof Hok2 as (Hwf2 & Hp2 & Hr2).
  destruct (broadcastGameState_ok ra remainingTime s2 Hwf2) as (s3 & Hs3 & Hok3); [lia|].
  exists s3. split.
  - rewrite Hr. cbn [mbind option_bind]. fold remainingTime.
    rewrite Hs2. cbn [mbind option_bind]. exact Hs3.
  - by eapply okStep_trans.
Qed.


Lemma intervalCallback_wf (ra : nat) (now : Z) (s s' : Server) :
  wellFormed s → intervalCallback ra now s = Some s' → okStep s s'.
Proof.
  intros Hwf H. unfold intervalCallback in H. bind_inv H s1 Hs1.
  pose proof (updateGame_wf _ _ _ Hwf Hs1) as Hok1.
  pose proof Hok1 as (Hwf1 & Hp1 & Hr1).
  assert (Hra : (ra < length (roomHeap s1))%nat).
  { destruct (roomHeap s1 !! ra) as [r|] eqn:Hr; [by eapply lookup_lt_Some|done]. }
  destruct (afterUpdate_ok ra now s1 Hwf1 Hra) as (s3 & Hs3 & Hok3).
  assert (Heq : Some s3 = Some s') by (rewrite <- Hs3; exact H).
  injection Heq as ->. by eapply okStep_trans.
Qed.

Lemma startGameLoop_ok (spawn : nat → Z * Z) (i : nat) (members : list (string * nat))
    (heap : list Player) (gs : list nat) (n : nat) :
  Forall (fun kv => (kv.2 < length heap)%nat) members →
  Forall (fun a => (a < length heap)%nat) gs →
  Forall (roomRefLive n) heap →
  ∃ heap' gs',
    startGameLoop spawn i members (heap, gs) = Some (heap', gs') ∧
    length heap' = length heap ∧
    Forall (fun a => (a < length heap)%nat) gs' ∧
    Forall (roomRefLive n) heap'.
Proof.
  revert i heap gs. induction members as [|[k a] members IH]; intros i heap gs Hm Hgs Hh;
    cbn [startGameLoop].
  - by exists heap, gs.
  - apply Forall_cons in Hm as [Ha Hm]. cbn [snd] in Ha.
    destruct (lookup_lt_is_Some_2 heap a Ha) as [p Hp].
    cbn [fst snd]. rewrite Hp. cbn [mbind option_bind].
    set (pos := getRandomPosition (spawn i).1 (spawn i).2).
    destruct (IH (S i) (<[a := setTargetPosition pos (setPosition pos p)]> heap) (gs ++ [a]))
      as (heap' & gs' & Hloop & Hlen & Hgs' & Hh').
    + by rewrite length_insert.
    + rewrite length_insert. apply Forall_app. split; [done|]. by apply Forall_singleton.
    + apply Forall_insert; [done|]. by eapply (Forall_lookup_1 _ _ _ _ Hh Hp).
    + exists heap', gs'. rewrite length_insert in Hlen, Hgs'. by split_and!.
Qed.

Lemma startGame_ok (ra : nat) (now : Z) (spawn : nat → Z * Z) (s : Server) :
  wellFormed s → (ra < length (roomHeap s))%nat →
  ∃ s', startGame ra now spawn s = Some s' ∧ okStep s s'.
Proof.
  intros Hwf Hra. destruct (wellFormed_room s ra Hwf Hra) as (r & Hr & Hrwf).
  destruct Hwf as (H1 & H2 & H3 & H4 & H5). destruct Hrwf as (R1 & R2 & R3).
  destruct (startGameLoop_ok spawn 0 (players r) (playerHeap s) (gsPlayers (gameState r))
              (length (roomHeap s)) R1 R2 H2)
    as (heap' & gs' & Hloop & Hlen & Hgs' & Hh').
  eexists. split.
  - unfold startGame. rewrite Hr. cbn [mbind option_bind].
    change (players (setStartTime now r)) with (players r).
    change (gsPlayers (gameState (setStartTime now r))) with (gsPlayers (gameState r)).
    rewrite Hloop. reflexivity.
  - unfold okStep, wellFormed. simpl. rewrite !length_insert, Hlen.
    split_and!; try done.
    + apply Forall_insert; [done|]. by split_and!.
    + apply Forall_app. split; [done|]. by apply Forall_singleton.
Qed.

Lemma joinRoom_ok (pa ra : nat) (now : Z) (spawn : nat → Z * Z) (s : Server) :
  wellFormed s → (pa < length (playerHeap s))%nat → (ra < length (roomHeap s))%nat →
  ∃ s', joinRoom pa ra now spawn s = Some s' ∧ okStep s s'.
Proof.
  intros Hwf Hpa Hra.
  destruct (wellFormed_room s ra Hwf Hra) as (r & Hr & Hrwf).
  destruct (wellFormed_player s pa Hwf Hpa) as (p & Hp & Hplive).
  set (player1 := setRoom (Some ra) p).
  set (r1 := setPlayers (mapSet (id p) pa (players r)) r).
  set (s1 := writeRoom ra r1 (writePlayer pa player1 s)).
  assert (Hok0 : okStep s (writePlayer pa player1 s)).
  { by apply okStep_writePlayer. }
  assert (Hok1 : okStep s s1).
  { eapply okStep_trans; [exact Hok0|]. destruct Hok0 as (Hwf0 & Hlen0 & _).
    apply okStep_writeRoom; [done|]. rewrite Hlen0.
    destruct Hrwf as (R1 & R2 & R3). split_and!; try done.
    by apply mapSet_Forall. }
  pose proof Hok1 as (Hwf1 & Hp1 & Hr1).
  assert (Hj : joinRoom pa ra now spawn s =
               if decide (length (players r1) = 1%nat)
               then startGame ra now spawn s1
               else
                 let pos := getRandomPosition (spawn 0%nat).1 (spawn 0%nat).2 in
                 let s2 := writePlayer pa (setTargetPosition pos (setPosition pos player1)) s1 in
                 s3 ← claimInitialTerritory ra pa s2;
                 broadcastMessage ra (playerJoined (name player1)) s3).
  { unfold joinRoom. rewrite Hp. cbn [mbind option_bind]. rewrite Hr. reflexivity. }
  rewrite Hj. case_decide.
  - destruct (startGame_ok ra now spawn s1 Hwf1) as (s' & Hs' & Hok'); [lia|].
    exists s'. split; [done|]. by eapply okStep_trans.
  - cbv zeta.
    set (pos := getRandomPosition (spawn 0%nat).1 (spawn 0%nat).2).
    set (s2 := writePlayer pa (setTargetPosition pos (setPosition pos player1)) s1).
    assert (Hok2 : okStep s1 s2).
    { apply okStep_writePlayer; [done|]. unfold roomRefLive. cbn [room setTargetPosition
        setPosition player1 setRoom]. lia. }
    pose proof Hok2 as (Hwf2 & Hp2 & Hr2).
    destruct (claimInitialTerritory_ok ra pa s2 Hwf2) as (s3 & Hs3 & Hok3); [lia|lia| |].
    { intros p0 Hp0.
      cbn [playerHeap s2 writePlayer setPlayerHeap] in Hp0.
      rewrite list_lookup_insert_eq in Hp0 by lia. injection Hp0 as <-.
      apply getRandomPosition_integral. }
    pose proof Hok3 as (Hwf3 & Hp3 & Hr3).
    destruct (broadcastMessage_ok ra (playerJoined (name player1)) s3 Hwf3)
      as (s4 & Hs4 & Hok4); [lia|].
    exists s4. split.
    + rewrite Hs3. cbn [mbind option_bind]. exact Hs4.
    + eapply okStep_trans; [exact Hok1|]. eapply okStep_trans; [exact Hok2|].
      by eapply okStep_trans.
Qed.

Lemma leaveRoom_ok (pa : nat) (s : Server) :
  wellFormed s → (pa < length (playerHeap s))%nat →
  ∃ s', leaveRoom pa s = Some s' ∧ okStep s s'.
Proof.
  intros Hwf Hpa.
  destruct (wellFormed_player s pa Hwf Hpa) as (p & Hp & Hplive).
  unfold leaveRoom. rewrite Hp. cbn [mbind option_bind].
  unfold roomRefLive in Hplive. destruct (room p) as [ra|].
  - destruct (wellFormed_room s ra Hwf Hplive) as (r & Hr & Hrwf).
    rewrite Hr. cbn [mbind option_bind].
    set (r1 := setPlayers (mapDelete (id p) (players r)) r).
    set (s1 := writePlayer pa (setRoom None p) (writeRoom ra r1 s)).
    assert (Hok0 : okStep s (writeRoom ra r1 s)).
    { apply okStep_writeRoom; [done|]. destruct Hrwf as (R1 & R2 & R3).
      split_and!; try done. by apply mapDelete_Forall. }
    assert (Hok1 : okStep s s1).
    { eapply okStep_trans; [exact Hok0|]. destruct Hok0 as (Hwf0 & _).
      by apply okStep_writePlayer. }
    case_decide.
    + eexists. split; [reflexivity|].
      destruct Hok1 as ((W1 & W2 & W3 & W4 & W5) & Hl1 & Hl2).
      unfold okStep, wellFormed. simpl. simpl in *.
      split_and!; try done. by apply mapDelete_Forall.
    + by exists s1.
  - exists s. split; [done|]. by apply okStep_refl.
Qed.

Lemma processMessage_ok (pa : nat) (parsed : JsonValue) (digits : list nat)
    (s : Server) :
  wellFormed s → (pa < length (playerHeap s))%nat → parsed ≠ jNull →
  ∃ s', processMessage pa parsed digits s = Some s' ∧ okStep s s'.
Proof.
  intros Hwf Hpa Hnn.
  destruct (wellFormed_player s pa Hwf Hpa) as (p & Hp & Hplive).
  unfold processMessage. rewrite Hp. cbn [mbind option_bind].
  unfold roomRefLive in Hplive. destruct (room p) as [ra|] eqn:Hroom.
  - assert (Hf : ∃ message, fieldsOf parsed = Some message).
    { destruct parsed; [done|by eexists|by eexists]. }
    destruct Hf as [message Hf]. rewrite Hf. cbn [mbind option_bind].
    repeat case_decide.
    + eexists. split; [reflexivity|]. apply okStep_writePlayer; [done|].
      unfold roomRefLive. cbn [room setColor setName]. by rewrite Hroom.
    + set (player1 := updatePlayerPosition p _ _).
      assert (Hok1 : okStep s (writePlayer pa player1 s)).
      { apply okStep_writePlayer; [done|].
        unfold roomRefLive. cbn [room player1 updatePlayerPosition]. by rewrite Hroom. }
      pose proof Hok1 as (Hwf1 & Hp1 & Hr1).
      destruct (broadcastMessage_ok ra
                  (positionUpdate (id player1) (px (position player1)) (py (position player1)))
                  (writePlayer pa player1 s) Hwf1) as (s' & Hs' & Hok'); [lia|].
      exists s'. split; [done|]. by eapply okStep_trans.
    + eexists. split; [reflexivity|]. apply okStep_writePlayer; [done|].
      unfold roomRefLive. cbn [room setTargetPosition]. by rewrite Hroom.
    + destruct (wellFormed_room s ra Hwf Hplive) as (r & Hr & Hrwf).
      rewrite Hr. cbn [mbind option_bind].
      match goal with |- ∃ s', broadcastMessage ra ?m (writeRoom ra ?r1 s) = _ ∧ _ =>
        assert (Hok1 : okStep s (writeRoom ra r1 s));
        [ apply okStep_writeRoom; [done|]; destruct Hrwf as (R1 & R2 & R3); by split_and! |];
        pose proof Hok1 as (Hwf1 & Hp1 & Hr1);
        destruct (broadcastMessage_ok ra m (writeRoom ra r1 s) Hwf1) as (s' & Hs' & Hok');
        [lia|]
      end.
      exists s'. split; [done|]. by eapply okStep_trans.
    + exists s. split; [done|]. by apply okStep_refl.
  - exists s. split; [done|]. by apply okStep_refl.
Qed.

Lemma processMessage_wf (pa : nat) (parsed : JsonValue) (digits : list nat)
    (s s' : Server) :
  wellFormed s → (pa < length (playerHeap s))%nat →
  processMessage pa parsed digits s = Some s' → wellFormed s'.
Proof.
  intros Hwf Hpa H.
  assert (Hcase : parsed = jNull ∨ parsed ≠ jNull) by (destruct parsed; auto).
  destruct Hcase as [->|Hnn].
  - unfold processMessage in H. bind_inv H p Hp.
    destruct (room p); [done|]. by injection H as <-.
  - destruct (processMessage_ok pa parsed digits s Hwf Hpa Hnn) as (s2 & Hs2 & Hok & _).
    congruence.
Qed.

Lemma findRoom_defined (heap : list Room) (dir : list (string * nat)) :
  Forall (fun kv => (kv.2 < length heap)%nat) dir → is_Some (findRoom heap dir).
Proof.
  induction 1 as [|[k ra] dir Hra Hdir IH]; cbn [findRoom]; [by eexists|].
  destruct (lookup_lt_is_Some_2 heap ra Hra) as [r Hr]. rewrite Hr.
  cbn [mbind option_bind]. case_decide; [by eexists|done].
Qed.

Lemma createRoom_wellFormed (newId : string) (s : Server) :
  wellFormed s → wellFormed (createRoom newId s).2.
Proof.
  intros (H1 & H2 & H3 & H4 & H5). unfold wellFormed, createRoom. simpl.
  rewrite !length_app. simpl. split_and!; try done.
  - apply Forall_app. split; [done|]. apply Forall_singleton.
    split_and!; simpl; [done|done|]. apply boardShape_createBoard.
  - eapply Forall_impl; [exact H2|]. intros p. apply roomRefLive_mono. lia.
  - apply mapSet_Forall.
    + eapply Forall_impl; [exact H3|]. simpl. intros. lia.
    + simpl. lia.
  - eapply Forall_impl; [exact H5|]. simpl. intros. lia.
Qed.

Lemma findOrCreateRoom_ok (newId : string) (s : Server) :
  wellFormed s →
  ∃ ra s1, findOrCreateRoom newId s = Some (ra, s1) ∧ wellFormed s1 ∧
           (ra < length (roomHeap s1))%nat ∧
           length (playerHeap s1) = length (playerHeap s).
Proof.
  intros Hwf. pose proof Hwf as (H1 & H2 & H3 & H4 & H5).
  destruct (findRoom_defined (roomHeap s) (rooms s) H3) as [found Hf].
  unfold findOrCreateRoom. rewrite Hf. cbn [mbind option_bind].
  destruct found as [ra|].
  - exists ra, s. split_and!; try done.
    destruct (findRoom_found _ _ _ Hf) as (k & r & _ & Hr & _). by eapply lookup_lt_Some.
  - eexists _, _. split; [reflexivity|]. split_and!.
    + by apply createRoom_wellFormed.
    + simpl. rewrite length_app. simpl. lia.
    + done.
Qed.

Lemma onopen_ok (sock : nat) (now : Z) (e : Entropy) (s : Server) :
  wellFormed s → ∃ s', onopen sock now e s = Some s' ∧ wellFormed s'.
Proof.
  intros (H1 & H2 & H3 & H4 & H5). unfold onopen.
  set (pa := length (playerHeap s)).
  set (s1 := setPlayerMap (mapSet sock pa (playerMap s))
               (setPlayerHeap (playerHeap s ++ [createPlayer sock e]) s)).
  assert (Hwf1 : wellFormed s1).
  { unfold wellFormed. simpl. rewrite !length_app. simpl. split_and!; try done.
    - eapply Forall_impl; [exact H1|]. intros r. apply roomWf_mono. lia.
    - apply Forall_app. split; [done|]. by apply Forall_singleton.
    - apply mapSet_Forall.
      + eapply Forall_impl; [exact H4|]. simpl. intros. lia.
      + simpl. fold pa. lia. }
  destruct (findOrCreateRoom_ok (newRoomId e) s1 Hwf1) as (ra & s2 & Hf & Hwf2 & Hra & Hlen).
  rewrite Hf. cbn [mbind option_bind].
  destruct (joinRoom_ok pa ra now (spawnDraws e) s2 Hwf2) as (s' & Hs' & Hok & _).
  - rewrite Hlen. simpl. rewrite length_app. simpl. fold pa. lia.
  - done.
  - by exists s'.
Qed.

Lemma playerMap_live (s : Server) (sock pa : nat) :
  wellFormed s → mapGet sock (playerMap s) = Some pa → (pa < length (playerHeap s))%nat.
Proof.
  intros (_ & _ & _ & H4 & _) Hm. rewrite Forall_forall in H4.
  by apply (H4 _ (mapGet_elem _ _ _ Hm)).
Qed.

Lemma intervals_live (s : Server) (ra : nat) :
  wellFormed s → ra ∈ intervals s → (ra < length (roomHeap s))%nat.
Proof.
  intros (_ & _ & _ & _ & H5) Hin. rewrite Forall_forall in H5. by apply H5.
Qed.

Lemma onclose_ok (sock : nat) (s : Server) :
  wellFormed s → ∃ s', onclose sock s = Some s' ∧ wellFormed s'.
Proof.
  intros Hwf. unfold onclose. destruct (mapGet sock (playerMap s)) as [pa|] eqn:Hm.
  - destruct (leaveRoom_ok pa s Hwf) as (s' & Hs' & (W1 & W2 & W3 & W4 & W5) & Hl1 & Hl2).
    + by eapply playerMap_live.
    + rewrite Hs'. cbn [mbind option_bind]. eexists. split; [reflexivity|].
      unfold wellFormed. simpl. split_and!; try done. by apply mapDelete_Forall.
  - by exists s.
Qed.


(** Every handler that returns keeps the state well formed. *)
Lemma handleEvent_wellFormed (ev : Event) (s s' : Server) :
  wellFormed s → handleEvent ev s = Some s' → wellFormed s'.
Proof.
  intros Hwf H. destruct ev as [sock now e|sock frame digits|sock|ra now];
    cbn [handleEvent] in H.
  - destruct (onopen_ok sock now e s Hwf) as (s2 & Hs2 & Hwf2). congruence.
  - unfold onmessage in H. bind_inv H parsed Hparsed.
    destruct (mapGet sock (playerMap s)) as [pa|] eqn:Hm.
    + eapply processMessage_wf; [done| |done]. by eapply playerMap_live.
    + by injection H as <-.
  - destruct (onclose_ok sock s Hwf) as (s2 & Hs2 & Hwf2). congruence.
  - case_decide; [|done]. by destruct (intervalCallback_wf _ _ _ _ Hwf H).
Qed.

Lemma run_wellFormed (evs : list Event) (s s' : Server) :
  wellFormed s → run evs s = Some s' → wellFormed s'.
Proof.
  revert s. induction evs as [|ev evs IH]; intros s Hwf; cbn [run].
  - by intros [= <-].
  - intros H. bind_inv H s1 Hs1. eapply IH; [|done].
    by eapply handleEvent_wellFormed.
Qed.

(** * Further properties of the server *)

(** ** Colors and the fresh board *)

Lemma append_cons (ch : Ascii.ascii) (a b : string) :
  String ch a +:+ b = String ch (a +:+ b).
Proof. reflexivity. Qed.

Lemma append_assoc (a b c : string) : (a +:+ b) +:+ c = a +:+ (b +:+ c).
Proof. induction a as [|ch a IH]; [done|]. rewrite !append_cons. by f_equal. Qed.

Lemma length_append (a b : string) :
  String.length (a +:+ b) = (String.length a + String.length b)%nat.
Proof.
  induction a as [|ch a IH]; [done|].
  rewrite append_cons. cbn [String.length Nat.add]. by f_equal.
Qed.

Lemma list_ascii_append (a b : string) :
  String.list_ascii_of_string (a +:+ b) = String.list_ascii_of_string a ++ String.list_ascii_of_string b.
Proof.
  induction a as [|ch a IH]; [done|].
  rewrite append_cons. cbn [String.list_ascii_of_string app]. by f_equal.
Qed.

(** A draw below 16 selects one character of [letters]. *)
Lemma hexLetter_digit (d : nat) :
  (d < 16)%nat →
  ∃ ch, hexLetter d = String ch EmptyString ∧
        ch ∈ String.list_ascii_of_string "0123456789ABCDEF".
Proof.
  intros Hd. unfold hexLetter.
  do 16 (destruct d as [|d]; [eexists; split; [reflexivity|compute_done]|]).
  lia.
Qed.

Lemma getRandomColor_loop (l : list nat) (acc : string) :
  ∃ t, fold_left (fun color d => color +:+ hexLetter d) l acc = acc +:+ t ∧
       (Forall (fun d => (d < 16)%nat) l →
        String.length t = length l ∧
        Forall (fun ch => ch ∈ String.list_ascii_of_string "0123456789ABCDEF")
               (String.list_ascii_of_string t)).
Proof.
  revert acc. induction l as [|d l IH]; intros acc; cbn [fold_left].
  - exists "". split.
    + clear. induction acc as [|ch acc IH]; [done|]. rewrite append_cons. by f_equal.
    + intros _. split; [done|]. simpl. constructor.
  - destruct (IH (acc +:+ hexLetter d)) as (t & Ht & Hhex).
    exists (hexLetter d +:+ t). split.
    + rewrite Ht. apply append_assoc.
    + intros Hall. apply Forall_cons in Hall as [Hd Hall].
      destruct (Hhex Hall) as [Hlen Hch].
      destruct (hexLetter_digit d Hd) as (ch & Hch1 & Hin). rewrite Hch1.
      rewrite append_cons. change ("" +:+ t) with t.
      cbn [String.length String.list_ascii_of_string length].
      split; [by rewrite Hlen|]. by constructor.
Qed.

(** X2. [getRandomColor] always returns a string that starts with [#], so a
    player's color is never the empty string that marks an unclaimed
    cell; with six draws below 16 the string is [#] followed by exactly
    six characters of [0123456789ABCDEF]. *)
Theorem getRandomColor_format (digits : list nat) :
  ∃ rest,
    getRandomColor digits = "#" +:+ rest ∧
    getRandomColor digits ≠ "" ∧
    ((6 ≤ length digits)%nat →
     Forall (fun d => (d < 16)%nat) (take 6 digits) →
     String.length rest = 6%nat ∧
     Forall (fun ch => ch ∈ String.list_ascii_of_string "0123456789ABCDEF")
            (String.list_ascii_of_string rest)).
Proof.
  unfold getRandomColor.
  destruct (getRandomColor_loop (take 6 digits) "#") as (t & Ht & Hhex).
  exists t. rewrite Ht. split_and!; [done|done|].
  intros Hlen Hall. destruct (Hhex Hall) as [Hl Hch].
  split; [|done]. rewrite Hl, length_take. lia.
Qed.

Lemma getRandomColor_format_witness :
  ∃ rest,
    getRandomColor [10; 11; 12; 13; 14; 15]%nat = "#" +:+ rest ∧
    String.length rest = 6%nat.
Proof.
  destruct (getRandomColor_format [10; 11; 12; 13; 14; 15]%nat) as (rest & H1 & _ & H3).
  exists rest. split; [done|]. apply H3.
  - simpl. lia.
  - compute_done.
Defined.

Lemma ownedInRow_replicate (c cell : string) (n : nat) :
  ownedInRow c (replicate n cell) = if decide (cell = c) then n else 0%nat.
Proof.
  induction n as [|n IH]; simpl.
  - by destruct (decide (cell = c)).
  - rewrite ownedInRow_cons, IH. by destruct (decide (cell = c)).
Qed.

Lemma owned_replicate (c : string) (row : list string) (n : nat) :
  owned c (replicate n row) = (n * ownedInRow c row)%nat.
Proof.
  unfold owned. induction n as [|n IH]; simpl; [done|]. by rewrite IH.
Qed.

(** X3. The board [createBoard] returns has [boardSize] rows of [boardSize]
    cells, all unclaimed: reading inside the grid gives the empty string,
    reading outside gives nothing, and [countPlayerSquares] is 0 for every
    color but the empty string, for which it is the whole board. *)
Theorem createBoard_unclaimed :
  boardShape createBoard ∧
  (∀ cx cy, cellAt createBoard cx cy =
            if isValidPosition (mkPosition (inject_Z cx) (inject_Z cy))
            then Some "" else None) ∧
  (∀ c, countPlayerSquares createBoard c =
        if decide (c = "") then boardSize * boardSize else 0).
Proof.
  split_and!.
  - apply boardShape_createBoard.
  - intros cx cy.
    destruct (isValidPosition (mkPosition (inject_Z cx) (inject_Z cy))) eqn:Hv.
    + apply isValidPosition_inject in Hv. unfold cellAt, createBoard.
      rewrite decide_True by lia.
      rewrite lookup_replicate_2 by (unfold boardSize in *; lia).
      cbn [mbind option_bind].
      apply lookup_replicate_2. unfold boardSize in *. lia.
    + apply cellAt_outside; [apply boardShape_createBoard|done].
  - intros c. rewrite countPlayerSquares_owned. unfold createBoard.
    rewrite owned_replicate, ownedInRow_replicate.
    destruct (decide ("" = c)) as [<-|Hne].
    + rewrite decide_True by done. unfold boardSize. lia.
    + rewrite decide_False by done. lia.
Qed.

(** ** Placing a connection *)

Lemma findRoom_first (heap : list Room) (dir : list (string * nat)) (ra : nat) :
  findRoom heap dir = Some (Some ra) →
  ∃ i k r,
    dir !! i = Some (k, ra) ∧ heap !! ra = Some r ∧
    (length (players r) < maxPlayers)%nat ∧
    ∀ j k' ra' r', (j < i)%nat → dir !! j = Some (k', ra') → heap !! ra' = Some r' →
                   (maxPlayers ≤ length (players r'))%nat.
Proof.
  induction dir as [|[k a] dir IH]; cbn [findRoom]; [done|].
  intros H. bind_inv H r Hr. case_decide as Hfree.
  - injection H as <-. exists 0%nat, k, r. split_and!; try done. intros j; lia.
  - destruct (IH H) as (i & k1 & r1 & Hi & Hr1 & Hlt & Hbefore).
    exists (S i), k1, r1. split_and!; try done.
    intros [|j] k' ra' r' Hj Hlook Hr'; simpl in Hlook.
    + injection Hlook as <- <-. assert (r' = r) as -> by congruence. lia.
    + eapply Hbefore; [|done|done]. lia.
Qed.

(** X4. [findOrCreateRoom] returns the first room, in the insertion order of
    the directory, that has a free seat, and leaves the server as it is;
    only when every room of the directory is full does it create a room,
    which is empty, has a fresh board, the full [gameDuration], and is
    entered in the directory under the generated id. *)
Theorem findOrCreateRoom_first_fit (newId : string) (s s1 : Server) (ra : nat) :
  findOrCreateRoom newId s = Some (ra, s1) →
  (s1 = s ∧
   ∃ i k r,
     rooms s !! i = Some (k, ra) ∧ roomHeap s !! ra = Some r ∧
     (length (players r) < maxPlayers)%nat ∧
     ∀ j k' ra' r', (j < i)%nat → rooms s !! j = Some (k', ra') →
                    roomHeap s !! ra' = Some r' →
                    (maxPlayers ≤ length (players r'))%nat)
  ∨
  ((∀ k' ra' r', (k', ra') ∈ rooms s → roomHeap s !! ra' = Some r' →
                 (maxPlayers ≤ length (players r'))%nat) ∧
   ra = length (roomHeap s) ∧
   roomHeap s1 = roomHeap s ++ [mkRoom newId [] (mkGameState createBoard [] []) gameDuration 0] ∧
   rooms s1 = mapSet newId ra (rooms s) ∧
   playerHeap s1 = playerHeap s ∧ playerMap s1 = playerMap s ∧
   intervals s1 = intervals s ∧ sent s1 = sent s).
Proof.
  unfold findOrCreateRoom. intros H. bind_inv H found Hf.
  destruct found as [ra0|].
  - injection H as <- <-. left. split; [done|]. by apply findRoom_first.
  - injection H as <- <-. right. split_and!; try done.
    by apply findRoom_none.
Qed.

Lemma findOrCreateRoom_first_fit_witness :
  ∃ i k r,
    rooms (stateAfter fiveConnections) !! i = Some (k, 1%nat) ∧
    roomHeap (stateAfter fiveConnections) !! 1%nat = Some r ∧
    (length (players r) < maxPlayers)%nat.
Proof.
  destruct (findOrCreateRoom_first_fit "room-6" (stateAfter fiveConnections)
              (stateAfter fiveConnections) 1)
    as [(_ & i & k & r & H1 & H2 & H3 & _)|(Hfull & _)].
  - vm_compute. reflexivity.
  - exists i, k, r. exact (conj H1 (conj H2 H3)).
  - exfalso.
    pose (r5 := default (mkRoom "" [] (mkGameState [] [] []) 0 0)
                  (roomHeap (stateAfter fiveConnections) !! 1%nat)).
    assert (H : (maxPlayers ≤ length (players r5))%nat).
    { apply (Hfull "room-5" 1%nat r5).
      - compute_done.
      - vm_compute. reflexivity. }
    vm_compute in H. lia.
Defined.

(** ** The per-tick update *)

Lemma claimsOf_cons (heap : list Player) (a : nat) (refs : list nat) :
  claimsOf heap (a :: refs) =
    p ← heap !! a; cl ← claimsOf heap refs; Some ((position p, color p) :: cl).
Proof.
  unfold claimsOf. cbn [mapM]. destruct (heap !! a) as [p|]; [|done].
  cbn [fmap option_fmap option_map mbind option_bind].
  destruct (mapM _ refs); done.
Qed.

Lemma claimsOf_insert_score (heap : list Player) (a : nat) (p : Player) (v : Z)
    (refs : list nat) :
  heap !! a = Some p →
  claimsOf (<[a := setScore v p]> heap) refs = claimsOf heap refs.
Proof.
  intros Hp. induction refs as [|a' refs IH]; [done|].
  rewrite !claimsOf_cons, IH.
  destruct (decide (a = a')) as [<-|Hne].
  - rewrite list_lookup_insert_eq by (by eapply lookup_lt_Some). by rewrite Hp.
  - by rewrite list_lookup_insert_ne.
Qed.

Lemma claimsOf_playersAt (heap : list Player) (refs : list nat) (ps : list Player) :
  playersAt heap refs = Some ps →
  claimsOf heap refs = Some (map (fun p => (position p, color p)) ps).
Proof.
  revert ps. induction refs as [|a refs IH]; intros ps.
  - by intros [= <-].
  - intros (p & ps1 & Hp & Hps & ->)%playersAt_cons.
    rewrite claimsOf_cons, Hp. cbn [mbind option_bind]. by rewrite (IH _ Hps).
Qed.

(** The board a tick ends with is the board after the listed players'
    claims, taken in list order. *)
Lemma updateGameLoop_board (refs : list nat) (b : Board) (heap : list Player)
    (b' : Board) (heap' : list Player) (cl : list (Position * string)) :
  updateGameLoop refs (b, heap) = Some (b', heap') →
  claimsOf heap refs = Some cl →
  claimEach b cl = Some b'.
Proof.
  revert b heap cl. induction refs as [|a refs IH]; intros b heap cl Hloop Hcl.
  - cbn [updateGameLoop] in Hloop. injection Hloop as <- <-.
    by injection Hcl as <-.
  - cbn [updateGameLoop] in Hloop. bind_inv Hloop st1 Hstep.
    unfold updateGameStep in Hstep. cbn [fst snd] in Hstep.
    bind_inv Hstep p Hp. bind_inv Hstep b1 Hb1. injection Hstep as <-.
    rewrite claimsOf_cons, Hp in Hcl. cbn [mbind option_bind] in Hcl.
    bind_inv Hcl cl1 Hcl1. injection Hcl as <-.
    cbn [claimEach]. rewrite Hb1. cbn [mbind option_bind].
    eapply IH; [exact Hloop|]. by rewrite claimsOf_insert_score.
Qed.

(** Reading the board after a sequence of claims. *)
Lemma claimEach_cells (cl : list (Position * string)) (b b' : Board) :
  claimEach b cl = Some b' →
  (∀ cx cy, Forall (fun pc => ¬ standsOn pc.1 cx cy) cl →
            cellAt b' cx cy = cellAt b cx cy) ∧
  (∀ i p c cx cy, cl !! i = Some (p, c) → standsOn p cx cy →
            (∀ j q c', (i < j)%nat → cl !! j = Some (q, c') → ¬ standsOn q cx cy) →
            cellAt b' cx cy = Some c).
Proof.
  revert b. induction cl as [|[q cq] cl IH]; intros b; cbn [claimEach].
  - intros [= <-]. split; [done|]. intros i p c cx cy Hi. by rewrite lookup_nil in Hi.
  - intros H. bind_inv H b1 Hb1. destruct (IH b1 H) as [IHa IHb]. split.
    + intros cx cy Hall. apply Forall_cons in Hall as [Hq Hall]. cbn [fst] in Hq.
      rewrite (IHa cx cy Hall), (cellAt_claimCell _ _ _ _ _ _ Hb1).
      by rewrite decide_False.
    + intros [|i] p c cx cy Hi Hst Hlater; simpl in Hi.
      * injection Hi as -> ->.
        rewrite (IHa cx cy).
        -- rewrite (cellAt_claimCell _ _ _ _ _ _ Hb1). by rewrite decide_True.
        -- apply Forall_forall. intros [q c'] Hin Hq. cbn [fst] in *.
           apply list_elem_of_lookup in Hin as [j Hj].
           by apply (Hlater (S j) q c'); [lia|exact Hj|].
      * apply (IHb i p c cx cy Hi Hst). intros j q' c' Hj Hlook.
        apply (Hlater (S j) q' c'); [lia|exact Hlook].
Qed.

(** X5. Within one tick the last player listed on a cell wins it.  When
    no listed player stands where the guarded write throws (inside the
    grid at a row coordinate that is no integer), the per-tick update
    runs to its end on a board of the server's shape; it only rewrites the
    board and the scores.  A cell on which no listed player stands keeps
    its owner, and a cell on which listed players stand is owned
    afterwards by the color of the one that comes last in
    [gameState.players].  A player outside the grid, or at a column
    coordinate that is no integer, stands on no cell and claims
    nothing. *)
Theorem updateGame_last_claim_wins (s : Server) (ra : nat) (r : Room) (ps : list Player) :
  roomHeap s !! ra = Some r →
  boardShape (board (gameState r)) →
  playersAt (playerHeap s) (gsPlayers (gameState r)) = Some ps →
  Forall (fun p => claimable (position p)) ps →
  ∃ s' r',
    updateGame ra s = Some s' ∧
    roomHeap s' !! ra = Some r' ∧
    players r' = players r ∧
    gsPlayers (gameState r') = gsPlayers (gameState r) ∧
    chatMessages (gameState r') = chatMessages (gameState r) ∧
    (∀ cx cy, Forall (fun p => ¬ standsOn (position p) cx cy) ps →
       cellAt (board (gameState r')) cx cy = cellAt (board (gameState r)) cx cy) ∧
    (∀ i p cx cy, ps !! i = Some p → standsOn (position p) cx cy →
       (∀ j q, (i < j)%nat → ps !! j = Some q → ¬ standsOn (position q) cx cy) →
       cellAt (board (gameState r')) cx cy = Some (color p)).
Proof.
  intros Hr Hb Hps Hsafe.
  assert (Hra : (ra < length (roomHeap s))%nat) by (by eapply lookup_lt_Some).
  destruct (updateGameLoop_defined_at (gsPlayers (gameState r)) (board (gameState r))
              (playerHeap s) ps Hb Hps Hsafe) as [[b' heap'] Hloop].
  pose proof (updateGameLoop_board _ _ _ _ _ _ Hloop (claimsOf_playersAt _ _ _ Hps)) as Hcl.
  destruct (claimEach_cells _ _ _ Hcl) as [Ha Hlast].
  set (r' := setGameState (setBoard b' (gameState r)) r).
  exists (setPlayerHeap heap' (writeRoom ra r' s)), r'. split_and!; try done.
  - unfold updateGame. rewrite Hr. cbn [mbind option_bind]. by rewrite Hloop.
  - cbn [roomHeap setPlayerHeap writeRoom setRoomHeap]. by apply list_lookup_insert_eq.
  - intros cx cy Hall. apply (Ha cx cy).
    rewrite Forall_fmap. eapply Forall_impl; [exact Hall|]. done.
  - intros i p cx cy Hi Hst Hlater.
    apply (Hlast i (position p) (color p) cx cy); [|done|].
    + rewrite list_lookup_fmap, Hi. done.
    + intros j q c' Hj Hlook. rewrite list_lookup_fmap in Hlook.
      destruct (ps !! j) as [pj|] eqn:Hpj; [|done]. injection Hlook as <- <-.
      by eapply Hlater.
Qed.

Lemma updateGame_last_claim_wins_witness :
  ∃ s' r',
    updateGame 0 twoListed = Some s' ∧
    roomHeap s' !! 0%nat = Some r' ∧
    cellAt (board (gameState r')) 10 0 = Some "#ABCDEF" ∧
    cellAt (board (gameState r')) 11 0 = Some "".
Proof.
  destruct (updateGame_last_claim_wins twoListed 0 (roomAt twoListed 0)
              (listedPlayers twoListed 0))
    as (s' & r' & H1 & H2 & _ & _ & _ & Hkeep & Hlast).
  - vm_compute. reflexivity.
  - compute_done.
  - vm_compute. reflexivity.
  - compute_done.
  - exists s', r'. split; [exact H1|]. split; [exact H2|]. split.
    + apply (Hlast 1%nat (playerAt twoListed 1) 10 0).
      * vm_compute. reflexivity.
      * compute_done.
      * intros j q Hj Hq. destruct j as [|[|j]]; [lia|lia|].
        vm_compute in Hq. discriminate Hq.
    + rewrite (Hkeep 11 0); [vm_compute; reflexivity|]. compute_done.
Defined.

Lemma cellWrite_again (b : Board) (cx cy : Z) (c : string) (b1 : Board) :
  cellWrite b cx cy c = Some b1 → cellWrite b1 cx cy c = Some b1.
Proof.
  unfold cellWrite. intros H. case_decide as Hp; [|done].
  bind_inv H row Hrow. case_decide as Hx; [|done]. injection H as <-.
  rewrite list_lookup_insert_eq by (by eapply lookup_lt_Some).
  cbn [mbind option_bind]. rewrite decide_True by (by rewrite length_insert).
  by rewrite !list_insert_insert_eq.
Qed.

Lemma boardWrite_again (b : Board) (p : Position) (c : string) (b1 : Board) :
  boardWrite b p c = Some b1 → boardWrite b1 p c = Some b1.
Proof.
  unfold boardWrite. intros H.
  destruct (toIndex (py p)) as [cy|]; [|done].
  destruct (toIndex (px p)) as [cx|].
  - exact (cellWrite_again _ _ _ _ _ H).
  - case_decide; [|done]. bind_inv H row Hrow. injection H as <-.
    by rewrite Hrow.
Qed.

(** Claiming a cell a second time with the same color changes nothing. *)
Lemma claimCell_again (b : Board) (p : Position) (c : string) (b1 : Board) :
  claimCell b p c = Some b1 → claimCell b1 p c = Some b1.
Proof.
  unfold claimCell. destruct (isValidPosition p).
  - intros H. exact (boardWrite_again _ _ _ _ H).
  - by intros [= <-].
Qed.

Lemma updateGameLoop_app (l1 l2 : list nat) (st : Board * list Player) :
  updateGameLoop (l1 ++ l2) st = updateGameLoop l1 st ≫= updateGameLoop l2.
Proof.
  revert st. induction l1 as [|a l1 IH]; intros st; [done|].
  cbn [app updateGameLoop]. destruct (updateGameStep st a) as [st1|]; [|done].
  cbn [mbind option_bind]. apply IH.
Qed.

(** X6. The player listed last is scored on the board the tick ends with:
    when no listed player stands where the guarded write throws, the
    update returns and the score of the last one is exactly the number of
    cells that carry its color. *)
Theorem updateGame_last_score_exact (s : Server) (ra : nat) (r : Room)
    (refs : list nat) (a : nat) (ps : list Player) :
  roomHeap s !! ra = Some r →
  boardShape (board (gameState r)) →
  gsPlayers (gameState r) = refs ++ [a] →
  playersAt (playerHeap s) (gsPlayers (gameState r)) = Some ps →
  Forall (fun p => claimable (position p)) ps →
  ∃ s' r' p',
    updateGame ra s = Some s' ∧
    roomHeap s' !! ra = Some r' ∧
    playerHeap s' !! a = Some p' ∧
    score p' = countPlayerSquares (board (gameState r')) (color p').
Proof.
  intros Hr Hb Hrefs Hps Hsafe.
  assert (Hra : (ra < length (roomHeap s))%nat) by (by eapply lookup_lt_Some).
  destruct (updateGameLoop_defined_at (gsPlayers (gameState r)) (board (gameState r))
              (playerHeap s) ps Hb Hps Hsafe) as [[b' heap'] Hloop].
  rewrite Hrefs, updateGameLoop_app in Hloop.
  bind_inv Hloop st0 Hst0. destruct st0 as [b0 heap0].
  cbn [updateGameLoop] in Hloop. bind_inv Hloop st1 Hstep. injection Hloop as ->.
  unfold updateGameStep in Hstep. cbn [fst snd] in Hstep.
  bind_inv Hstep p Hp. bind_inv Hstep b1 Hb1. injection Hstep as <- <-.
  set (p1 := setScore (countPlayerSquares b1 (color p)) p).
  set (r' := setGameState (setBoard b1 (gameState r)) r).
  exists (setPlayerHeap (<[a := p1]> heap0) (writeRoom ra r' s)), r', p1.
  split_and!.
  - unfold updateGame. rewrite Hr. cbn [mbind option_bind].
    rewrite Hrefs, updateGameLoop_app, Hst0. cbn [mbind option_bind updateGameLoop].
    unfold updateGameStep. cbn [fst snd]. rewrite Hp. cbn [mbind option_bind].
    rewrite Hb1. reflexivity.
  - cbn [roomHeap setPlayerHeap writeRoom setRoomHeap]. by apply list_lookup_insert_eq.
  - cbn [playerHeap setPlayerHeap].
    apply list_lookup_insert_eq. by eapply lookup_lt_Some.
  - reflexivity.
Qed.

Lemma updateGame_last_score_exact_witness :
  ∃ s' r' p',
    updateGame 0 twoListed = Some s' ∧
    roomHeap s' !! 0%nat = Some r' ∧
    playerHeap s' !! 1%nat = Some p' ∧
    score p' = countPlayerSquares (board (gameState r')) (color p').
Proof.
  apply (updateGame_last_score_exact twoListed 0 (roomAt twoListed 0)
           [0%nat] 1 (listedPlayers twoListed 0)).
  - vm_compute. reflexivity.
  - compute_done.
  - vm_compute. reflexivity.
  - vm_compute. reflexivity.
  - compute_done.
Defined.

(** X7. With one player in [gameState.players], who does not stand where
    the guarded write throws, the tick is a recomputation: the player's
    score afterwards is exactly the number of cells of its color, and
    running the update again on the result changes nothing. *)
Theorem updateGame_single_idempotent (s : Server) (ra : nat) (r : Room)
    (a : nat) (p : Player) :
  roomHeap s !! ra = Some r →
  boardShape (board (gameState r)) →
  gsPlayers (gameState r) = [a] →
  playerHeap s !! a = Some p →
  claimable (position p) →
  ∃ s' r' p',
    updateGame ra s = Some s' ∧
    roomHeap s' !! ra = Some r' ∧
    playerHeap s' !! a = Some p' ∧
    score p' = countPlayerSquares (board (gameState r')) (color p') ∧
    updateGame ra s' = Some s'.
Proof.
  intros Hr Hb Hrefs Hp Hsafe.
  assert (Hra : (ra < length (roomHeap s))%nat) by (by eapply lookup_lt_Some).
  assert (Hpa : (a < length (playerHeap s))%nat) by (by eapply lookup_lt_Some).
  assert (Hdef : is_Some (claimCell (board (gameState r)) (position p) (color p))).
  { unfold claimCell. destruct (isValidPosition (position p)) eqn:Hv; [|by eexists].
    apply boardWrite_defined; [done|done|]. by apply Hsafe. }
  destruct Hdef as [b1 Hb1].
  set (p1 := setScore (countPlayerSquares b1 (color p)) p).
  set (r' := setGameState (setBoard b1 (gameState r)) r).
  set (s' := setPlayerHeap (<[a := p1]> (playerHeap s)) (writeRoom ra r' s)).
  assert (Hr' : roomHeap s' !! ra = Some r').
  { cbn [s' roomHeap setPlayerHeap writeRoom setRoomHeap]. by apply list_lookup_insert_eq. }
  assert (Hp1 : playerHeap s' !! a = Some p1).
  { cbn [s' playerHeap setPlayerHeap]. by apply list_lookup_insert_eq. }
  exists s', r', p1. split_and!; try done.
  - unfold updateGame. rewrite Hr. cbn [mbind option_bind]. rewrite Hrefs.
    cbn [updateGameLoop]. unfold updateGameStep. cbn [fst snd]. rewrite Hp.
    cbn [mbind option_bind]. rewrite Hb1. reflexivity.
  - unfold updateGame. rewrite Hr'. cbn [mbind option_bind].
    change (gsPlayers (gameState r')) with (gsPlayers (gameState r)). rewrite Hrefs.
    change (board (gameState r')) with b1.
    cbn [updateGameLoop]. unfold updateGameStep. cbn [fst snd]. rewrite Hp1.
    cbn [mbind option_bind].
    change (position p1) with (position p). change (color p1) with (color p).
    rewrite (claimCell_again _ _ _ _ Hb1). cbn [mbind option_bind fst snd].
    f_equal.
    assert (Hpp : setScore (countPlayerSquares b1 (color p)) p1 = p1) by done.
    assert (Hrr : setGameState (setBoard b1 (gameState r')) r' = r') by done.
    rewrite Hpp, Hrr.
    unfold s', setPlayerHeap, writeRoom, setRoomHeap.
    cbn [rooms playerMap roomHeap playerHeap intervals sent].
    by rewrite !list_insert_insert_eq.
Qed.

Lemma updateGame_single_idempotent_witness :
  ∃ s' r' p',
    updateGame 0 (stateAfter [Open 1 1000 aliceEntropy]) = Some s' ∧
    roomHeap s' !! 0%nat = Some r' ∧
    playerHeap s' !! 0%nat = Some p' ∧
    score p' = countPlayerSquares (board (gameState r')) (color p') ∧
    updateGame 0 s' = Some s'.
Proof.
  apply (updateGame_single_idempotent (stateAfter [Open 1 1000 aliceEntropy]) 0
           (mkRoom "room-1" [("alice", 0%nat)]
              (mkGameState createBoard [0%nat] []) gameDuration 1000)
           0
           (setTargetPosition (mkPosition 10 0)
              (setPosition (mkPosition 10 0)
                 (setRoom (Some 0%nat) (createPlayer 1 aliceEntropy))))).
  - reflexivity.
  - compute_done.
  - reflexivity.
  - reflexivity.
  - compute_done.
Defined.

(** ** The timer callback and the end of the game *)

(** The loop of [updateGame] changes players in their score only. *)
Lemma updateGameLoop_modScore (refs : list nat) (b : Board) (heap : list Player)
    (b' : Board) (heap' : list Player) :
  updateGameLoop refs (b, heap) = Some (b', heap') →
  map (setScore 0) heap' = map (setScore 0) heap.
Proof.
  revert b heap. induction refs as [|a refs IH]; intros b heap; cbn [updateGameLoop].
  - by intros [= <- <-].
  - intros H. bind_inv H st1 Hstep. unfold updateGameStep in Hstep. cbn [fst snd] in Hstep.
    bind_inv Hstep p Hp. bind_inv Hstep b1 Hb1. injection Hstep as <-.
    rewrite (IH _ _ H). rewrite list_fmap_insert. apply list_insert_id.
    rewrite list_lookup_fmap, Hp. reflexivity.
Qed.

Lemma socketsOf_modScore (heap heap' : list Player) (members : list (string * nat)) :
  map (setScore 0) heap' = map (setScore 0) heap →
  socketsOf heap' members = socketsOf heap members.
Proof.
  intros Hm. unfold socketsOf.
  assert (H : ∀ a, socket <$> heap' !! a = socket <$> heap !! a).
  { intros a.
    assert (Hl : map (setScore 0) heap' !! a = map (setScore 0) heap !! a) by (by rewrite Hm).
    rewrite !list_lookup_fmap in Hl.
    destruct (heap' !! a) as [p'|], (heap !! a) as [p|]; try done.
    assert (Hq : setScore 0 p' = setScore 0 p).
    { apply (inj Some). exact Hl. }
    cbn [fmap option_fmap option_map]. f_equal.
    change (socket (setScore 0 p') = socket (setScore 0 p)). by rewrite Hq. }
  induction members as [|[k a] members IH]; [done|].
  cbn [mapM snd]. rewrite H, IH. done.
Qed.

Lemma playerData_playersAt (heap : list Player) (refs : list nat) (ps : list Player) :
  playersAt heap refs = Some ps →
  mapM (fun a => playerData <$> heap !! a) refs = Some (map playerData ps).
Proof.
  revert ps. induction refs as [|a refs IH]; intros ps.
  - by intros [= <-].
  - intros (p & ps1 & Hp & Hps & ->)%playersAt_cons.
    cbn [mapM]. rewrite Hp. cbn [fmap option_fmap option_map mbind option_bind].
    rewrite (IH _ Hps). reflexivity.
Qed.

Lemma playersAt_modScore_defined (heap heap' : list Player) (refs : list nat)
    (ps : list Player) :
  map (setScore 0) heap' = map (setScore 0) heap →
  playersAt heap refs = Some ps → is_Some (playersAt heap' refs).
Proof.
  intros Hm Hps. apply playersAt_defined.
  assert (Hlen : length heap' = length heap).
  { by rewrite <- (length_map (setScore 0) heap'), Hm, length_map. }
  rewrite Hlen. by eapply playersAt_live.
Qed.

(** What one firing of the timer does when the update returns, step by
    step: the per-tick update; then, when no time remains, [endGame] and [clearInterval];
    then, in either case, the snapshot. *)
Lemma intervalCallback_outcome (s : Server) (ra : nat) (r : Room) (ps : list Player)
    (now : Z) :
  roomHeap s !! ra = Some r →
  boardShape (board (gameState r)) →
  playersAt (playerHeap s) (gsPlayers (gameState r)) = Some ps →
  Forall (fun p => claimable (position p)) ps →
  membersLive (playerHeap s) (players r) →
  ∃ s1 r1 ps1 socks s',
    updateGame ra s = Some s1 ∧
    roomHeap s1 !! ra = Some r1 ∧
    playersAt (playerHeap s1) (gsPlayers (gameState r1)) = Some ps1 ∧
    socketsOf (playerHeap s) (players r) = Some socks ∧
    intervalCallback ra now s = Some s' ∧
    playerHeap s' = playerHeap s1 ∧ roomHeap s' = roomHeap s1 ∧
    playerMap s' = playerMap s ∧
    let remainingTime := duration r - (now - startTime r) in
    let snapshot :=
      gameStateSnapshot (board (gameState r1)) (map playerData ps1)
                        (chatMessages (gameState r)) (remainingTime / 1000) in
    if decide (remainingTime ≤ 0)
    then rooms s' = mapDelete (roomId r) (rooms s) ∧
         intervals s' = clearInterval ra (intervals s) ∧
         sent s' = sent s
                   ++ map (fun sk => (sk, gameOver (playerData <$> endGameWinner ps1))) socks
                   ++ map (fun sk => (sk, snapshot)) socks
    else rooms s' = rooms s ∧
         intervals s' = intervals s ∧
         sent s' = sent s ++ map (fun sk => (sk, snapshot)) socks.
Proof.
  intros Hr Hb Hps Hsafe Hl.
  assert (Hra : (ra < length (roomHeap s))%nat) by (by eapply lookup_lt_Some).
  destruct (updateGameLoop_defined_at (gsPlayers (gameState r)) (board (gameState r))
              (playerHeap s) ps Hb Hps Hsafe) as [[b' heap'] Hloop].
  pose proof (updateGameLoop_modScore _ _ _ _ _ Hloop) as Hmod.
  set (r1 := setGameState (setBoard b' (gameState r)) r).
  set (s1 := setPlayerHeap heap' (writeRoom ra r1 s)).
  assert (Hs1 : updateGame ra s = Some s1).
  { unfold updateGame. rewrite Hr. cbn [mbind option_bind]. by rewrite Hloop. }
  assert (Hr1 : roomHeap s1 !! ra = Some r1).
  { cbn [s1 roomHeap setPlayerHeap writeRoom setRoomHeap]. by apply list_lookup_insert_eq. }
  destruct (playersAt_modScore_defined _ _ _ _ Hmod Hps) as [ps1 Hps1].
  destruct (socketsOf_defined _ _ Hl) as [socks Hsocks].
  assert (Hsocks1 : socketsOf heap' (players r) = Some socks).
  { by rewrite (socketsOf_modScore _ _ _ Hmod). }
  set (remainingTime := duration r - (now - startTime r)).
  set (snapshot := gameStateSnapshot (board (gameState r1)) (map playerData ps1)
                     (chatMessages (gameState r)) (remainingTime / 1000)).
  assert (Hsnap : ∀ s2, roomHeap s2 = roomHeap s1 → playerHeap s2 = playerHeap s1 →
            broadcastGameState ra remainingTime s2
            = Some (setSent (sent s2 ++ map (fun sk => (sk, snapshot)) socks) s2)).
  { intros s2 Hrh Hph. unfold broadcastGameState. rewrite Hrh, Hr1, Hph.
    cbn [mbind option_bind].
    change (playerHeap s1) with heap'.
    change (gsPlayers (gameState r1)) with (gsPlayers (gameState r)).
    rewrite (playerData_playersAt _ _ _ Hps1). cbn [mbind option_bind].
    change (players r1) with (players r). rewrite Hsocks1. reflexivity. }
  assert (Hcb : intervalCallback ra now s =
            s2 ← (if decide (remainingTime ≤ 0)
                  then s' ← endGame ra s1;
                       Some (setIntervals (clearInterval ra (intervals s')) s')
                  else Some s1);
            broadcastGameState ra remainingTime s2).
  { unfold intervalCallback. rewrite Hs1. cbn [mbind option_bind].
    rewrite Hr1. reflexivity. }
  destruct (decide (remainingTime ≤ 0)) as [Hend|Hrun].
  - assert (Hend1 : endGame ra s1 =
              Some (setRooms (mapDelete (roomId r) (rooms s))
                      (setSent (sent s ++ map (fun sk =>
                                  (sk, gameOver (playerData <$> endGameWinner ps1))) socks)
                         s1))).
    { unfold endGame. rewrite Hr1. cbn [mbind option_bind].
      unfold playersAt in Hps1.
      change (gsPlayers (gameState r1)) with (gsPlayers (gameState r)) in *.
      change (playerHeap s1) with heap' in *.
      rewrite Hps1. cbn [mbind option_bind].
      unfold broadcastMessage. rewrite Hr1. cbn [mbind option_bind].
      change (players r1) with (players r). change (playerHeap s1) with heap'.
      rewrite Hsocks1. reflexivity. }
    set (sE := setRooms (mapDelete (roomId r) (rooms s))
                 (setSent (sent s ++ map (fun sk =>
                             (sk, gameOver (playerData <$> endGameWinner ps1))) socks)
                    s1)) in *.
    set (s2 := setIntervals (clearInterval ra (intervals sE)) sE).
    exists s1, r1, ps1, socks,
      (setSent (sent s2 ++ map (fun sk => (sk, snapshot)) socks) s2).
    split; [exact Hs1|]. split; [exact Hr1|]. split; [exact Hps1|].
    split; [exact Hsocks|]. split.
    { rewrite Hcb, Hend1. cbn [mbind option_bind]. fold s2. by apply Hsnap. }
    split; [reflexivity|]. split; [reflexivity|]. split; [reflexivity|].
    cbv zeta. fold remainingTime. rewrite decide_True by done.
    split_and!; [reflexivity|reflexivity|].
    cbn [sent setSent setIntervals setRooms s2 sE]. by rewrite <- app_assoc.
  - exists s1, r1, ps1, socks,
      (setSent (sent s1 ++ map (fun sk => (sk, snapshot)) socks) s1).
    split; [exact Hs1|]. split; [exact Hr1|]. split; [exact Hps1|].
    split; [exact Hsocks|]. split.
    { rewrite Hcb. cbn [mbind option_bind]. by apply Hsnap. }
    split; [reflexivity|]. split; [reflexivity|]. split; [reflexivity|].
    cbv zeta. fold remainingTime. rewrite decide_False by done.
    split_and!; reflexivity.
Qed.

(** X8. While time remains, and no listed player stands where the guarded
    write throws (inside the grid at a row coordinate that is no
    integer), a firing of the timer applies the per-tick update and sends
    every member of the room exactly one [gameState] snapshot: the board
    and the listed players as the update left them, the chat log, and as
    [remaining] the whole seconds left (not negative); the directory and
    the timers stay as they are. *)
Theorem tick_before_deadline (s : Server) (ra : nat) (r : Room) (ps : list Player)
    (now : Z) :
  roomHeap s !! ra = Some r →
  boardShape (board (gameState r)) →
  playersAt (playerHeap s) (gsPlayers (gameState r)) = Some ps →
  Forall (fun p => claimable (position p)) ps →
  membersLive (playerHeap s) (players r) →
  now < startTime r + duration r →
  ∃ s1 r1 ps1 s' socks,
    updateGame ra s = Some s1 ∧
    roomHeap s1 !! ra = Some r1 ∧
    playersAt (playerHeap s1) (gsPlayers (gameState r1)) = Some ps1 ∧
    intervalCallback ra now s = Some s' ∧
    socketsOf (playerHeap s) (players r) = Some socks ∧
    playerHeap s' = playerHeap s1 ∧ roomHeap s' = roomHeap s1 ∧
    playerMap s' = playerMap s ∧ rooms s' = rooms s ∧ intervals s' = intervals s ∧
    0 ≤ (duration r - (now - startTime r)) / 1000 ∧
    sent s' = sent s ++
      map (fun sk => (sk, gameStateSnapshot (board (gameState r1)) (map playerData ps1)
                            (chatMessages (gameState r))
                            ((duration r - (now - startTime r)) / 1000))) socks.
Proof.
  intros Hr Hb Hps Hsafe Hl Hnow.
  destruct (intervalCallback_outcome s ra r ps now Hr Hb Hps Hsafe Hl)
    as (s1 & r1 & ps1 & socks & s' & H1 & H2 & H3 & H4 & H5 & H6 & H7 & H8 & H9).
  cbv zeta in H9. rewrite decide_False in H9 by lia.
  destruct H9 as (H9 & H10 & H11).
  exists s1, r1, ps1, s', socks.
  split_and!; try done. apply Z.div_pos; lia.
Qed.

Lemma tick_before_deadline_witness :
  ∃ s', intervalCallback 0 1600 aliceAndBob = Some s' ∧
        rooms s' = rooms aliceAndBob ∧ intervals s' = intervals aliceAndBob ∧
        length (sent s') = (length (sent aliceAndBob) + 2)%nat.
Proof.
  destruct (tick_before_deadline aliceAndBob 0 (roomAt aliceAndBob 0)
              (listedPlayers aliceAndBob 0) 1600)
    as (s1 & r1 & ps1 & s' & socks & _ & _ & _ & H2 & H3 & _ & _ & _ & H7 & H8 & _ & H10).
  - vm_compute. reflexivity.
  - compute_done.
  - vm_compute. reflexivity.
  - compute_done.
  - compute_done.
  - vm_compute. reflexivity.
  - exists s'. split; [exact H2|]. split; [exact H7|]. split; [exact H8|].
    rewrite H10, length_app, length_map. f_equal.
    assert (Hs : socketsOf (playerHeap aliceAndBob) (players (roomAt aliceAndBob 0))
                 = Some [1%nat; 2%nat]) by (vm_compute; reflexivity).
    rewrite Hs in H3. by injection H3 as <-.
Defined.

(** X9. When no time remains, and no listed player stands where the
    guarded write throws, a firing of the timer still applies the
    per-tick update, then ends the game: every member of the room is sent
    one [gameOver] and after it one last [gameState] snapshot whose
    [remaining] is not positive; the winner named is the first entry of
    [gameState.players] with the highest score after the update, and
    nobody exactly when that list is empty; the room's id is no longer in
    the directory and this timer is cleared. *)
Theorem tick_at_deadline (s : Server) (ra : nat) (r : Room) (ps : list Player)
    (now : Z) :
  roomHeap s !! ra = Some r →
  boardShape (board (gameState r)) →
  playersAt (playerHeap s) (gsPlayers (gameState r)) = Some ps →
  Forall (fun p => claimable (position p)) ps →
  membersLive (playerHeap s) (players r) →
  startTime r + duration r ≤ now →
  ∃ s1 r1 ps1 s' socks,
    updateGame ra s = Some s1 ∧
    roomHeap s1 !! ra = Some r1 ∧
    playersAt (playerHeap s1) (gsPlayers (gameState r1)) = Some ps1 ∧
    intervalCallback ra now s = Some s' ∧
    socketsOf (playerHeap s) (players r) = Some socks ∧
    playerHeap s' = playerHeap s1 ∧ roomHeap s' = roomHeap s1 ∧
    playerMap s' = playerMap s ∧
    rooms s' = mapDelete (roomId r) (rooms s) ∧
    mapGet (roomId r) (rooms s') = None ∧
    intervals s' = clearInterval ra (intervals s) ∧
    (duration r - (now - startTime r)) / 1000 ≤ 0 ∧
    sent s' = sent s
      ++ map (fun sk => (sk, gameOver (playerData <$> endGameWinner ps1))) socks
      ++ map (fun sk => (sk, gameStateSnapshot (board (gameState r1)) (map playerData ps1)
                               (chatMessages (gameState r))
                               ((duration r - (now - startTime r)) / 1000))) socks ∧
    match endGameWinner ps1 with
    | None => ps1 = []
    | Some w =>
        ∃ i, ps1 !! i = Some w ∧
             (∀ p, p ∈ ps1 → score p ≤ score w) ∧
             (∀ j p, (j < i)%nat → ps1 !! j = Some p → score p < score w)
    end.
Proof.
  intros Hr Hb Hps Hsafe Hl Hnow.
  destruct (intervalCallback_outcome s ra r ps now Hr Hb Hps Hsafe Hl)
    as (s1 & r1 & ps1 & socks & s' & H1 & H2 & H3 & H4 & H5 & H6 & H7 & H8 & H9).
  cbv zeta in H9. rewrite decide_True in H9 by lia.
  destruct H9 as (H9 & H10 & H11).
  exists s1, r1, ps1, s', socks.
  split_and!; try done.
  - rewrite H9. apply mapGet_mapDelete.
  - apply Z.div_le_upper_bound; lia.
  - apply endGameWinner_spec.
Qed.

Lemma tick_at_deadline_witness :
  ∃ s', intervalCallback 0 181000 aliceAndBob = Some s' ∧
        rooms s' = [] ∧ intervals s' = [] ∧
        length (sent s') = (length (sent aliceAndBob) + 4)%nat.
Proof.
  destruct (tick_at_deadline aliceAndBob 0 (roomAt aliceAndBob 0)
              (listedPlayers aliceAndBob 0) 181000)
    as (s1 & r1 & ps1 & s' & socks & _ & _ & _ & H4 & H5 & _ & _ & _
        & H9 & _ & H11 & _ & H13 & _).
  - vm_compute. reflexivity.
  - compute_done.
  - vm_compute. reflexivity.
  - compute_done.
  - compute_done.
  - vm_compute. discriminate.
  - exists s'. split; [exact H4|]. split; [exact H9|]. split; [exact H11|].
    rewrite H13, !length_app, !length_map.
    assert (Hs : socketsOf (playerHeap aliceAndBob) (players (roomAt aliceAndBob 0))
                 = Some [1%nat; 2%nat]) by (vm_compute; reflexivity).
    rewrite Hs in H5. injection H5 as <-. simpl. lia.
Defined.

(** ** Messages, leaving and closed sockets *)

(** X10. A [chat] message appends exactly one line, the sender's name, a
    colon and the text, at the end of the room's chat log (an absent text
    is logged as [undefined]) and sends one [chat] event to every member
    of the room, the sender included; the board, the sessions and the
    earlier lines stay as they are. *)
Theorem processMessage_chat (s : Server) (pa : nat) (player : Player) (ra : nat)
    (r : Room) (message : Message) (digits : list nat) :
  playerHeap s !! pa = Some player →
  room player = Some ra →
  roomHeap s !! ra = Some r →
  membersLive (playerHeap s) (players r) →
  msgType message = Some "chat" →
  ∃ s' r' socks,
    processMessage pa (jObject message) digits s = Some s' ∧
    roomHeap s' !! ra = Some r' ∧
    socketsOf (playerHeap s) (players r) = Some socks ∧
    chatMessages (gameState r') =
      chatMessages (gameState r)
      ++ [name player +:+ ": " +:+ default "undefined" (msgChatMessage message)] ∧
    board (gameState r') = board (gameState r) ∧
    gsPlayers (gameState r') = gsPlayers (gameState r) ∧
    players r' = players r ∧
    playerHeap s' = playerHeap s ∧
    rooms s' = rooms s ∧ intervals s' = intervals s ∧
    (∀ ra2, ra2 ≠ ra → roomHeap s' !! ra2 = roomHeap s !! ra2) ∧
    sent s' = sent s ++
      map (fun sk => (sk, chat (id player) (name player) (msgChatMessage message))) socks.
Proof.
  intros Hp Hroom Hr Hl Ht.
  assert (Hra : (ra < length (roomHeap s))%nat) by (by eapply lookup_lt_Some).
  set (line := name player +:+ ": " +:+ templateText (msgChatMessage message)).
  set (r' := setGameState
               (setChatMessages (chatMessages (gameState r) ++ [line]) (gameState r)) r).
  destruct (broadcastMessage_defined ra
              (chat (id player) (name player) (msgChatMessage message))
              (writeRoom ra r' s) r') as (socks & Hs & Hb).
  { cbn [roomHeap writeRoom setRoomHeap]. by apply list_lookup_insert_eq. }
  { exact Hl. }
  eexists _, r', socks. split_and!.
  - unfold processMessage. rewrite Hp. cbn [mbind option_bind fieldsOf].
    rewrite Hroom, Ht.
    rewrite decide_False by done. rewrite decide_False by done.
    rewrite decide_False by done. rewrite decide_True by done.
    rewrite Hr. cbn [mbind option_bind]. exact Hb.
  - cbn [roomHeap setSent writeRoom setRoomHeap]. by apply list_lookup_insert_eq.
  - exact Hs.
  - reflexivity.
  - reflexivity.
  - reflexivity.
  - reflexivity.
  - reflexivity.
  - reflexivity.
  - reflexivity.
  - intros ra2 Hne. cbn [roomHeap setSent writeRoom setRoomHeap].
    by apply list_lookup_insert_ne.
  - reflexivity.
Qed.

Lemma processMessage_chat_witness :
  ∃ s' r',
    processMessage 1 (jObject (mkMessage (Some "chat") None None None (Some "hello"))) []
      aliceAndBob = Some s' ∧
    roomHeap s' !! 0%nat = Some r' ∧
    chatMessages (gameState r') = [": hello"] ∧
    sent s' = sent aliceAndBob ++
      [(1%nat, chat "bob" "" (Some "hello")); (2%nat, chat "bob" "" (Some "hello"))].
Proof.
  destruct (processMessage_chat aliceAndBob 1
              (default (createPlayer 2 bobEntropy) (playerHeap aliceAndBob !! 1%nat))
              0 (roomAt aliceAndBob 0)
              (mkMessage (Some "chat") None None None (Some "hello")) [])
    as (s' & r' & socks & H1 & H2 & H3 & H4 & _ & _ & _ & _ & _ & _ & _ & H12).
  - vm_compute. reflexivity.
  - vm_compute. reflexivity.
  - vm_compute. reflexivity.
  - compute_done.
  - reflexivity.
  - exists s', r'. split; [exact H1|]. split; [exact H2|]. split; [exact H4|].
    assert (Hs : socketsOf (playerHeap aliceAndBob) (players (roomAt aliceAndBob 0))
                 = Some [1%nat; 2%nat]) by (vm_compute; reflexivity).
    rewrite Hs in H3. injection H3 as <-. exact H12.
Defined.

(** X11. A [join] message sets the player's name (the empty string when the
    message has none) and re-rolls its color; it sends nothing and leaves
    every room, the board included, as it was, so the cells claimed under
    the old color keep that color. *)
Theorem processMessage_join (s : Server) (pa : nat) (player : Player) (ra : nat)
    (message : Message) (digits : list nat) :
  playerHeap s !! pa = Some player →
  room player = Some ra →
  msgType message = Some "join" →
  ∃ s' player',
    processMessage pa (jObject message) digits s = Some s' ∧
    playerHeap s' !! pa = Some player' ∧
    name player' = default "" (msgName message) ∧
    color player' = getRandomColor digits ∧
    id player' = id player ∧ score player' = score player ∧
    position player' = position player ∧
    targetPosition player' = targetPosition player ∧
    socket player' = socket player ∧ room player' = room player ∧
    (∀ a, a ≠ pa → playerHeap s' !! a = playerHeap s !! a) ∧
    roomHeap s' = roomHeap s ∧ rooms s' = rooms s ∧
    intervals s' = intervals s ∧ sent s' = sent s.
Proof.
  intros Hp Hroom Ht.
  assert (Hpa : (pa < length (playerHeap s))%nat) by (by eapply lookup_lt_Some).
  eexists _, _. split_and!.
  - unfold processMessage. rewrite Hp. cbn [mbind option_bind fieldsOf].
    rewrite Hroom, Ht.
    rewrite decide_True by done. reflexivity.
  - cbn [playerHeap writePlayer setPlayerHeap]. by apply list_lookup_insert_eq.
  - reflexivity.
  - reflexivity.
  - reflexivity.
  - reflexivity.
  - reflexivity.
  - reflexivity.
  - reflexivity.
  - reflexivity.
  - intros a Hne. cbn [playerHeap writePlayer setPlayerHeap].
    by apply list_lookup_insert_ne.
  - reflexivity.
  - reflexivity.
  - reflexivity.
  - reflexivity.
Qed.

Lemma processMessage_join_witness :
  ∃ s' player',
    processMessage 1 (jObject (mkMessage (Some "join") (Some "Bob") None None None))
      [0; 1; 2; 3; 4; 5]%nat aliceAndBob = Some s' ∧
    playerHeap s' !! 1%nat = Some player' ∧
    name player' = "Bob" ∧ color player' = "#012345" ∧
    roomHeap s' = roomHeap aliceAndBob ∧ sent s' = sent aliceAndBob.
Proof.
  destruct (processMessage_join aliceAndBob 1
              (default (createPlayer 2 bobEntropy) (playerHeap aliceAndBob !! 1%nat))
              0 (mkMessage (Some "join") (Some "Bob") None None None)
              [0; 1; 2; 3; 4; 5]%nat)
    as (s' & p' & H1 & H2 & H3 & H4 & _ & _ & _ & _ & _ & _ & _ & H12 & _ & _ & H15).
  - vm_compute. reflexivity.
  - vm_compute. reflexivity.
  - reflexivity.
  - exists s', p'. split; [exact H1|]. split; [exact H2|]. split; [exact H3|].
    split; [exact H4|]. split; [exact H12|exact H15].
Defined.

(** X12. Leaving is final and safe to repeat: after [leaveRoom] the player's
    room reference is [null], and a second [leaveRoom] for the same
    player changes nothing. *)
Theorem leaveRoom_twice (s s' : Server) (pa : nat) :
  leaveRoom pa s = Some s' →
  (∃ player', playerHeap s' !! pa = Some player' ∧ room player' = None) ∧
  leaveRoom pa s' = Some s'.
Proof.
  unfold leaveRoom at 1. intros H. bind_inv H p Hp.
  assert (Hpa : (pa < length (playerHeap s))%nat) by (by eapply lookup_lt_Some).
  destruct (room p) as [ra|] eqn:Hroom.
  - bind_inv H r Hr.
    assert (Hafter : playerHeap s' !! pa = Some (setRoom None p)).
    { case_decide; injection H as <-;
        cbn [playerHeap setRooms writePlayer setPlayerHeap writeRoom setRoomHeap];
        by apply list_lookup_insert_eq. }
    split; [by eexists|].
    unfold leaveRoom. rewrite Hafter. reflexivity.
  - injection H as <-. split; [by exists p|].
    unfold leaveRoom. rewrite Hp. cbn [mbind option_bind]. by rewrite Hroom.
Qed.

Lemma leaveRoom_twice_witness :
  ∃ s', leaveRoom 0 aliceAndBob = Some s' ∧ leaveRoom 0 s' = Some s'.
Proof.
  exists (default initialServer (leaveRoom 0 aliceAndBob)).
  assert (H : leaveRoom 0 aliceAndBob
              = Some (default initialServer (leaveRoom 0 aliceAndBob))).
  { vm_compute. reflexivity. }
  split; [exact H|]. exact (proj2 (leaveRoom_twice _ _ _ H)).
Defined.

(** X13. Once a socket has closed, its player is out of [playerMap]; the
    message handler still runs [JSON.parse] first, so on that socket a
    frame that is no JSON text throws, and every frame that parses,
    [null] included, changes nothing; a second close changes nothing
    either. *)
Theorem closed_socket_is_ignored (s s' : Server) (sock : nat) :
  onclose sock s = Some s' →
  mapGet sock (playerMap s') = None ∧
  (∀ frame digits,
     onmessage sock frame digits s' =
       match JSON_parse frame with Some _ => Some s' | None => None end) ∧
  onclose sock s' = Some s'.
Proof.
  unfold onclose at 1. intros H.
  assert (Hgone : mapGet sock (playerMap s') = None).
  { destruct (mapGet sock (playerMap s)) as [pa|] eqn:Hm.
    - bind_inv H s1 Hs1. injection H as <-.
      cbn [playerMap setPlayerMap]. apply mapGet_mapDelete.
    - by injection H as <-. }
  split; [done|]. split.
  - intros [|v] digits; unfold onmessage; cbn [JSON_parse mbind option_bind]; [done|].
    by rewrite Hgone.
  - unfold onclose. by rewrite Hgone.
Qed.

Lemma closed_socket_is_ignored_witness :
  ∃ s', onclose 1 aliceAndBob = Some s' ∧
        onmessage 1 (jsonFrame (jObject (moveMessage "up" 5))) [] s' = Some s' ∧
        onmessage 1 (jsonFrame jNull) [] s' = Some s' ∧
        onmessage 1 badFrame [] s' = None ∧
        onclose 1 s' = Some s'.
Proof.
  exists (default initialServer (onclose 1 aliceAndBob)).
  assert (H : onclose 1 aliceAndBob
              = Some (default initialServer (onclose 1 aliceAndBob))).
  { vm_compute. reflexivity. }
  destruct (closed_socket_is_ignored _ _ _ H) as (_ & H2 & H3).
  split; [exact H|]. split; [apply (H2 (jsonFrame _))|].
  split; [apply (H2 (jsonFrame _))|]. split; [apply (H2 badFrame)|exact H3].
Defined.

(** ** The links between the directory, the rooms and the players *)

(** *** Small facts about maps and timers *)

Lemma mapSet_nonempty {K V} `{EqDecision K} (k : K) (v : V) (m : list (K * V)) :
  mapSet k v m ≠ [].
Proof.
  destruct m as [|[k' v'] m]; cbn [mapSet]; [done|]. by case_decide.
Qed.

Lemma mapSet_empty_length {K V} `{EqDecision K} (k : K) (v : V) :
  length (mapSet k v []) = 1%nat.
Proof. reflexivity. Qed.

Lemma clearInterval_elem_ne (ra x : nat) (timers : list nat) :
  x ∈ timers → x ≠ ra → x ∈ clearInterval ra timers.
Proof.
  induction timers as [|t timers IH]; cbn [clearInterval]; [done|].
  intros [->|Hin]%elem_of_cons Hne.
  - rewrite decide_False by done. by left.
  - case_decide; [done|]. right. by apply IH.
Qed.

(** *** The invariant on the linking structure *)

Lemma dirExceptV_weaken (ex : option nat) (v : Links) :
  dirExceptV None v → dirExceptV ex v.
Proof.
  destruct v as [[[R T] RS] PS]. intros H k ra Hin.
  destruct (H k ra Hin) as (m & Hm & Hok). exists m. split; [done|].
  intros _. by apply Hok.
Qed.

(** The deadline: the directory loses the room's id, the timer stops. *)
Lemma linkedV_expire R T RS PS (ra : nat) (k : string) m :
  dirExceptV None (R, T, RS, PS) →
  RS !! ra = Some (k, m) →
  dirExceptV None (mapDelete k R, clearInterval ra T, RS, PS).
Proof.
  intros Hd Hra k' ra' [Hin Hne]%mapDelete_elem. cbn [fst] in Hne.
  destruct (Hd k' ra' Hin) as (m' & Hm' & Hok). exists m'. split; [done|].
  intros _. destruct (Hok ltac:(done)) as [Hne' HT]. split; [done|].
  apply clearInterval_elem_ne; [done|]. intros ->. congruence.
Qed.

(** More timers do no harm. *)
Lemma dirExceptV_timers ex R T T' RS PS :
  (∀ x, x ∈ T → x ∈ T') →
  dirExceptV ex (R, T, RS, PS) → dirExceptV ex (R, T', RS, PS).
Proof.
  intros Hsub Hd k ra Hin. destruct (Hd k ra Hin) as (m & Hm & Hok).
  exists m. split; [done|]. intros Hex. destruct (Hok Hex). split; [done|]. by apply Hsub.
Qed.

(** A new player object. *)
Lemma membersV_alloc R T RS PS x :
  membersV (R, T, RS, PS) → membersV (R, T, RS, PS ++ [x]).
Proof.
  intros Hm ra k m i a Hra Hin. apply lookup_app_l_Some. by eapply Hm.
Qed.

(** A new, empty room object, entered in the directory. *)
Lemma linkedV_createRoom R T RS PS (newId : string) :
  dirExceptV None (R, T, RS, PS) → membersV (R, T, RS, PS) →
  dirExceptV (Some (length RS))
    (mapSet newId (length RS) R, T, RS ++ [(newId, [])], PS) ∧
  membersV (mapSet newId (length RS) R, T, RS ++ [(newId, [])], PS).
Proof.
  intros Hd Hm. split.
  - intros k ra [Heq|Hin]%mapSet_values.
    + injection Heq as -> ->. exists []. split; [|done].
      rewrite lookup_app_r by done. by rewrite Nat.sub_diag.
    + destruct (Hd k ra Hin) as (m & Hra & Hok). exists m. split.
      * by apply lookup_app_l_Some.
      * intros _. by apply Hok.
  - intros ra k m i a Hra Hin.
    destruct (decide (ra < length RS)%nat) as [Hlt|Hge].
    + rewrite lookup_app_l in Hra by done. by eapply Hm.
    + rewrite lookup_app_r in Hra by lia.
      destruct (ra - length RS)%nat as [|n] eqn:Hn; cbn in Hra; [|done].
      injection Hra as <- <-. by apply elem_of_nil in Hin.
Qed.

(** A player without a room joins room [ra], which is either empty or
    has its timer running. *)
Lemma linkedV_joinRoom R T RS PS (ra pa : nat) (k i : string) m :
  dirExceptV (Some ra) (R, T, RS, PS) → membersV (R, T, RS, PS) →
  RS !! ra = Some (k, m) →
  m = [] ∨ ra ∈ T →
  PS !! pa = Some (i, None) →
  dirExceptV None
    (R, (if decide (length (mapSet i pa m) = 1%nat) then T ++ [ra] else T),
     <[ra := (k, mapSet i pa m)]> RS, <[pa := (i, Some ra)]> PS) ∧
  membersV
    (R, (if decide (length (mapSet i pa m) = 1%nat) then T ++ [ra] else T),
     <[ra := (k, mapSet i pa m)]> RS, <[pa := (i, Some ra)]> PS).
Proof.
  intros Hd Hm Hra Hstart Hpa.
  assert (Hlra : (ra < length RS)%nat) by (by eapply lookup_lt_Some).
  assert (Hlpa : (pa < length PS)%nat) by (by eapply lookup_lt_Some).
  split.
  - intros k' ra' Hin. destruct (Hd k' ra' Hin) as (m' & Hra' & Hok).
    destruct (decide (ra' = ra)) as [->|Hne].
    + exists (mapSet i pa m). assert (k' = k) as -> by congruence.
      split; [by apply list_lookup_insert_eq|]. intros _. split; [apply mapSet_nonempty|].
      case_decide as Hlen.
      * apply elem_of_app. right. by left.
      * destruct Hstart as [->|HT]; [|done]. by rewrite mapSet_empty_length in Hlen.
    + exists m'. split; [by rewrite list_lookup_insert_ne|]. intros _.
      destruct (Hok ltac:(congruence)) as [? HT]. split; [done|].
      case_decide; [|done]. apply elem_of_app. by left.
  - intros ra2 k2 m2 i2 a Hra2 Hin.
    assert (Hold : ∀ rb kb mb, RS !! rb = Some (kb, mb) → (i2, a) ∈ mb →
                   <[pa := (i, Some ra)]> PS !! a = Some (i2, Some rb)).
    { intros rb kb mb Hrb Hinb. pose proof (Hm rb kb mb i2 a Hrb Hinb) as Ha.
      rewrite list_lookup_insert_ne; [done|]. intros ->. congruence. }
    destruct (decide (ra2 = ra)) as [->|Hne].
    + rewrite list_lookup_insert_eq in Hra2 by done. injection Hra2 as <- <-.
      apply mapSet_values in Hin as [Heq|Hin].
      * injection Heq as -> ->. by apply list_lookup_insert_eq.
      * by eapply Hold.
    + rewrite list_lookup_insert_ne in Hra2 by done. by eapply Hold.
Qed.

(** A player leaves its room; the directory loses the room's id when no
    session is left. *)
Lemma linkedV_leaveRoom R T RS PS (ra pa : nat) (k i : string) m :
  dirExceptV None (R, T, RS, PS) → membersV (R, T, RS, PS) →
  RS !! ra = Some (k, m) →
  PS !! pa = Some (i, Some ra) →
  dirExceptV None
    ((if decide (length (mapDelete i m) = 0%nat) then mapDelete k R else R), T,
     <[ra := (k, mapDelete i m)]> RS, <[pa := (i, None)]> PS) ∧
  membersV
    ((if decide (length (mapDelete i m) = 0%nat) then mapDelete k R else R), T,
     <[ra := (k, mapDelete i m)]> RS, <[pa := (i, None)]> PS).
Proof.
  intros Hd Hm Hra Hpa.
  assert (Hlra : (ra < length RS)%nat) by (by eapply lookup_lt_Some).
  split.
  - intros k' ra' Hin.
    assert (Hin0 : (k', ra') ∈ R).
    { case_decide; [|done]. by apply mapDelete_elem in Hin as [? _]. }
    destruct (Hd k' ra' Hin0) as (m' & Hra' & Hok).
    destruct (Hok ltac:(done)) as [Hne HT].
    destruct (decide (ra' = ra)) as [->|Hnra].
    + assert (k' = k) as -> by congruence.
      exists (mapDelete i m). split; [by apply list_lookup_insert_eq|]. intros _.
      split; [|done]. case_decide as Hlen.
      * apply mapDelete_elem in Hin as [_ Hk]. by cbn [fst] in Hk.
      * intros Hnil. by rewrite Hnil in Hlen.
    + exists m'. split; [by rewrite list_lookup_insert_ne|]. done.
  - intros ra2 k2 m2 i2 a Hra2 Hin.
    destruct (decide (ra2 = ra)) as [->|Hne].
    + rewrite list_lookup_insert_eq in Hra2 by done. injection Hra2 as <- <-.
      apply mapDelete_elem in Hin as [Hin Hi]. cbn [fst] in Hi.
      pose proof (Hm ra k m i2 a Hra Hin) as Ha.
      rewrite list_lookup_insert_ne; [done|]. intros ->. congruence.
    + rewrite list_lookup_insert_ne in Hra2 by done.
      pose proof (Hm ra2 k2 m2 i2 a Hra2 Hin) as Ha.
      rewrite list_lookup_insert_ne; [done|]. intros ->. congruence.
Qed.

(** *** What each function does to the links *)

Lemma links_setSent (s : Server) log : links (setSent log s) = links s.
Proof. reflexivity. Qed.

Lemma links_writeRoom (s : Server) (ra : nat) (r r' : Room) :
  roomHeap s !! ra = Some r → roster r' = roster r →
  links (writeRoom ra r' s) = links s.
Proof.
  intros Hr Heq. unfold links. cbn [rooms intervals roomHeap playerHeap writeRoom setRoomHeap].
  rewrite list_fmap_insert, Heq, list_insert_id; [done|].
  by rewrite list_lookup_fmap, Hr.
Qed.

Lemma links_writePlayer (s : Server) (pa : nat) (p p' : Player) :
  playerHeap s !! pa = Some p → role p' = role p →
  links (writePlayer pa p' s) = links s.
Proof.
  intros Hp Heq. unfold links.
  cbn [rooms intervals roomHeap playerHeap writePlayer setPlayerHeap].
  rewrite list_fmap_insert, Heq, list_insert_id; [done|].
  by rewrite list_lookup_fmap, Hp.
Qed.

Lemma broadcastMessage_links (ra : nat) (msg : BroadcastMessage) (s s' : Server) :
  broadcastMessage ra msg s = Some s' → links s' = links s.
Proof. intros (r & socks & _ & _ & ->)%broadcastMessage_inv. reflexivity. Qed.

Lemma broadcastGameState_links (ra : nat) (t : Z) (s s' : Server) :
  broadcastGameState ra t s = Some s' → links s' = links s.
Proof.
  unfold broadcastGameState. intros H. bind_inv H r Hr. bind_inv H pd Hpd.
  bind_inv H socks Hs. by injection H as <-.
Qed.

Lemma claimInitialTerritory_links (ra pa : nat) (s s' : Server) :
  claimInitialTerritory ra pa s = Some s' → links s' = links s.
Proof.
  unfold claimInitialTerritory. intros H. bind_inv H r Hr. bind_inv H p Hp.
  bind_inv H b' Hb. injection H as <-. by eapply links_writeRoom.
Qed.

Lemma role_modScore (heap heap' : list Player) :
  map (setScore 0) heap' = map (setScore 0) heap → map role heap' = map role heap.
Proof.
  intros H.
  assert (Hr : ∀ l, map role l = map role (map (setScore 0) l)).
  { intros l. rewrite map_map. reflexivity. }
  by rewrite (Hr heap'), (Hr heap), H.
Qed.

Lemma updateGame_links (ra : nat) (s s' : Server) :
  updateGame ra s = Some s' → links s' = links s.
Proof.
  unfold updateGame. intros H. bind_inv H r Hr. bind_inv H st Hst. injection H as <-.
  destruct st as [b' heap'].
  pose proof (updateGameLoop_modScore _ _ _ _ _ Hst) as Hm.
  pose proof (links_writeRoom s ra r (setGameState (setBoard b' (gameState r)) r) Hr eq_refl)
    as Hl.
  unfold links in *.
  cbn [rooms intervals roomHeap playerHeap writeRoom setRoomHeap setPlayerHeap fst snd] in *.
  injection Hl as Hl. by rewrite Hl, (role_modScore _ _ Hm).
Qed.

Lemma intervalCallback_links (ra : nat) (now : Z) (s s' : Server) :
  intervalCallback ra now s = Some s' →
  ∃ r, roomHeap s !! ra = Some r ∧
    ((¬ duration r - (now - startTime r) ≤ 0 ∧ links s' = links s) ∨
     (duration r - (now - startTime r) ≤ 0 ∧
      links s' = (mapDelete (roomId r) (rooms s), clearInterval ra (intervals s),
                  map roster (roomHeap s), map role (playerHeap s)))).
Proof.
  unfold intervalCallback. intros H. bind_inv H s1 Hs1.
  pose proof (updateGame_links _ _ _ Hs1) as Hl1.
  bind_inv H r1 Hr1. bind_inv H s2 Hs2.
  apply broadcastGameState_links in H.
  assert (Hr : ∃ r, roomHeap s !! ra = Some r ∧ roomId r = roomId r1 ∧
                    duration r = duration r1 ∧ startTime r = startTime r1).
  { unfold updateGame in Hs1. bind_inv Hs1 r Hr. bind_inv Hs1 st Hst.
    injection Hs1 as <-. exists r. split; [done|].
    cbn [roomHeap setPlayerHeap writeRoom setRoomHeap] in Hr1.
    rewrite list_lookup_insert_eq in Hr1 by (by eapply lookup_lt_Some).
    by injection Hr1 as <-. }
  destruct Hr as (r & Hr & Hid & Hd & Ht). exists r. split; [done|].
  rewrite Hid, Hd, Ht. case_decide as Hrem.
  - right. split; [done|]. bind_inv Hs2 s3 Hs3. injection Hs2 as <-.
    unfold endGame in Hs3. bind_inv Hs3 r1' Hr1'. bind_inv Hs3 ps Hps.
    bind_inv Hs3 s4 Hs4. injection Hs3 as <-.
    apply broadcastMessage_links in Hs4.
    assert (r1' = r1) as -> by congruence.
    rewrite H. unfold links in *.
    cbn [rooms intervals roomHeap playerHeap setIntervals setRooms] in *.
    injection Hs4 as -> -> -> ->. injection Hl1 as -> -> -> ->. reflexivity.
  - left. split; [done|]. injection Hs2 as <-. by rewrite H.
Qed.

Lemma startGameLoop_role (spawn : nat → Z * Z) (i : nat) (members : list (string * nat))
    (st st' : list Player * list nat) :
  startGameLoop spawn i members st = Some st' → map role st'.1 = map role st.1.
Proof.
  revert i st. induction members as [|[k a] members IH]; intros i st; cbn [startGameLoop].
  - by intros [= <-].
  - intros H. bind_inv H p Hp. rewrite (IH _ _ H). cbn [fst].
    rewrite list_fmap_insert. apply list_insert_id.
    by rewrite list_lookup_fmap, Hp.
Qed.

Lemma startGame_links (ra : nat) (now : Z) (spawn : nat → Z * Z) (s s' : Server) :
  startGame ra now spawn s = Some s' →
  links s' = (rooms s, intervals s ++ [ra], map roster (roomHeap s), map role (playerHeap s)).
Proof.
  unfold startGame. intros H. bind_inv H r Hr. bind_inv H st Hst. injection H as <-.
  pose proof (startGameLoop_role _ _ _ _ _ Hst) as Hrole. cbn [fst] in Hrole.
  unfold links.
  cbn [rooms intervals roomHeap playerHeap setIntervals setPlayerHeap writeRoom setRoomHeap].
  rewrite Hrole. rewrite list_fmap_insert, list_insert_id; [done|].
  by rewrite list_lookup_fmap, Hr.
Qed.

Lemma joinRoom_links (pa ra : nat) (now : Z) (spawn : nat → Z * Z) (s s' : Server) :
  joinRoom pa ra now spawn s = Some s' →
  ∃ p r, playerHeap s !! pa = Some p ∧ roomHeap s !! ra = Some r ∧
    links s' =
      (rooms s,
       (if decide (length (mapSet (id p) pa (players r)) = 1%nat)
        then intervals s ++ [ra] else intervals s),
       <[ra := (roomId r, mapSet (id p) pa (players r))]> (map roster (roomHeap s)),
       <[pa := (id p, Some ra)]> (map role (playerHeap s))).
Proof.
  unfold joinRoom. intros H. bind_inv H p Hp. bind_inv H r Hr. exists p, r.
  split; [done|]. split; [done|].
  assert (Hlpa : (pa < length (playerHeap s))%nat) by (by eapply lookup_lt_Some).
  assert (Hlra : (ra < length (roomHeap s))%nat) by (by eapply lookup_lt_Some).
  cbv zeta in H.
  set (s1 := writeRoom ra (setPlayers (mapSet (id p) pa (players r)) r)
               (writePlayer pa (setRoom (Some ra) p) s)) in H.
  assert (Hl1 : links s1 =
    (rooms s, intervals s,
     <[ra := (roomId r, mapSet (id p) pa (players r))]> (map roster (roomHeap s)),
     <[pa := (id p, Some ra)]> (map role (playerHeap s)))).
  { unfold links, s1.
    cbn [rooms intervals roomHeap playerHeap writeRoom setRoomHeap writePlayer setPlayerHeap].
    by rewrite !list_fmap_insert. }
  assert (Hp1 : playerHeap s1 !! pa = Some (setRoom (Some ra) p)).
  { unfold s1. cbn [playerHeap writeRoom setRoomHeap writePlayer setPlayerHeap].
    by apply list_lookup_insert_eq. }
  change (length (players (setPlayers (mapSet (id p) pa (players r)) r)))
    with (length (mapSet (id p) pa (players r))) in H.
  clearbody s1. case_decide as Hlen.
  - apply startGame_links in H. rewrite H.
    change (rooms s1, intervals s1 ++ [ra], map roster (roomHeap s1),
            map role (playerHeap s1))
      with ((links s1).1.1.1, (links s1).1.1.2 ++ [ra], (links s1).1.2, (links s1).2).
    by rewrite Hl1.
  - bind_inv H s3 Hs3. apply broadcastMessage_links in H.
    apply claimInitialTerritory_links in Hs3. rewrite H, Hs3.
    erewrite links_writePlayer; [exact Hl1|exact Hp1|reflexivity].
Qed.

Lemma leaveRoom_links (pa : nat) (s s' : Server) :
  leaveRoom pa s = Some s' →
  ∃ p, playerHeap s !! pa = Some p ∧
    ((room p = None ∧ s' = s) ∨
     ∃ ra r, room p = Some ra ∧ roomHeap s !! ra = Some r ∧
       links s' =
         ((if decide (length (mapDelete (id p) (players r)) = 0%nat)
           then mapDelete (roomId r) (rooms s) else rooms s),
          intervals s,
          <[ra := (roomId r, mapDelete (id p) (players r))]> (map roster (roomHeap s)),
          <[pa := (id p, None)]> (map role (playerHeap s)))).
Proof.
  unfold leaveRoom. intros H. bind_inv H p Hp. exists p. split; [done|].
  destruct (room p) as [ra|] eqn:Hroom.
  - right. bind_inv H r Hr. exists ra, r. split; [done|]. split; [done|].
    cbv zeta in H.
    change (length (players (setPlayers (mapDelete (id p) (players r)) r)))
      with (length (mapDelete (id p) (players r))) in H.
    case_decide; injection H as <-; unfold links;
      cbn [rooms intervals roomHeap playerHeap setRooms writeRoom setRoomHeap
           writePlayer setPlayerHeap];
      by rewrite !list_fmap_insert.
  - left. by injection H as <-.
Qed.

Lemma processMessage_links (pa : nat) (parsed : JsonValue) (digits : list nat)
    (s s' : Server) :
  processMessage pa parsed digits s = Some s' → links s' = links s.
Proof.
  unfold processMessage. intros H. bind_inv H p Hp.
  destruct (room p) as [ra|] eqn:Hroom; [|by injection H as <-].
  bind_inv H message Hmsg.
  repeat case_decide.
  - injection H as <-. by eapply links_writePlayer.
  - apply broadcastMessage_links in H. rewrite H. by eapply links_writePlayer.
  - injection H as <-. by eapply links_writePlayer.
  - bind_inv H r Hr. apply broadcastMessage_links in H. rewrite H.
    by eapply links_writeRoom.
  - by injection H as <-.
Qed.

(** *** The handlers keep the links *)

Lemma linked_links (s s' : Server) : links s' = links s → linked s → linked s'.
Proof. unfold linked. by intros ->. Qed.

Lemma lookup_roster (s : Server) (ra : nat) (r : Room) :
  roomHeap s !! ra = Some r → map roster (roomHeap s) !! ra = Some (roomId r, players r).
Proof. intros Hr. by rewrite list_lookup_fmap, Hr. Qed.

Lemma lookup_role (s : Server) (pa : nat) (p : Player) :
  playerHeap s !! pa = Some p → map role (playerHeap s) !! pa = Some (id p, room p).
Proof. intros Hp. by rewrite list_lookup_fmap, Hp. Qed.

Lemma intervalCallback_linked (ra : nat) (now : Z) (s s' : Server) :
  linked s → intervalCallback ra now s = Some s' → linked s'.
Proof.
  intros [Hd Hm] (r & Hr & [[_ Hl]|[_ Hl]])%intervalCallback_links.
  - by eapply linked_links.
  - unfold linked. rewrite Hl. split; [|exact Hm].
    eapply linkedV_expire; [exact Hd|]. by apply lookup_roster.
Qed.

Lemma leaveRoom_linked (pa : nat) (s s' : Server) :
  linked s → leaveRoom pa s = Some s' → linked s'.
Proof.
  intros [Hd Hm] (p & Hp & [[_ ->]|(ra & r & Hroom & Hr & Hl)])%leaveRoom_links; [done|].
  unfold linked. rewrite Hl. apply linkedV_leaveRoom.
  - exact Hd.
  - exact Hm.
  - by apply lookup_roster.
  - rewrite <- Hroom. by apply lookup_role.
Qed.

Lemma onclose_linked (sock : nat) (s s' : Server) :
  linked s → onclose sock s = Some s' → linked s'.
Proof.
  intros Hl. unfold onclose. destruct (mapGet sock (playerMap s)) as [pa|].
  - intros H. bind_inv H s1 Hs1. injection H as <-.
    by apply (leaveRoom_linked pa s s1).
  - by intros [= <-].
Qed.

Lemma onmessage_linked (sock : nat) (frame : Frame) (digits : list nat)
    (s s' : Server) :
  linked s → onmessage sock frame digits s = Some s' → linked s'.
Proof.
  intros Hl. unfold onmessage. intros H. bind_inv H parsed Hparsed.
  destruct (mapGet sock (playerMap s)) as [pa|].
  - apply processMessage_links in H. by eapply linked_links.
  - by injection H as <-.
Qed.

Lemma onopen_linked (sock : nat) (now : Z) (e : Entropy) (s s' : Server) :
  linked s → onopen sock now e s = Some s' → linked s'.
Proof.
  intros [Hd Hm]. unfold onopen. cbv zeta.
  set (s1 := setPlayerMap (mapSet sock (length (playerHeap s)) (playerMap s))
               (setPlayerHeap (playerHeap s ++ [createPlayer sock e]) s)).
  intros H. bind_inv H x Hx. destruct x as [ra s2].
  assert (Hl1 : links s1 = (rooms s, intervals s, map roster (roomHeap s),
                            map role (playerHeap s) ++ [(newPlayerId e, None)])).
  { unfold links, s1.
    cbn [rooms intervals roomHeap playerHeap setPlayerMap setPlayerHeap].
    by rewrite map_app. }
  assert (Hd1 : dirExceptV None (links s1)) by (rewrite Hl1; exact Hd).
  assert (Hm1 : membersV (links s1)) by (rewrite Hl1; by apply membersV_alloc).
  assert (Hpa : playerHeap s1 !! length (playerHeap s) = Some (createPlayer sock e)).
  { unfold s1. cbn [playerHeap setPlayerMap setPlayerHeap].
    rewrite lookup_app_r by done. by rewrite Nat.sub_diag. }
  assert (Hrh : roomHeap s1 = roomHeap s) by reflexivity.
  clearbody s1.
  unfold findOrCreateRoom in Hx. bind_inv Hx found Hf. destruct found as [ra0|].
  - injection Hx as <- <-. destruct (findRoom_found _ _ _ Hf) as (k & r & Hin & Hr & _).
    apply joinRoom_links in H as (p & r' & Hp & Hr' & Hl).
    assert (p = createPlayer sock e) as -> by congruence.
    unfold linked. rewrite Hl. apply linkedV_joinRoom.
    + by apply dirExceptV_weaken.
    + exact Hm1.
    + by apply lookup_roster.
    + right. destruct (Hd1 k ra0 Hin) as (m & _ & Hok). by apply Hok.
    + by apply (lookup_role s1).
  - injection Hx as <- <-.
    apply joinRoom_links in H as (p & r' & Hp & Hr' & Hl).
    cbn [playerHeap roomHeap rooms intervals createRoom setRooms setRoomHeap fst snd] in *.
    assert (p = createPlayer sock e) as -> by congruence.
    rewrite lookup_app_r in Hr' by done. rewrite Nat.sub_diag in Hr'.
    injection Hr' as <-.
    unfold linked. rewrite Hl.
    cbn [roomId players id createPlayer].
    rewrite map_app. cbn [map roster roomId players].
    destruct (linkedV_createRoom (rooms s1) (intervals s1) (map roster (roomHeap s1))
                (map role (playerHeap s1)) (newRoomId e) Hd1 Hm1) as [Hd2 Hm2].
    rewrite length_map in Hd2, Hm2.
    apply linkedV_joinRoom.
    + exact Hd2.
    + exact Hm2.
    + rewrite lookup_app_r by (by rewrite length_map).
      by rewrite length_map, Nat.sub_diag.
    + by left.
    + by apply (lookup_role s1 _ (createPlayer sock e)).
Qed.

Lemma handleEvent_linked (ev : Event) (s s' : Server) :
  linked s → handleEvent ev s = Some s' → linked s'.
Proof.
  intros Hl. destruct ev as [sock now e|sock message digits|sock|ra now]; cbn [handleEvent].
  - by apply onopen_linked.
  - by apply onmessage_linked.
  - by apply onclose_linked.
  - case_decide; [|done]. by apply intervalCallback_linked.
Qed.

Lemma run_linked (evs : list Event) (s s' : Server) :
  linked s → run evs s = Some s' → linked s'.
Proof.
  revert s. induction evs as [|ev evs IH]; intros s Hl; cbn [run].
  - by intros [= <-].
  - intros H. bind_inv H s1 Hs1. eapply IH; [|exact H]. by eapply handleEvent_linked.
Qed.

Lemma reachable_linked (s : Server) : reachable s → linked s.
Proof.
  intros [evs Hrun]. eapply run_linked; [|exact Hrun].
  split.
  - intros k ra Hin. by apply elem_of_nil in Hin.
  - intros ra k m i a Hra. done.
Qed.

(** X14. In every state the server can reach, each entry of the [rooms]
    directory names a room object that carries this id, that has at least
    one session, and whose timer is running. *)
Theorem directory_rooms_live (s : Server) :
  reachable s →
  ∀ k ra, (k, ra) ∈ rooms s →
    ∃ r, roomHeap s !! ra = Some r ∧ roomId r = k ∧ players r ≠ [] ∧ ra ∈ intervals s.
Proof.
  intros [Hd _]%reachable_linked k ra Hin.
  destruct (Hd k ra Hin) as (m & Hm & Hok).
  rewrite list_lookup_fmap in Hm.
  destruct (roomHeap s !! ra) as [r|]; [|done].
  injection Hm as <- <-. exists r. destruct (Hok ltac:(done)). done.
Qed.

Lemma directory_rooms_live_witness :
  ∃ r, roomHeap aliceAndBob !! 0%nat = Some r ∧ roomId r = "room-1" ∧
       players r ≠ [] ∧ 0%nat ∈ intervals aliceAndBob.
Proof.
  apply (directory_rooms_live aliceAndBob).
  - exists [Open 1 1000 aliceEntropy; Open 2 1500 bobEntropy]. vm_compute. reflexivity.
  - compute_done.
Defined.

(** X15. In every state the server can reach, each session of a room is
    filed under its player's id, and that player's room reference is
    this very room; so no player is a session of two rooms. *)
Theorem sessions_point_back (s : Server) :
  reachable s →
  (∀ ra r k a, roomHeap s !! ra = Some r → (k, a) ∈ players r →
     ∃ q, playerHeap s !! a = Some q ∧ id q = k ∧ room q = Some ra) ∧
  (∀ ra1 ra2 r1 r2 k1 k2 a,
     roomHeap s !! ra1 = Some r1 → roomHeap s !! ra2 = Some r2 →
     (k1, a) ∈ players r1 → (k2, a) ∈ players r2 → ra1 = ra2).
Proof.
  intros [_ Hm]%reachable_linked.
  assert (Hback : ∀ ra r k a, roomHeap s !! ra = Some r → (k, a) ∈ players r →
                    ∃ q, playerHeap s !! a = Some q ∧ id q = k ∧ room q = Some ra).
  { intros ra r k a Hr Hin.
    pose proof (Hm ra (roomId r) (players r) k a (lookup_roster s ra r Hr) Hin) as Ha.
    rewrite list_lookup_fmap in Ha.
    destruct (playerHeap s !! a) as [q|]; [|done].
    injection Ha as <- Hroom. by exists q. }
  split; [exact Hback|].
  intros ra1 ra2 r1 r2 k1 k2 a Hr1 Hr2 Hin1 Hin2.
  destruct (Hback _ _ _ _ Hr1 Hin1) as (q1 & Hq1 & _ & Hroom1).
  destruct (Hback _ _ _ _ Hr2 Hin2) as (q2 & Hq2 & _ & Hroom2).
  congruence.
Qed.

Lemma sessions_point_back_witness :
  ∃ q, playerHeap aliceAndBob !! 1%nat = Some q ∧ id q = "bob" ∧ room q = Some 0%nat.
Proof.
  destruct (sessions_point_back aliceAndBob) as [H _].
  - exists [Open 1 1000 aliceEntropy; Open 2 1500 bobEntropy]. vm_compute. reflexivity.
  - apply (H 0%nat (roomAt aliceAndBob 0) "bob" 1%nat).
    + vm_compute. reflexivity.
    + compute_done.
Defined.

(** *** Timers *)

Lemma links_intervals (s : Server) (v : Links) : links s = v → intervals s = v.1.1.2.
Proof. by intros <-. Qed.

(** X16. A running timer is stopped by nothing but its own callback at or
    after the deadline: connections, messages, closing sockets (the last
    one of the room included) and the ticks of other rooms leave it
    running. *)
Theorem timer_runs_until_deadline (ev : Event) (s s' : Server) (ra : nat) :
  handleEvent ev s = Some s' →
  ra ∈ intervals s →
  ra ∈ intervals s' ∨
  ∃ now r, ev = Tick ra now ∧ roomHeap s !! ra = Some r ∧
           startTime r + duration r ≤ now.
Proof.
  intros H Hin. destruct ev as [sock now e|sock message digits|sock|ra' now];
    cbn [handleEvent] in H.
  - left. unfold onopen in H. cbv zeta in H. bind_inv H x Hx. destruct x as [rb s2].
    assert (Hi2 : intervals s2 = intervals s).
    { unfold findOrCreateRoom in Hx. bind_inv Hx found Hf.
      destruct found; by injection Hx as <- <-. }
    apply joinRoom_links in H as (p & r & _ & _ & Hl).
    apply links_intervals in Hl. cbn [fst snd] in Hl. rewrite Hl, Hi2.
    case_decide; [|done]. apply elem_of_app. by left.
  - left. unfold onmessage in H. bind_inv H parsed Hparsed.
    destruct (mapGet sock (playerMap s)).
    + apply processMessage_links, links_intervals in H. by rewrite H.
    + by injection H as <-.
  - left. unfold onclose in H. destruct (mapGet sock (playerMap s)) as [pa|].
    + bind_inv H s1 Hs1. injection H as <-. cbn [intervals setPlayerMap].
      apply leaveRoom_links in Hs1 as (p & _ & [[_ ->]|(rb & r & _ & _ & Hl)]); [done|].
      apply links_intervals in Hl. by rewrite Hl.
    + by injection H as <-.
  - case_decide; [|done].
    apply intervalCallback_links in H as (r & Hr & [[_ Hl]|[Hrem Hl]]).
    + left. apply links_intervals in Hl. by rewrite Hl.
    + apply links_intervals in Hl. cbn [fst snd] in Hl.
      destruct (decide (ra = ra')) as [->|Hne].
      * right. exists now, r. split; [done|]. split; [done|]. lia.
      * left. rewrite Hl. by apply clearInterval_elem_ne.
Qed.

Lemma timer_runs_until_deadline_witness :
  0%nat ∈ intervals (stateAfter [Open 1 1000 aliceEntropy; Close 1]).
Proof.
  destruct (timer_runs_until_deadline (Close 1) (stateAfter [Open 1 1000 aliceEntropy])
              (stateAfter [Open 1 1000 aliceEntropy; Close 1]) 0) as [H|H].
  - vm_compute. reflexivity.
  - compute_done.
  - exact H.
  - destruct H as (now & r & Hev & _). discriminate Hev.
Defined.

(** ** Scores stay within the board, players stay at rest *)

Lemma countPlayerSquares_bounds (b : Board) (c : string) :
  boardShape b → 0 ≤ countPlayerSquares b c ≤ boardSize * boardSize.
Proof.
  intros Hb. rewrite countPlayerSquares_owned. split; [lia|].
  pose proof (ownedBy_le_cells [c] b) as H.
  unfold ownedBy in H. cbn [map sum_list] in H.
  rewrite Nat.add_0_r in H. apply H; [|done].
  apply NoDup_singleton.
Qed.

Lemma restExcept_insert (ex : option nat) (heap : list Player) (a : nat) (p p' : Player) :
  restExcept ex heap → heap !! a = Some p →
  0 ≤ score p' ≤ boardSize * boardSize →
  (position p = targetPosition p → position p' = targetPosition p') →
  restExcept ex (<[a := p']> heap).
Proof.
  intros Hrest Hp Hs Hpos a' q Hq. destruct (decide (a' = a)) as [->|Hne].
  - rewrite list_lookup_insert_eq in Hq by (by eapply lookup_lt_Some).
    injection Hq as <-. split; [done|]. intros Hex. apply Hpos.
    by apply (Hrest a p Hp).
  - rewrite list_lookup_insert_ne in Hq by done. by apply Hrest.
Qed.

(** Writing a player at rest lifts the exception for its address. *)
Lemma restExcept_settle (heap : list Player) (a : nat) (p p' : Player) :
  restExcept (Some a) heap → heap !! a = Some p →
  0 ≤ score p' ≤ boardSize * boardSize →
  position p' = targetPosition p' →
  restExcept None (<[a := p']> heap).
Proof.
  intros Hrest Hp Hs Hpos a' q Hq. destruct (decide (a' = a)) as [->|Hne].
  - rewrite list_lookup_insert_eq in Hq by (by eapply lookup_lt_Some).
    by injection Hq as <-.
  - rewrite list_lookup_insert_ne in Hq by done.
    destruct (Hrest a' q Hq) as [Hsc Hr]. split; [done|]. intros _. apply Hr. congruence.
Qed.

Lemma updateGameLoop_rest (ex : option nat) (refs : list nat) (b : Board)
    (heap : list Player) (b' : Board) (heap' : list Player) :
  boardShape b →
  updateGameLoop refs (b, heap) = Some (b', heap') →
  restExcept ex heap → restExcept ex heap'.
Proof.
  revert b heap. induction refs as [|a refs IH]; intros b heap Hb; cbn [updateGameLoop].
  - by intros [= <- <-].
  - intros H Hrest. bind_inv H st1 Hstep. unfold updateGameStep in Hstep.
    cbn [fst snd] in Hstep. bind_inv Hstep p Hp. bind_inv Hstep b1 Hb1.
    injection Hstep as <-.
    assert (Hb1s : boardShape b1) by (by eapply claimCell_shape).
    eapply (IH b1); [done|exact H|].
    eapply restExcept_insert; [done|done| |done].
    by apply countPlayerSquares_bounds.
Qed.

Lemma startGameLoop_rest (ex : option nat) (spawn : nat → Z * Z) (i : nat)
    (members : list (string * nat)) (st st' : list Player * list nat) :
  startGameLoop spawn i members st = Some st' →
  restExcept ex st.1 → restExcept ex st'.1.
Proof.
  revert i st. induction members as [|[k a] members IH]; intros i st; cbn [startGameLoop].
  - by intros [= <-].
  - intros H Hrest. bind_inv H p Hp. apply (IH _ _ H). cbn [fst].
    eapply restExcept_insert; [done|done| |done].
    by apply (Hrest a p Hp).
Qed.

Lemma startGameLoop_settle (spawn : nat → Z * Z) (i : nat)
    (members : list (string * nat)) (st st' : list Player * list nat) (k : string) (a : nat) :
  startGameLoop spawn i members st = Some st' →
  (k, a) ∈ members →
  restExcept (Some a) st.1 → restExcept None st'.1.
Proof.
  revert i st. induction members as [|[k0 a0] members IH]; intros i st; cbn [startGameLoop].
  - intros _ Hin. by apply elem_of_nil in Hin.
  - intros H Hin Hrest. bind_inv H p Hp.
    apply elem_of_cons in Hin as [Heq|Hin].
    + injection Heq as <- <-. apply (startGameLoop_rest None _ _ _ _ _ H). cbn [fst].
      eapply restExcept_settle; [done|done| |done].
      by apply (Hrest a p Hp).
    + apply (IH _ _ H Hin). cbn [fst].
      eapply restExcept_insert; [done|done| |done].
      by apply (Hrest a0 p Hp).
Qed.

Lemma mapSet_elem {K V} `{EqDecision K} (k : K) (v : V) (m : list (K * V)) :
  (k, v) ∈ mapSet k v m.
Proof. apply mapGet_elem, mapGet_mapSet. Qed.

Lemma joinRoom_rest (pa ra : nat) (now : Z) (spawn : nat → Z * Z) (s s' : Server) :
  joinRoom pa ra now spawn s = Some s' →
  restExcept (Some pa) (playerHeap s) → restExcept None (playerHeap s').
Proof.
  unfold joinRoom. intros H Hrest. bind_inv H p Hp. bind_inv H r Hr. cbv zeta in H.
  assert (Hlpa : (pa < length (playerHeap s))%nat) by (by eapply lookup_lt_Some).
  assert (Hlra : (ra < length (roomHeap s))%nat) by (by eapply lookup_lt_Some).
  set (p1 := setRoom (Some ra) p) in H.
  assert (Hrest1 : restExcept (Some pa) (<[pa := p1]> (playerHeap s))).
  { eapply restExcept_insert; [done|done| |done]. by apply (Hrest pa p Hp). }
  assert (Hp1 : <[pa := p1]> (playerHeap s) !! pa = Some p1)
    by (by apply list_lookup_insert_eq).
  case_decide as Hlen.
  - unfold startGame in H. bind_inv H r1 Hr1. bind_inv H st Hst. injection H as <-.
    cbn [playerHeap setIntervals setPlayerHeap].
    cbn [roomHeap playerHeap writeRoom setRoomHeap writePlayer setPlayerHeap] in Hr1, Hst.
    rewrite list_lookup_insert_eq in Hr1 by done. injection Hr1 as <-.
    eapply (startGameLoop_settle _ _ _ _ _ (id p) pa Hst); [|exact Hrest1].
    apply mapSet_elem.
  - bind_inv H s3 Hs3. apply broadcastMessage_inv in H as (r3 & socks & _ & _ & ->).
    unfold claimInitialTerritory in Hs3. bind_inv Hs3 r2 Hr2. bind_inv Hs3 p2 Hp2.
    bind_inv Hs3 b' Hb'. injection Hs3 as <-.
    cbn [playerHeap setSent writeRoom setRoomHeap writePlayer setPlayerHeap].
    eapply restExcept_settle; [exact Hrest1|exact Hp1| |reflexivity].
    by apply (Hrest pa p Hp).
Qed.

Lemma leaveRoom_rest (pa : nat) (s s' : Server) :
  leaveRoom pa s = Some s' →
  restExcept None (playerHeap s) → restExcept None (playerHeap s').
Proof.
  unfold leaveRoom. intros H Hrest. bind_inv H p Hp.
  destruct (room p) as [ra|]; [|by injection H as <-].
  bind_inv H r Hr. cbv zeta in H.
  assert (restExcept None (<[pa := setRoom None p]> (playerHeap s))).
  { eapply restExcept_insert; [done|done| |done]. by apply (Hrest pa p Hp). }
  by case_decide; injection H as <-.
Qed.

Lemma processMessage_rest (pa : nat) (parsed : JsonValue) (digits : list nat)
    (s s' : Server) :
  processMessage pa parsed digits s = Some s' →
  restExcept None (playerHeap s) → restExcept None (playerHeap s').
Proof.
  unfold processMessage. intros H Hrest. bind_inv H p Hp.
  destruct (room p) as [ra|]; [|by injection H as <-].
  bind_inv H message Hmsg.
  pose proof (Hrest pa p Hp) as [Hsc Hpos].
  repeat case_decide.
  - injection H as <-. cbn [playerHeap writePlayer setPlayerHeap].
    by eapply restExcept_insert.
  - apply broadcastMessage_inv in H as (r & socks & _ & _ & ->).
    cbn [playerHeap setSent writePlayer setPlayerHeap].
    eapply restExcept_insert; [done|done|done|]. intros _.
    by destruct (updatePlayerPosition_target p (default "" (msgDirection message))
                   (default 0%Q (msgSpeed message))) as [-> _].
  - injection H as <-. cbn [playerHeap writePlayer setPlayerHeap].
    by eapply restExcept_insert.
  - bind_inv H r Hr. apply broadcastMessage_inv in H as (r' & socks & _ & _ & ->).
    exact Hrest.
  - by injection H as <-.
Qed.

Lemma broadcastGameState_playerHeap (ra : nat) (t : Z) (s s' : Server) :
  broadcastGameState ra t s = Some s' → playerHeap s' = playerHeap s.
Proof.
  unfold broadcastGameState. intros H. bind_inv H r Hr. bind_inv H pd Hpd.
  bind_inv H socks Hs. by injection H as <-.
Qed.

Lemma endGame_playerHeap (ra : nat) (s s' : Server) :
  endGame ra s = Some s' → playerHeap s' = playerHeap s.
Proof.
  unfold endGame. intros H. bind_inv H r Hr. bind_inv H ps Hps. bind_inv H s1 Hs1.
  injection H as <-. by apply broadcastMessage_inv in Hs1 as (r' & socks & _ & _ & ->).
Qed.

Lemma intervalCallback_rest (ra : nat) (now : Z) (s s' : Server) :
  wellFormed s →
  intervalCallback ra now s = Some s' →
  restExcept None (playerHeap s) → restExcept None (playerHeap s').
Proof.
  intros Hwf H Hrest. unfold intervalCallback in H. bind_inv H s1 Hs1.
  bind_inv H r1 Hr1. bind_inv H s2 Hs2.
  apply broadcastGameState_playerHeap in H. rewrite H.
  assert (Hrest1 : restExcept None (playerHeap s1)).
  { unfold updateGame in Hs1. bind_inv Hs1 r Hr. bind_inv Hs1 st Hst.
    injection Hs1 as <-. destruct st as [b' heap'].
    cbn [playerHeap setPlayerHeap snd].
    assert (Hra : (ra < length (roomHeap s))%nat) by (by eapply lookup_lt_Some).
    destruct (wellFormed_room s ra Hwf Hra) as (r' & Hr' & _ & _ & Hshape).
    assert (r' = r) as -> by congruence.
    by eapply updateGameLoop_rest. }
  case_decide.
  - bind_inv Hs2 s3 Hs3. injection Hs2 as <-. cbn [playerHeap setIntervals].
    apply endGame_playerHeap in Hs3. by rewrite Hs3.
  - by injection Hs2 as <-.
Qed.

Lemma onopen_rest (sock : nat) (now : Z) (e : Entropy) (s s' : Server) :
  onopen sock now e s = Some s' →
  restExcept None (playerHeap s) → restExcept None (playerHeap s').
Proof.
  unfold onopen. cbv zeta. intros H Hrest. bind_inv H x Hx. destruct x as [ra s2].
  apply (joinRoom_rest _ _ _ _ _ _ H).
  assert (Hh : playerHeap s2 = playerHeap s ++ [createPlayer sock e]).
  { unfold findOrCreateRoom in Hx. bind_inv Hx found Hf.
    destruct found; by injection Hx as <- <-. }
  rewrite Hh. intros a p Hp.
  destruct (decide (a < length (playerHeap s))%nat) as [Hlt|Hge].
  - rewrite lookup_app_l in Hp by done. destruct (Hrest a p Hp) as [Hsc Hpos].
    split; [done|]. intros _. by apply Hpos.
  - rewrite lookup_app_r in Hp by lia.
    destruct (a - length (playerHeap s))%nat as [|n] eqn:Hn; cbn in Hp; [|done].
    injection Hp as <-. split.
    + cbn [score createPlayer]. unfold boardSize. lia.
    + intros Hex. exfalso. apply Hex. f_equal. lia.
Qed.

Lemma handleEvent_rest (ev : Event) (s s' : Server) :
  wellFormed s → handleEvent ev s = Some s' →
  restExcept None (playerHeap s) → restExcept None (playerHeap s').
Proof.
  intros Hwf H Hrest.
  destruct ev as [sock now e|sock message digits|sock|ra now]; cbn [handleEvent] in H.
  - by eapply onopen_rest.
  - unfold onmessage in H. bind_inv H parsed Hparsed.
    destruct (mapGet sock (playerMap s)) as [pa|].
    + by eapply processMessage_rest.
    + by injection H as <-.
  - unfold onclose in H. destruct (mapGet sock (playerMap s)) as [pa|].
    + bind_inv H s1 Hs1. injection H as <-. cbn [playerHeap setPlayerMap].
      by eapply leaveRoom_rest.
    + by injection H as <-.
  - case_decide; [|done]. by eapply intervalCallback_rest.
Qed.

Lemma run_rest (evs : list Event) (s s' : Server) :
  wellFormed s → run evs s = Some s' →
  restExcept None (playerHeap s) → restExcept None (playerHeap s').
Proof.
  revert s. induction evs as [|ev evs IH]; intros s Hwf; cbn [run].
  - by intros [= <-].
  - intros H Hrest. bind_inv H s1 Hs1. eapply (IH s1); [|exact H|].
    + by eapply handleEvent_wellFormed.
    + by eapply handleEvent_rest.
Qed.

Lemma reachable_wellFormed (s : Server) : reachable s → wellFormed s.
Proof.
  intros [evs Hrun]. eapply run_wellFormed; [|exact Hrun].
  unfold wellFormed. cbn. by split_and!.
Qed.

Lemma reachable_rest (s : Server) : reachable s → restExcept None (playerHeap s).
Proof.
  intros [evs Hrun]. eapply run_rest; [|exact Hrun|].
  - unfold wellFormed. cbn. by split_and!.
  - intros a p Hp. done.
Qed.

(** X17. In every state the server can reach, every player's score lies
    between 0 and the number of cells of the board. *)
Theorem scores_within_board (s : Server) :
  reachable s →
  ∀ a p, playerHeap s !! a = Some p → 0 ≤ score p ≤ boardSize * boardSize.
Proof.
  intros Hrest%reachable_rest a p Hp. by apply (Hrest a p Hp).
Qed.

Lemma scores_within_board_witness :
  0 ≤ score (playerAt aliceAndBob 0) ≤ boardSize * boardSize.
Proof.
  apply (scores_within_board aliceAndBob) with (a := 0%nat).
  - exists [Open 1 1000 aliceEntropy; Open 2 1500 bobEntropy]. vm_compute. reflexivity.
  - vm_compute. reflexivity.
Defined.

(** X18. In every state the server can reach, every player's position and
    target position coincide (joining and moving set both); so a [stop]
    message, which copies the position into the target, never changes
    anything. *)
Theorem stop_changes_nothing (s : Server) :
  reachable s →
  (∀ a p, playerHeap s !! a = Some p → position p = targetPosition p) ∧
  (∀ sock message digits,
     msgType message = Some "stop" →
     onmessage sock (jsonFrame (jObject message)) digits s = Some s).
Proof.
  intros Hreach. pose proof (reachable_wellFormed s Hreach) as Hwf.
  apply reachable_rest in Hreach as Hrest.
  assert (Hpos : ∀ a p, playerHeap s !! a = Some p → position p = targetPosition p).
  { intros a p Hp. by apply (Hrest a p Hp). }
  split; [exact Hpos|].
  intros sock message digits Ht. unfold onmessage.
  cbn [JSON_parse mbind option_bind].
  destruct (mapGet sock (playerMap s)) as [pa|] eqn:Hsock; [|done].
  unfold processMessage.
  destruct (playerHeap s !! pa) as [p|] eqn:Hp; cbn [mbind option_bind].
  - destruct (room p) as [ra|]; [|done]. cbn [fieldsOf mbind option_bind]. rewrite Ht.
    rewrite decide_False by done. rewrite decide_False by done.
    rewrite decide_True by done. f_equal.
    unfold writePlayer. rewrite (Hpos pa p Hp).
    replace (setTargetPosition (targetPosition p) p) with p by (by destruct p).
    rewrite list_insert_id by done. by destruct s.
  - exfalso. destruct Hwf as (_ & _ & _ & Hmap & _).
    apply mapGet_elem in Hsock.
    pose proof (proj1 (Forall_forall _ _) Hmap _ Hsock) as Hlt. cbn [snd] in Hlt.
    apply lookup_lt_is_Some_2 in Hlt as [p' Hp']. congruence.
Qed.

Lemma stop_changes_nothing_witness :
  onmessage 2 (jsonFrame (jObject stopMessage)) [] aliceAndBob = Some aliceAndBob.
Proof.
  destruct (stop_changes_nothing aliceAndBob) as [_ H].
  - exists [Open 1 1000 aliceEntropy; Open 2 1500 bobEntropy]. vm_compute. reflexivity.
  - by apply H.
Defined.

(** ** The Go port: scoring and the winner *)

Lemma go_getRandomColor_nonempty (i : nat) : GoServer.getRandomColor i ≠ "".
Proof.
  unfold GoServer.getRandomColor.
  pose proof (Nat.mod_upper_bound i 16 ltac:(done)) as Hlt.
  destruct (i mod 16)%nat as [|n]; [done|].
  do 15 (destruct n as [|n]; [done|]). lia.
Qed.

(** The loop of the Go [endGame], from any running maximum. *)
Lemma go_endGame_fold_spec (ps : list Player) (acc : option Player * Z) :
  let res := fold_left
               (fun (acc : option Player * Z) player =>
                  if score player >? acc.2 then (Some player, score player) else acc)
               ps acc in
  (res = acc ∧ ∀ p, p ∈ ps → score p ≤ acc.2) ∨
  (∃ i w, ps !! i = Some w ∧ res = (Some w, score w) ∧ acc.2 < score w ∧
          (∀ p, p ∈ ps → score p ≤ score w) ∧
          ∀ j p, (j < i)%nat → ps !! j = Some p → score p < score w).
Proof.
  revert acc. induction ps as [|q ps IH]; intros acc; cbn [fold_left].
  - left. split; [done|]. intros p Hp. by apply elem_of_nil in Hp.
  - destruct (Z.gtb_spec (score q) acc.2) as [Hgt|Hle].
    + right. destruct (IH (Some q, score q)) as [[Hres Hall]|(i & w & Hi & Hres & Hlt & Hall & Hbefore)].
      * exists 0%nat, q. cbn [snd] in Hall. split_and!; [done|done|done| |].
        -- intros p [->|Hp]%elem_of_cons; [done|by apply Hall].
        -- intros j p Hj. lia.
      * exists (S i), w. cbn [snd] in Hlt. split_and!; [done|done|lia| |].
        -- intros p [->|Hp]%elem_of_cons; [lia|by apply Hall].
        -- intros [|j] p Hj Hp; cbn in Hp.
           ++ injection Hp as <-. lia.
           ++ eapply Hbefore; [|done]. lia.
    + destruct (IH acc) as [[Hres Hall]|(i & w & Hi & Hres & Hlt & Hall & Hbefore)].
      * left. split; [done|]. intros p [->|Hp]%elem_of_cons; [lia|by apply Hall].
      * right. exists (S i), w. split_and!; [done|done|done| |].
        -- intros p [->|Hp]%elem_of_cons; [lia|by apply Hall].
        -- intros [|j] p Hj Hp; cbn in Hp.
           ++ injection Hp as <-. lia.
           ++ eapply Hbefore; [|done]. lia.
Qed.

(** X19. The Go [endGame] names the first player, in the order the loop
    visits them, whose score is the highest, provided that score is
    positive; when no score is positive its winner stays [nil]. *)
Theorem go_endGameWinner_spec (ps : list Player) :
  match GoServer.endGameWinner ps with
  | None => ∀ p, p ∈ ps → score p ≤ 0
  | Some w =>
      ∃ i, ps !! i = Some w ∧ 0 < score w ∧
           (∀ p, p ∈ ps → score p ≤ score w) ∧
           (∀ j p, (j < i)%nat → ps !! j = Some p → score p < score w)
  end.
Proof.
  unfold GoServer.endGameWinner.
  destruct (go_endGame_fold_spec ps (None, 0))
    as [[Hres Hall]|(i & w & Hi & Hres & Hlt & Hall & Hbefore)].
  - rewrite Hres. exact Hall.
  - rewrite Hres. exists i. done.
Qed.

(** X20. In the Go port, on the board as [createBoard] makes it, [updateGame]
    gives every player whose color comes from [getRandomColor] the score
    0, and [endGame] then names no winner. *)
Theorem go_nobody_scores (ps : list Player) :
  Forall (fun p => ∃ i, color p = GoServer.getRandomColor i) ps →
  Forall (fun p => score p = 0) (GoGame.updateGame GoGame.createBoard ps) ∧
  GoServer.endGameWinner (GoGame.updateGame GoGame.createBoard ps) = None.
Proof.
  intros Hcol.
  assert (Hz : Forall (fun p => score p = 0) (GoGame.updateGame GoGame.createBoard ps)).
  { unfold GoGame.updateGame. apply Forall_fmap. eapply Forall_impl; [exact Hcol|].
    intros p [i Hi]. cbn [compose score setScore].
    rewrite countPlayerSquares_owned. unfold GoGame.createBoard.
    rewrite owned_replicate, ownedInRow_replicate.
    rewrite decide_False; [lia|]. rewrite Hi. intros Heq.
    by apply (go_getRandomColor_nonempty i). }
  split; [exact Hz|]. apply go_endGameWinner_all_zero.
  eapply Forall_impl; [exact Hz|]. intros p Hp. cbn beta in Hp. lia.
Qed.

Lemma go_nobody_scores_witness :
  GoServer.endGameWinner
    (GoGame.updateGame GoGame.createBoard
       [mkPlayer "p1" "" (GoServer.getRandomColor 3) 7 (mkPosition 1 2) (mkPosition 1 2)
          0 1 (Some 0%nat)]) = None.
Proof.
  apply (go_nobody_scores
           [mkPlayer "p1" "" (GoServer.getRandomColor 3) 7 (mkPosition 1 2) (mkPosition 1 2)
              0 1 (Some 0%nat)]).
  apply Forall_singleton. by exists 3%nat.
Defined.

(** ** The first player of a room, and what a joiner is announced as *)

(** X21. When a player joins a room that has no session, [joinRoom] takes the
    [startGame] branch: the room's start time is set, the player gets one
    spawn point as position and target and is pushed onto
    [gameState.players], and the room's timer starts.  Unlike a later
    joiner, the first player claims no initial territory (the board is
    untouched) and nothing is sent. *)
Theorem joinRoom_first_player (s : Server) (pa ra : nat) (p : Player) (r : Room)
    (now : Z) (spawn : nat → Z * Z) :
  playerHeap s !! pa = Some p →
  roomHeap s !! ra = Some r →
  players r = [] →
  ∃ s' r' p',
    joinRoom pa ra now spawn s = Some s' ∧
    roomHeap s' !! ra = Some r' ∧ playerHeap s' !! pa = Some p' ∧
    players r' = [(id p, pa)] ∧ startTime r' = now ∧
    gsPlayers (gameState r') = gsPlayers (gameState r) ++ [pa] ∧
    board (gameState r') = board (gameState r) ∧
    position p' = getRandomPosition (spawn 0%nat).1 (spawn 0%nat).2 ∧
    targetPosition p' = position p' ∧
    room p' = Some ra ∧ score p' = score p ∧
    intervals s' = intervals s ++ [ra] ∧
    sent s' = sent s.
Proof.
  intros Hp Hr Hempty.
  assert (Hlpa : (pa < length (playerHeap s))%nat) by (by eapply lookup_lt_Some).
  assert (Hlra : (ra < length (roomHeap s))%nat) by (by eapply lookup_lt_Some).
  set (pos := getRandomPosition (spawn 0%nat).1 (spawn 0%nat).2).
  set (p1 := setRoom (Some ra) p).
  set (r1 := setPlayers [(id p, pa)] r).
  set (p2 := setTargetPosition pos (setPosition pos p1)).
  set (r2 := setGameState (setGsPlayers (gsPlayers (gameState r) ++ [pa]) (gameState r))
               (setStartTime now r1)).
  exists (setIntervals (intervals s ++ [ra])
            (setPlayerHeap (<[pa := p2]> (<[pa := p1]> (playerHeap s)))
               (writeRoom ra r2 (writeRoom ra r1 (writePlayer pa p1 s))))), r2, p2.
  split_and!.
  - unfold joinRoom. rewrite Hp. cbn [mbind option_bind]. rewrite Hr.
    cbn [mbind option_bind]. cbv zeta. rewrite Hempty.
    change (mapSet (id p) pa []) with [(id p, pa)].
    rewrite decide_True by done.
    unfold startGame.
    cbn [roomHeap playerHeap writeRoom setRoomHeap writePlayer setPlayerHeap].
    rewrite list_lookup_insert_eq by done. cbn [mbind option_bind]. cbv zeta.
    cbn [players setStartTime setPlayers startGameLoop fst snd].
    rewrite list_lookup_insert_eq by done. cbn [mbind option_bind].
    reflexivity.
  - cbn [roomHeap setIntervals setPlayerHeap writeRoom setRoomHeap writePlayer].
    apply list_lookup_insert_eq. by rewrite length_insert.
  - cbn [playerHeap setIntervals setPlayerHeap].
    apply list_lookup_insert_eq. by rewrite length_insert.
  - reflexivity.
  - reflexivity.
  - reflexivity.
  - reflexivity.
  - reflexivity.
  - reflexivity.
  - reflexivity.
  - reflexivity.
  - reflexivity.
  - reflexivity.
Qed.

Lemma joinRoom_first_player_witness :
  ∃ s' r',
    joinRoom 0 0 1000 (fun _ => (0, 10))
      (mkServer [("room-1", 0%nat)] [(1%nat, 0%nat)]
         [mkRoom "room-1" [] (mkGameState createBoard [] []) gameDuration 0]
         [createPlayer 1 aliceEntropy] [] []) = Some s' ∧
    roomHeap s' !! 0%nat = Some r' ∧
    board (gameState r') = createBoard ∧ sent s' = [] ∧ intervals s' = [0%nat].
Proof.
  destruct (joinRoom_first_player
              (mkServer [("room-1", 0%nat)] [(1%nat, 0%nat)]
                 [mkRoom "room-1" [] (mkGameState createBoard [] []) gameDuration 0]
                 [createPlayer 1 aliceEntropy] [] [])
              0 0 (createPlayer 1 aliceEntropy)
              (mkRoom "room-1" [] (mkGameState createBoard [] []) gameDuration 0)
              1000 (fun _ => (0, 10)))
    as (s' & r' & p' & H1 & H2 & _ & _ & _ & _ & H7 & _ & _ & _ & _ & H12 & H13).
  - reflexivity.
  - reflexivity.
  - reflexivity.
  - exists s', r'. split; [exact H1|]. split; [exact H2|]. split; [exact H7|].
    split; [exact H13|exact H12].
Defined.

(** X22. A new connection is announced without a name: whatever [onopen]
    sends is a [playerJoined] message whose name is the empty string (the
    name is set only later, by a [join] message, which announces
    nothing). *)
Theorem onopen_announces_empty_name (sock : nat) (now : Z) (e : Entropy) (s s' : Server) :
  onopen sock now e s = Some s' →
  ∃ socks, sent s' = sent s ++ map (fun sk => (sk, playerJoined "")) socks.
Proof.
  unfold onopen. cbv zeta. intros H. bind_inv H x Hx. destruct x as [ra s2].
  assert (Hs2 : sent s2 = sent s ∧
                playerHeap s2 = playerHeap s ++ [createPlayer sock e]).
  { unfold findOrCreateRoom in Hx. bind_inv Hx found Hf.
    destruct found; by injection Hx as <- <-. }
  destruct Hs2 as [Hsent Hheap].
  unfold joinRoom in H. bind_inv H p Hp. bind_inv H r Hr. cbv zeta in H.
  assert (p = createPlayer sock e) as ->.
  { rewrite Hheap, lookup_app_r in Hp by done. rewrite Nat.sub_diag in Hp.
    by injection Hp as <-. }
  case_decide.
  - exists []. unfold startGame in H. bind_inv H r1 Hr1. bind_inv H st Hst.
    injection H as <-. cbn [sent setIntervals setPlayerHeap writeRoom setRoomHeap
                            writePlayer map].
    by rewrite app_nil_r.
  - bind_inv H s3 Hs3. apply broadcastMessage_inv in H as (r3 & socks & _ & _ & ->).
    exists socks. unfold claimInitialTerritory in Hs3. bind_inv Hs3 r2 Hr2.
    bind_inv Hs3 p2 Hp2. bind_inv Hs3 b' Hb'. injection Hs3 as <-.
    cbn [sent setSent writeRoom setRoomHeap writePlayer setPlayerHeap].
    by rewrite Hsent.
Qed.

Lemma onopen_announces_empty_name_witness :
  ∃ socks, sent aliceAndBob
           = sent (stateAfter [Open 1 1000 aliceEntropy])
             ++ map (fun sk => (sk, playerJoined "")) socks.
Proof.
  apply (onopen_announces_empty_name 2 1500 bobEntropy
           (stateAfter [Open 1 1000 aliceEntropy]) aliceAndBob).
  vm_compute. reflexivity.
Defined.

(** ** Properties of players that every handler keeps *)

Section HeapInvariant.
Variable P : Player → Prop.
Variable okSpeed : number → Prop.
Variable okNew : Entropy → Prop.
Hypothesis P_score : ∀ v p, P p → P (setScore v p).
Hypothesis P_spawn : ∀ side r p,
  P p → P (setTargetPosition (getRandomPosition side r)
             (setPosition (getRandomPosition side r) p)).
Hypothesis P_stop : ∀ p, P p → P (setTargetPosition (position p) p).
Hypothesis P_room : ∀ v p, P p → P (setRoom v p).
Hypothesis P_move : ∀ d sp p, okSpeed sp → P p → P (updatePlayerPosition p d sp).
Hypothesis P_join : ∀ digits n p, P p → P (setColor (getRandomColor digits) (setName n p)).
Hypothesis P_new : ∀ sock e, okNew e → P (createPlayer sock e).

Lemma updateGameLoop_players (refs : list nat) (b : Board) (heap : list Player)
    (b' : Board) (heap' : list Player) :
  updateGameLoop refs (b, heap) = Some (b', heap') → Forall P heap → Forall P heap'.
Proof.
  revert b heap. induction refs as [|a refs IH]; intros b heap; cbn [updateGameLoop].
  - by intros [= <- <-].
  - intros H Hall. bind_inv H st1 Hstep. unfold updateGameStep in Hstep.
    cbn [fst snd] in Hstep. bind_inv Hstep p Hp. bind_inv Hstep b1 Hb1.
    injection Hstep as <-. eapply IH; [exact H|].
    apply Forall_insert; [done|]. apply P_score. by eapply (Forall_lookup_1 _ _ _ _ Hall Hp).
Qed.

Lemma startGameLoop_players (spawn : nat → Z * Z) (i : nat) (members : list (string * nat))
    (st st' : list Player * list nat) :
  startGameLoop spawn i members st = Some st' → Forall P st.1 → Forall P st'.1.
Proof.
  revert i st. induction members as [|[k a] members IH]; intros i st; cbn [startGameLoop].
  - by intros [= <-].
  - intros H Hall. bind_inv H p Hp. apply (IH _ _ H). cbn [fst].
    apply Forall_insert; [done|]. apply P_spawn.
    by eapply (Forall_lookup_1 _ _ _ _ Hall Hp).
Qed.

Lemma joinRoom_players (pa ra : nat) (now : Z) (spawn : nat → Z * Z) (s s' : Server) :
  joinRoom pa ra now spawn s = Some s' →
  Forall P (playerHeap s) → Forall P (playerHeap s').
Proof.
  unfold joinRoom. intros H Hall. bind_inv H p Hp. bind_inv H r Hr. cbv zeta in H.
  pose proof (Forall_lookup_1 _ _ _ _ Hall Hp) as HPp.
  assert (Hall1 : Forall P (<[pa := setRoom (Some ra) p]> (playerHeap s))).
  { apply Forall_insert; [done|]. by apply P_room. }
  case_decide.
  - unfold startGame in H. bind_inv H r1 Hr1. bind_inv H st Hst. injection H as <-.
    cbn [playerHeap setIntervals setPlayerHeap].
    by apply (startGameLoop_players _ _ _ _ _ Hst).
  - bind_inv H s3 Hs3. apply broadcastMessage_inv in H as (r3 & socks & _ & _ & ->).
    unfold claimInitialTerritory in Hs3. bind_inv Hs3 r2 Hr2. bind_inv Hs3 p2 Hp2.
    bind_inv Hs3 b' Hb'. injection Hs3 as <-.
    cbn [playerHeap setSent writeRoom setRoomHeap writePlayer setPlayerHeap].
    apply Forall_insert; [done|]. by apply P_spawn, P_room.
Qed.

Lemma leaveRoom_players (pa : nat) (s s' : Server) :
  leaveRoom pa s = Some s' → Forall P (playerHeap s) → Forall P (playerHeap s').
Proof.
  unfold leaveRoom. intros H Hall. bind_inv H p Hp.
  destruct (room p) as [ra|]; [|by injection H as <-].
  bind_inv H r Hr. cbv zeta in H.
  assert (Forall P (<[pa := setRoom None p]> (playerHeap s))).
  { apply Forall_insert; [done|]. apply P_room. by eapply (Forall_lookup_1 _ _ _ _ Hall Hp). }
  by case_decide; injection H as <-.
Qed.

Lemma processMessage_players (pa : nat) (parsed : JsonValue) (digits : list nat)
    (s s' : Server) :
  okSpeed (frameSpeed (jsonFrame parsed)) →
  processMessage pa parsed digits s = Some s' →
  Forall P (playerHeap s) → Forall P (playerHeap s').
Proof.
  unfold processMessage. intros Hsp H Hall. bind_inv H p Hp.
  destruct (room p) as [ra|]; [|by injection H as <-].
  bind_inv H message Hmsg.
  assert (Hspeed : okSpeed (default 0%Q (msgSpeed message))).
  { destruct parsed as [| |m]; [done| |]; by injection Hmsg as <-. }
  pose proof (Forall_lookup_1 _ _ _ _ Hall Hp) as HPp.
  repeat case_decide.
  - injection H as <-. apply Forall_insert; [done|]. by apply P_join.
  - apply broadcastMessage_inv in H as (r & socks & _ & _ & ->).
    apply Forall_insert; [done|]. by apply P_move.
  - injection H as <-. apply Forall_insert; [done|]. by apply P_stop.
  - bind_inv H r Hr. by apply broadcastMessage_inv in H as (r' & socks & _ & _ & ->).
  - by injection H as <-.
Qed.

Lemma updateGame_players (ra : nat) (s s' : Server) :
  updateGame ra s = Some s' → Forall P (playerHeap s) → Forall P (playerHeap s').
Proof.
  unfold updateGame. intros H Hall. bind_inv H r Hr. bind_inv H st Hst.
  injection H as <-. destruct st as [b' heap'].
  by apply (updateGameLoop_players _ _ _ _ _ Hst).
Qed.

Lemma intervalCallback_players (ra : nat) (now : Z) (s s' : Server) :
  intervalCallback ra now s = Some s' →
  Forall P (playerHeap s) → Forall P (playerHeap s').
Proof.
  intros H Hall. unfold intervalCallback in H. bind_inv H s1 Hs1.
  bind_inv H r1 Hr1. bind_inv H s2 Hs2.
  apply broadcastGameState_playerHeap in H. rewrite H.
  pose proof (updateGame_players _ _ _ Hs1 Hall) as Hall1.
  case_decide.
  - bind_inv Hs2 s3 Hs3. injection Hs2 as <-. cbn [playerHeap setIntervals].
    apply endGame_playerHeap in Hs3. by rewrite Hs3.
  - by injection Hs2 as <-.
Qed.

Lemma onopen_players (sock : nat) (now : Z) (e : Entropy) (s s' : Server) :
  okNew e →
  onopen sock now e s = Some s' → Forall P (playerHeap s) → Forall P (playerHeap s').
Proof.
  unfold onopen. cbv zeta. intros Hnew H Hall. bind_inv H x Hx. destruct x as [ra s2].
  apply (joinRoom_players _ _ _ _ _ _ H).
  assert (Hh : playerHeap s2 = playerHeap s ++ [createPlayer sock e]).
  { unfold findOrCreateRoom in Hx. bind_inv Hx found Hf.
    destruct found; by injection Hx as <- <-. }
  rewrite Hh. apply Forall_app. split; [done|]. by apply Forall_singleton, P_new.
Qed.

Lemma handleEvent_players (ev : Event) (s s' : Server) :
  eventIn okSpeed okNew ev →
  handleEvent ev s = Some s' → Forall P (playerHeap s) → Forall P (playerHeap s').
Proof.
  intros Hsp H Hall.
  destruct ev as [sock now e|sock frame digits|sock|ra now]; cbn [handleEvent] in H.
  - by eapply onopen_players.
  - unfold onmessage in H. bind_inv H parsed Hparsed.
    destruct frame as [|v]; [done|]. injection Hparsed as ->.
    destruct (mapGet sock (playerMap s)) as [pa|].
    + by eapply processMessage_players.
    + by injection H as <-.
  - unfold onclose in H. destruct (mapGet sock (playerMap s)) as [pa|].
    + bind_inv H s1 Hs1. injection H as <-. cbn [playerHeap setPlayerMap].
      by eapply leaveRoom_players.
    + by injection H as <-.
  - case_decide; [|done]. by eapply intervalCallback_players.
Qed.

Lemma run_players (evs : list Event) (s s' : Server) :
  Forall (eventIn okSpeed okNew) evs →
  run evs s = Some s' → Forall P (playerHeap s) → Forall P (playerHeap s').
Proof.
  revert s. induction evs as [|ev evs IH]; intros s Hevs; cbn [run].
  - by intros [= <-].
  - apply Forall_cons in Hevs as [Hev Hevs].
    intros H Hall. bind_inv H s1 Hs1. eapply (IH s1); [done|exact H|].
    by eapply handleEvent_players.
Qed.

Lemma reachable_players (s : Server) :
  (∀ sp, okSpeed sp) → (∀ e, okNew e) → reachable s → Forall P (playerHeap s).
Proof.
  intros Hany Hnew [evs Hrun]. eapply run_players; [|exact Hrun|constructor].
  apply Forall_forall. intros [| sock frame digits| |] _; cbn; done.
Qed.

End HeapInvariant.

Lemma getRandomColor_nonempty (digits : list nat) : getRandomColor digits ≠ "".
Proof.
  unfold getRandomColor.
  destruct (getRandomColor_loop (take 6 digits) "#") as (t & -> & _). done.
Qed.

Lemma reachable_colorsOk (s : Server) : reachable s → colorsOk (playerHeap s).
Proof.
  apply (reachable_players (fun p => color p ≠ "") (fun _ => True) (fun _ => True));
    try done.
  - intros digits n p _. apply getRandomColor_nonempty.
  - intros sock e _. apply getRandomColor_nonempty.
Qed.

(** X23. No handler ever writes [moveStartTime]: in every state the server
    can reach it is the 0 that [createPlayer] gave it, for every player,
    and so it is in every snapshot sent. *)
Theorem moveStartTime_never_set (s : Server) :
  reachable s →
  ∀ a p, playerHeap s !! a = Some p → moveStartTime p = 0.
Proof.
  intros Hreach a p Hp.
  eapply (Forall_lookup_1 (fun p => moveStartTime p = 0)); [|exact Hp].
  by apply (reachable_players _ (fun _ => True) (fun _ => True)).
Qed.

Lemma moveStartTime_never_set_witness :
  moveStartTime (playerAt aliceAndBob 1) = 0.
Proof.
  apply (moveStartTime_never_set aliceAndBob) with (a := 1%nat).
  - exists [Open 1 1000 aliceEntropy; Open 2 1500 bobEntropy]. vm_compute. reflexivity.
  - vm_compute. reflexivity.
Defined.

(** *** Integer coordinates *)






(** ** Claimed cells stay claimed *)

Lemma claimCell_keeps (b : Board) (p : Position) (c : string) (b' : Board) (cx cy : Z) :
  c ≠ "" → claimCell b p c = Some b' → claimedAt b cx cy → claimedAt b' cx cy.
Proof.
  intros Hc Hw (o & Ho & Hne). unfold claimedAt.
  rewrite (cellAt_claimCell _ _ _ _ _ _ Hw). case_decide; by eauto.
Qed.

Lemma claimAll_keeps (b : Board) (ps : list Position) (c : string) (b' : Board) (cx cy : Z) :
  c ≠ "" → claimAll b ps c = Some b' → claimedAt b cx cy → claimedAt b' cx cy.
Proof.
  intros Hc Hw (o & Ho & Hne). unfold claimedAt.
  rewrite (cellAt_claimAll _ _ _ _ _ _ Hw). case_decide; by eauto.
Qed.

Lemma updateGameLoop_keeps (refs : list nat) (b : Board) (heap : list Player)
    (b' : Board) (heap' : list Player) (cx cy : Z) :
  colorsOk heap →
  updateGameLoop refs (b, heap) = Some (b', heap') →
  claimedAt b cx cy → claimedAt b' cx cy.
Proof.
  revert b heap. induction refs as [|a refs IH]; intros b heap Hcol; cbn [updateGameLoop].
  - by intros [= <- <-].
  - intros H Hcl. bind_inv H st1 Hstep. unfold updateGameStep in Hstep.
    cbn [fst snd] in Hstep. bind_inv Hstep p Hp. bind_inv Hstep b1 Hb1.
    injection Hstep as <-.
    pose proof (Forall_lookup_1 _ _ _ _ Hcol Hp) as Hc. cbn beta in Hc.
    eapply (IH b1); [|exact H|by eapply claimCell_keeps].
    by apply Forall_insert.
Qed.

Lemma keepsClaims_refl (s : Server) : keepsClaims s s.
Proof. intros ra r cx cy Hr Hcl. by exists r. Qed.

Lemma keepsClaims_trans (s1 s2 s3 : Server) :
  keepsClaims s1 s2 → keepsClaims s2 s3 → keepsClaims s1 s3.
Proof.
  intros H12 H23 ra r cx cy Hr Hcl.
  destruct (H12 ra r cx cy Hr Hcl) as (r2 & Hr2 & Hcl2). by eapply H23.
Qed.

Lemma keepsClaims_same (s s' : Server) : roomHeap s' = roomHeap s → keepsClaims s s'.
Proof. intros Heq ra r cx cy Hr Hcl. exists r. by rewrite Heq. Qed.

Lemma keepsClaims_writeRoom (s : Server) (ra : nat) (r r' : Room) :
  roomHeap s !! ra = Some r →
  (∀ cx cy, claimedAt (board (gameState r)) cx cy → claimedAt (board (gameState r')) cx cy) →
  keepsClaims s (writeRoom ra r' s).
Proof.
  intros Hr Hmono ra2 r2 cx cy Hr2 Hcl.
  cbn [roomHeap writeRoom setRoomHeap].
  destruct (decide (ra2 = ra)) as [->|Hne].
  - exists r'. rewrite list_lookup_insert_eq by (by eapply lookup_lt_Some).
    split; [done|]. apply Hmono. congruence.
  - exists r2. by rewrite list_lookup_insert_ne.
Qed.

Lemma claimInitialTerritory_keeps (ra pa : nat) (s s' : Server) :
  colorsOk (playerHeap s) →
  claimInitialTerritory ra pa s = Some s' → keepsClaims s s'.
Proof.
  intros Hcol H. unfold claimInitialTerritory in H. bind_inv H r Hr. bind_inv H p Hp.
  bind_inv H b' Hb. injection H as <-.
  pose proof (Forall_lookup_1 _ _ _ _ Hcol Hp) as Hc. cbn beta in Hc.
  apply (keepsClaims_writeRoom s ra r); [done|].
  intros cx cy. by apply (claimAll_keeps _ _ _ _ _ _ Hc Hb).
Qed.

Lemma updateGame_keeps (ra : nat) (s s' : Server) :
  colorsOk (playerHeap s) → updateGame ra s = Some s' → keepsClaims s s'.
Proof.
  intros Hcol H. unfold updateGame in H. bind_inv H r Hr. bind_inv H st Hst.
  injection H as <-. destruct st as [b' heap'].
  eapply keepsClaims_trans.
  - apply (keepsClaims_writeRoom s ra r (setGameState (setBoard b' (gameState r)) r)); [done|].
    intros cx cy. by apply (updateGameLoop_keeps _ _ _ _ _ _ _ Hcol Hst).
  - by apply keepsClaims_same.
Qed.

Lemma intervalCallback_keeps (ra : nat) (now : Z) (s s' : Server) :
  colorsOk (playerHeap s) → intervalCallback ra now s = Some s' → keepsClaims s s'.
Proof.
  intros Hcol H. unfold intervalCallback in H. bind_inv H s1 Hs1.
  bind_inv H r1 Hr1. bind_inv H s2 Hs2.
  eapply keepsClaims_trans; [by eapply updateGame_keeps|].
  apply keepsClaims_same.
  assert (H2 : roomHeap s2 = roomHeap s1).
  { case_decide.
    - bind_inv Hs2 s3 Hs3. injection Hs2 as <-. cbn [roomHeap setIntervals].
      unfold endGame in Hs3. bind_inv Hs3 r Hr. bind_inv Hs3 ps Hps.
      bind_inv Hs3 s4 Hs4. injection Hs3 as <-.
      by apply broadcastMessage_inv in Hs4 as (r' & socks & _ & _ & ->).
    - by injection Hs2 as <-. }
  rewrite <- H2. unfold broadcastGameState in H. bind_inv H r Hr. bind_inv H pd Hpd.
  bind_inv H socks Hs. by injection H as <-.
Qed.

Lemma joinRoom_keeps (pa ra : nat) (now : Z) (spawn : nat → Z * Z) (s s' : Server) :
  colorsOk (playerHeap s) → joinRoom pa ra now spawn s = Some s' → keepsClaims s s'.
Proof.
  intros Hcol H. unfold joinRoom in H. bind_inv H p Hp. bind_inv H r Hr. cbv zeta in H.
  pose proof (Forall_lookup_1 _ _ _ _ Hcol Hp) as Hc. cbn beta in Hc.
  assert (Hlra : (ra < length (roomHeap s))%nat) by (by eapply lookup_lt_Some).
  set (s1 := writeRoom ra (setPlayers (mapSet (id p) pa (players r)) r)
               (writePlayer pa (setRoom (Some ra) p) s)) in H.
  assert (H1 : keepsClaims s s1).
  { eapply keepsClaims_trans;
      [apply (keepsClaims_same s (writePlayer pa (setRoom (Some ra) p) s)); reflexivity|].
    by apply (keepsClaims_writeRoom _ ra r). }
  assert (Hr1 : roomHeap s1 !! ra = Some (setPlayers (mapSet (id p) pa (players r)) r)).
  { unfold s1. cbn [roomHeap writeRoom setRoomHeap writePlayer setPlayerHeap].
    by apply list_lookup_insert_eq. }
  assert (Hcol1 : colorsOk (playerHeap s1)).
  { unfold s1. cbn [playerHeap writeRoom setRoomHeap writePlayer setPlayerHeap].
    by apply Forall_insert. }
  clearbody s1. eapply keepsClaims_trans; [exact H1|].
  case_decide.
  - unfold startGame in H. bind_inv H r1 Hr1'. bind_inv H st Hst. injection H as <-.
    eapply keepsClaims_trans; [|apply keepsClaims_same; reflexivity].
    eapply keepsClaims_trans; [|apply keepsClaims_same; reflexivity].
    by apply (keepsClaims_writeRoom _ ra r1).
  - bind_inv H s3 Hs3. apply broadcastMessage_inv in H as (r3 & socks & _ & _ & ->).
    eapply keepsClaims_trans; [|apply keepsClaims_same; reflexivity].
    eapply keepsClaims_trans; [|apply (claimInitialTerritory_keeps ra pa _ s3); [|exact Hs3]].
    + by apply keepsClaims_same.
    + cbn [playerHeap writePlayer setPlayerHeap]. by apply Forall_insert.
Qed.

Lemma leaveRoom_keeps (pa : nat) (s s' : Server) :
  leaveRoom pa s = Some s' → keepsClaims s s'.
Proof.
  unfold leaveRoom. intros H. bind_inv H p Hp.
  destruct (room p) as [ra|]; [|injection H as <-; apply keepsClaims_refl].
  bind_inv H r Hr. cbv zeta in H.
  assert (H1 : keepsClaims s
                 (writePlayer pa (setRoom None p)
                    (writeRoom ra (setPlayers (mapDelete (id p) (players r)) r) s))).
  { eapply keepsClaims_trans; [|apply keepsClaims_same; reflexivity].
    by apply (keepsClaims_writeRoom _ ra r). }
  case_decide; injection H as <-; [|done].
  eapply keepsClaims_trans; [exact H1|]. by apply keepsClaims_same.
Qed.

Lemma processMessage_keeps (pa : nat) (parsed : JsonValue) (digits : list nat)
    (s s' : Server) :
  processMessage pa parsed digits s = Some s' → keepsClaims s s'.
Proof.
  unfold processMessage. intros H. bind_inv H p Hp.
  destruct (room p) as [ra|]; [|injection H as <-; apply keepsClaims_refl].
  bind_inv H message Hmsg.
  repeat case_decide.
  - injection H as <-. by apply keepsClaims_same.
  - apply broadcastMessage_inv in H as (r & socks & _ & _ & ->). by apply keepsClaims_same.
  - injection H as <-. by apply keepsClaims_same.
  - bind_inv H r Hr. apply broadcastMessage_inv in H as (r' & socks & _ & _ & ->).
    eapply keepsClaims_trans; [|apply keepsClaims_same; reflexivity].
    by apply (keepsClaims_writeRoom _ ra r).
  - injection H as <-. apply keepsClaims_refl.
Qed.

Lemma onopen_keeps (sock : nat) (now : Z) (e : Entropy) (s s' : Server) :
  colorsOk (playerHeap s) → onopen sock now e s = Some s' → keepsClaims s s'.
Proof.
  intros Hcol. unfold onopen. cbv zeta. intros H. bind_inv H x Hx. destruct x as [ra s2].
  assert (H2 : keepsClaims s s2 ∧ colorsOk (playerHeap s2)).
  { unfold findOrCreateRoom in Hx. bind_inv Hx found Hf.
    assert (Hnew : colorsOk (playerHeap s ++ [createPlayer sock e])).
    { apply Forall_app. split; [done|]. apply Forall_singleton.
      apply getRandomColor_nonempty. }
    destruct found; injection Hx as <- <-.
    - split; [by apply keepsClaims_same|done].
    - split; [|done]. intros ra r cx cy Hr Hcl. exists r. split; [|done].
      cbn [roomHeap createRoom snd setRooms setRoomHeap setPlayerMap setPlayerHeap].
      by apply lookup_app_l_Some. }
  destruct H2 as [Hk2 Hcol2]. eapply keepsClaims_trans; [exact Hk2|].
  by eapply joinRoom_keeps.
Qed.

(** X24. Territory is never released: whatever the server handles (a
    connection, a message, a closed socket, a tick), a cell that carries a
    color before still carries a color after, on the board of the same
    room.  Cells are repainted, never cleared, also when their owner
    leaves. *)
Theorem claimed_cells_stay_claimed (ev : Event) (s s' : Server) (ra : nat) (r : Room)
    (cx cy : Z) :
  reachable s →
  handleEvent ev s = Some s' →
  roomHeap s !! ra = Some r →
  claimedAt (board (gameState r)) cx cy →
  ∃ r', roomHeap s' !! ra = Some r' ∧ claimedAt (board (gameState r')) cx cy.
Proof.
  intros Hcol%reachable_colorsOk H.
  assert (Hk : keepsClaims s s').
  { destruct ev as [sock now e|sock message digits|sock|ra' now]; cbn [handleEvent] in H.
    - by eapply onopen_keeps.
    - unfold onmessage in H. bind_inv H parsed Hparsed.
      destruct (mapGet sock (playerMap s)) as [pa|].
      + by eapply processMessage_keeps.
      + injection H as <-. apply keepsClaims_refl.
    - unfold onclose in H. destruct (mapGet sock (playerMap s)) as [pa|].
      + bind_inv H s1 Hs1. injection H as <-.
        eapply keepsClaims_trans; [by eapply leaveRoom_keeps|]. by apply keepsClaims_same.
      + injection H as <-. apply keepsClaims_refl.
    - case_decide; [|done]. by eapply intervalCallback_keeps. }
  apply Hk.
Qed.

Lemma claimed_cells_stay_claimed_witness :
  ∃ r', roomHeap (stateAfter [Open 1 1000 aliceEntropy; Open 2 1500 bobEntropy; Close 2])
          !! 0%nat = Some r' ∧
        claimedAt (board (gameState r')) 0 20.
Proof.
  apply (claimed_cells_stay_claimed (Close 2) aliceAndBob
           (stateAfter [Open 1 1000 aliceEntropy; Open 2 1500 bobEntropy; Close 2])
           0 (roomAt aliceAndBob 0) 0 20).
  - exists [Open 1 1000 aliceEntropy; Open 2 1500 bobEntropy]. vm_compute. reflexivity.
  - vm_compute. reflexivity.
  - vm_compute. reflexivity.
  - exists "#ABCDEF". split; [vm_compute; reflexivity|done].
Defined.

(** ** A new color starts from nothing *)

Lemma sum_list_map_lookup_le {A} (f : A → nat) (l : list A) (i : nat) (x : A) :
  l !! i = Some x → (f x ≤ sum_list (map f l))%nat.
Proof.
  revert i. induction l as [|y l IH]; intros [|i] Hi; cbn in *; try done.
  - injection Hi as ->. lia.
  - specialize (IH i Hi). lia.
Qed.

Lemma ownedInRow_lookup (c : string) (row : list string) (i : nat) :
  row !! i = Some c → (1 ≤ ownedInRow c row)%nat.
Proof.
  revert i. induction row as [|cell row IH]; intros [|i] Hi; cbn in Hi; try done.
  - injection Hi as ->. rewrite ownedInRow_cons, decide_True by done. lia.
  - rewrite ownedInRow_cons. specialize (IH i Hi). lia.
Qed.

(** Writing a color that owns no cell yet gives it exactly one. *)
Lemma owned_cellWrite_fresh (b : Board) (cx cy : Z) (c : string) (b' : Board) :
  cellWrite b cx cy c = Some b' → owned c b = 0%nat → owned c b' = 1%nat.
Proof.
  unfold cellWrite. intros H Hz. case_decide; [|done].
  bind_inv H row Hrow. case_decide as Hx; [|done]. injection H as <-.
  destruct (lookup_lt_is_Some_2 row _ Hx) as [o Ho].
  pose proof (sum_list_map_insert (ownedInRow c) b _ row
                (<[Z.to_nat cx := c]> row) Hrow) as Hsum.
  pose proof (ownedInRow_insert c row _ o c Ho) as Hrowc.
  pose proof (sum_list_map_lookup_le (ownedInRow c) b _ row Hrow) as Hle.
  unfold owned in *. destruct (decide (c = c)) as [_|Hcc]; [|done].
  destruct (decide (o = c)) as [->|Hne].
  - pose proof (ownedInRow_lookup c row _ Ho). lia.
  - lia.
Qed.

(** A position write gives such a color one cell when the column
    coordinate is an integer, and none when it is not. *)
Lemma owned_boardWrite_fresh (b : Board) (p : Position) (c : string) (b' : Board) :
  boardWrite b p c = Some b' → owned c b = 0%nat →
  owned c b' = if decide (is_Some (toIndex (px p))) then 1%nat else 0%nat.
Proof.
  unfold boardWrite. intros H Hz.
  destruct (toIndex (py p)) as [cy|]; [|done].
  destruct (toIndex (px p)) as [cx|].
  - rewrite decide_True by (by eexists). by eapply owned_cellWrite_fresh.
  - rewrite decide_False by (by intros []).
    case_decide; [|done]. bind_inv H row Hrow. by injection H as <-.
Qed.

(** X25. A [join] message re-rolls the color, and the score follows the
    color: when the new color owns no cell yet and the room's one listed
    player does not stand where the guarded write throws, the next
    [updateGame] gives that player the score 1 if it stands on a cell
    (inside the grid, at integer coordinates) and 0 otherwise (outside
    the grid, or at a column coordinate that is no integer, where the
    write claims no cell), however many cells it had claimed under its old
    color. *)
Theorem join_then_tick_rescores (s : Server) (pa ra : nat) (p : Player) (r : Room)
    (message : Message) (digits : list nat) :
  playerHeap s !! pa = Some p →
  room p = Some ra →
  roomHeap s !! ra = Some r →
  gsPlayers (gameState r) = [pa] →
  boardShape (board (gameState r)) →
  claimable (position p) →
  msgType message = Some "join" →
  countPlayerSquares (board (gameState r)) (getRandomColor digits) = 0 →
  ∃ s1 s2 p2,
    processMessage pa (jObject message) digits s = Some s1 ∧
    updateGame ra s1 = Some s2 ∧
    playerHeap s2 !! pa = Some p2 ∧
    color p2 = getRandomColor digits ∧
    score p2 = if decide (isValidPosition (position p) = true ∧
                          is_Some (toIndex (px (position p))))
               then 1 else 0.
Proof.
  intros Hp Hroom Hr Hgs Hshape Hsafe Ht Hfresh.
  assert (Hlpa : (pa < length (playerHeap s))%nat) by (by eapply lookup_lt_Some).
  set (c := getRandomColor digits) in *.
  set (p1 := setColor c (setName (default "" (msgName message)) p)).
  assert (Hdef : is_Some (claimCell (board (gameState r)) (position p) c)).
  { unfold claimCell. destruct (isValidPosition (position p)) eqn:Hv; [|by eexists].
    apply boardWrite_defined; [done|done|]. by apply Hsafe. }
  destruct Hdef as [b1 Hb1].
  set (p2 := setScore (countPlayerSquares b1 c) p1).
  exists (writePlayer pa p1 s),
         (setPlayerHeap (<[pa := p2]> (<[pa := p1]> (playerHeap s)))
            (writeRoom ra (setGameState (setBoard b1 (gameState r)) r)
               (writePlayer pa p1 s))), p2.
  split_and!.
  - unfold processMessage. rewrite Hp. cbn [mbind option_bind fieldsOf].
    rewrite Hroom, Ht. by rewrite decide_True.
  - unfold updateGame. cbn [roomHeap playerHeap writePlayer setPlayerHeap].
    rewrite Hr. cbn [mbind option_bind]. rewrite Hgs.
    cbn [updateGameLoop]. unfold updateGameStep. cbn [fst snd].
    rewrite list_lookup_insert_eq by done. cbn [mbind option_bind].
    change (position p1) with (position p). change (color p1) with c.
    rewrite Hb1. reflexivity.
  - cbn [playerHeap setPlayerHeap]. apply list_lookup_insert_eq. by rewrite length_insert.
  - reflexivity.
  - change (score p2) with (countPlayerSquares b1 c).
    rewrite countPlayerSquares_owned in Hfresh |- *.
    unfold claimCell in Hb1. destruct (isValidPosition (position p)).
    + rewrite (owned_boardWrite_fresh _ _ _ _ Hb1) by lia.
      destruct (decide (is_Some (toIndex (px (position p))))) as [Hx|Hx].
      * by rewrite decide_True.
      * rewrite decide_False; [done|]. by intros [_ ?].
    + injection Hb1 as <-. rewrite decide_False by (by intros [? _]). exact Hfresh.
Qed.

Lemma join_then_tick_rescores_witness :
  ∃ s1 s2 p2,
    processMessage 0 (jObject (mkMessage (Some "join") (Some "Alice") None None None))
      [0; 1; 2; 3; 4; 5]%nat aliceAndBob = Some s1 ∧
    updateGame 0 s1 = Some s2 ∧
    playerHeap s2 !! 0%nat = Some p2 ∧
    color p2 = "#012345" ∧ score p2 = 1.
Proof.
  destruct (join_then_tick_rescores aliceAndBob 0 0 (playerAt aliceAndBob 0)
              (roomAt aliceAndBob 0)
              (mkMessage (Some "join") (Some "Alice") None None None)
              [0; 1; 2; 3; 4; 5]%nat)
    as (s1 & s2 & p2 & H1 & H2 & H3 & H4 & H5).
  - vm_compute. reflexivity.
  - vm_compute. reflexivity.
  - vm_compute. reflexivity.
  - vm_compute. reflexivity.
  - compute_done.
  - compute_done.
  - reflexivity.
  - vm_compute. reflexivity.
  - exists s1, s2, p2. split; [exact H1|]. split; [exact H2|]. split; [exact H3|].
    split; [exact H4|]. exact H5.
Defined.

(** ** Rooms keep their id, their duration and their chat history *)

Lemma roomGrows_refl (r : Room) : roomGrows r r.
Proof. by split_and!. Qed.

Lemma roomGrows_trans (r1 r2 r3 : Room) : roomGrows r1 r2 → roomGrows r2 r3 → roomGrows r1 r3.
Proof.
  intros (A1 & A2 & A3) (B1 & B2 & B3). split_and!; [congruence|congruence|].
  by etrans.
Qed.

Lemma roomsGrow_refl (s : Server) : roomsGrow s s.
Proof. intros ra r Hr. exists r. split; [done|by split_and!]. Qed.

Lemma roomsGrow_trans (s1 s2 s3 : Server) : roomsGrow s1 s2 → roomsGrow s2 s3 → roomsGrow s1 s3.
Proof.
  intros H12 H23 ra r Hr. destruct (H12 ra r Hr) as (r2 & Hr2 & Hg2).
  destruct (H23 ra r2 Hr2) as (r3 & Hr3 & Hg3). exists r3. split; [done|].
  by eapply roomGrows_trans.
Qed.

Lemma roomsGrow_same (s s' : Server) : roomHeap s' = roomHeap s → roomsGrow s s'.
Proof. intros Heq ra r Hr. exists r. rewrite Heq. split; [done|by split_and!]. Qed.

Lemma roomsGrow_writeRoom (s : Server) (ra : nat) (r r' : Room) :
  roomHeap s !! ra = Some r → roomGrows r r' → roomsGrow s (writeRoom ra r' s).
Proof.
  intros Hr Hg ra2 r2 Hr2. cbn [roomHeap writeRoom setRoomHeap].
  destruct (decide (ra2 = ra)) as [->|Hne].
  - exists r'. rewrite list_lookup_insert_eq by (by eapply lookup_lt_Some).
    split; [done|]. congruence.
  - exists r2. rewrite list_lookup_insert_ne by done. split; [done|by split_and!].
Qed.

Lemma updateGame_grows (ra : nat) (s s' : Server) :
  updateGame ra s = Some s' → roomsGrow s s'.
Proof.
  intros H. unfold updateGame in H. bind_inv H r Hr. bind_inv H st Hst. injection H as <-.
  eapply roomsGrow_trans; [|apply roomsGrow_same; reflexivity].
  apply (roomsGrow_writeRoom s ra r); [done|by split_and!].
Qed.

Lemma intervalCallback_grows (ra : nat) (now : Z) (s s' : Server) :
  intervalCallback ra now s = Some s' → roomsGrow s s'.
Proof.
  intros H. unfold intervalCallback in H. bind_inv H s1 Hs1.
  bind_inv H r1 Hr1. bind_inv H s2 Hs2.
  eapply roomsGrow_trans; [by eapply updateGame_grows|].
  apply roomsGrow_same.
  assert (H2 : roomHeap s2 = roomHeap s1).
  { case_decide.
    - bind_inv Hs2 s3 Hs3. injection Hs2 as <-. cbn [roomHeap setIntervals].
      unfold endGame in Hs3. bind_inv Hs3 r Hr. bind_inv Hs3 ps Hps.
      bind_inv Hs3 s4 Hs4. injection Hs3 as <-.
      by apply broadcastMessage_inv in Hs4 as (r' & socks & _ & _ & ->).
    - by injection Hs2 as <-. }
  rewrite <- H2. unfold broadcastGameState in H. bind_inv H r Hr. bind_inv H pd Hpd.
  bind_inv H socks Hs. by injection H as <-.
Qed.

Lemma joinRoom_grows (pa ra : nat) (now : Z) (spawn : nat → Z * Z) (s s' : Server) :
  joinRoom pa ra now spawn s = Some s' → roomsGrow s s'.
Proof.
  intros H. unfold joinRoom in H. bind_inv H p Hp. bind_inv H r Hr. cbv zeta in H.
  assert (Hlra : (ra < length (roomHeap s))%nat) by (by eapply lookup_lt_Some).
  set (s1 := writeRoom ra (setPlayers (mapSet (id p) pa (players r)) r)
               (writePlayer pa (setRoom (Some ra) p) s)) in H.
  assert (H1 : roomsGrow s s1).
  { eapply roomsGrow_trans;
      [apply (roomsGrow_same s (writePlayer pa (setRoom (Some ra) p) s)); reflexivity|].
    apply (roomsGrow_writeRoom _ ra r); [done|by split_and!]. }
  clearbody s1. eapply roomsGrow_trans; [exact H1|].
  case_decide.
  - unfold startGame in H. bind_inv H r1 Hr1. bind_inv H st Hst. injection H as <-.
    eapply roomsGrow_trans; [|apply roomsGrow_same; reflexivity].
    eapply roomsGrow_trans; [|apply roomsGrow_same; reflexivity].
    apply (roomsGrow_writeRoom _ ra r1); [done|by split_and!].
  - bind_inv H s3 Hs3. apply broadcastMessage_inv in H as (r3 & socks & _ & _ & ->).
    eapply roomsGrow_trans; [|apply roomsGrow_same; reflexivity].
    unfold claimInitialTerritory in Hs3. bind_inv Hs3 r2 Hr2. bind_inv Hs3 p2 Hp2.
    bind_inv Hs3 b' Hb'. injection Hs3 as <-.
    eapply roomsGrow_trans;
      [|apply (roomsGrow_writeRoom _ ra r2); [exact Hr2|by split_and!]].
    by apply roomsGrow_same.
Qed.

Lemma leaveRoom_grows (pa : nat) (s s' : Server) :
  leaveRoom pa s = Some s' → roomsGrow s s'.
Proof.
  unfold leaveRoom. intros H. bind_inv H p Hp.
  destruct (room p) as [ra|]; [|injection H as <-; apply roomsGrow_refl].
  bind_inv H r Hr. cbv zeta in H.
  assert (H1 : roomsGrow s
                 (writePlayer pa (setRoom None p)
                    (writeRoom ra (setPlayers (mapDelete (id p) (players r)) r) s))).
  { eapply roomsGrow_trans; [|apply roomsGrow_same; reflexivity].
    apply (roomsGrow_writeRoom _ ra r); [done|by split_and!]. }
  case_decide; injection H as <-; [|done].
  eapply roomsGrow_trans; [exact H1|]. by apply roomsGrow_same.
Qed.

Lemma processMessage_grows (pa : nat) (parsed : JsonValue) (digits : list nat)
    (s s' : Server) :
  processMessage pa parsed digits s = Some s' → roomsGrow s s'.
Proof.
  unfold processMessage. intros H. bind_inv H p Hp.
  destruct (room p) as [ra|]; [|injection H as <-; apply roomsGrow_refl].
  bind_inv H message Hmsg.
  repeat case_decide.
  - injection H as <-. by apply roomsGrow_same.
  - apply broadcastMessage_inv in H as (r & socks & _ & _ & ->). by apply roomsGrow_same.
  - injection H as <-. by apply roomsGrow_same.
  - bind_inv H r Hr. apply broadcastMessage_inv in H as (r' & socks & _ & _ & ->).
    eapply roomsGrow_trans; [|apply roomsGrow_same; reflexivity].
    apply (roomsGrow_writeRoom _ ra r); [done|].
    split_and!; [done|done|]. by apply prefix_app_r.
  - injection H as <-. apply roomsGrow_refl.
Qed.

Lemma onopen_grows (sock : nat) (now : Z) (e : Entropy) (s s' : Server) :
  onopen sock now e s = Some s' → roomsGrow s s'.
Proof.
  unfold onopen. cbv zeta. intros H. bind_inv H x Hx. destruct x as [ra s2].
  assert (H2 : roomsGrow s s2).
  { unfold findOrCreateRoom in Hx. bind_inv Hx found Hf.
    destruct found; injection Hx as <- <-.
    - by apply roomsGrow_same.
    - intros ra r Hr. exists r. split; [|apply roomGrows_refl].
      cbn [roomHeap createRoom snd setRooms setRoomHeap setPlayerMap setPlayerHeap].
      by apply lookup_app_l_Some. }
  eapply roomsGrow_trans; [exact H2|]. by eapply joinRoom_grows.
Qed.

(** X26. Whatever the server handles, a room object keeps its id and its
    duration, and its chat log only grows at the end: no line is ever
    dropped, changed or reordered. *)
Theorem room_history_kept (ev : Event) (s s' : Server) (ra : nat) (r : Room) :
  handleEvent ev s = Some s' →
  roomHeap s !! ra = Some r →
  ∃ r', roomHeap s' !! ra = Some r' ∧
        roomId r' = roomId r ∧ duration r' = duration r ∧
        chatMessages (gameState r) `prefix_of` chatMessages (gameState r').
Proof.
  intros H.
  assert (Hg : roomsGrow s s').
  { destruct ev as [sock now e|sock message digits|sock|ra' now]; cbn [handleEvent] in H.
    - by eapply onopen_grows.
    - unfold onmessage in H. bind_inv H parsed Hparsed.
      destruct (mapGet sock (playerMap s)) as [pa|].
      + by eapply processMessage_grows.
      + injection H as <-. apply roomsGrow_refl.
    - unfold onclose in H. destruct (mapGet sock (playerMap s)) as [pa|].
      + bind_inv H s1 Hs1. injection H as <-.
        eapply roomsGrow_trans; [by eapply leaveRoom_grows|]. by apply roomsGrow_same.
      + injection H as <-. apply roomsGrow_refl.
    - case_decide; [|done]. by eapply intervalCallback_grows. }
  intros Hr. destruct (Hg ra r Hr) as (r' & Hr' & Hid & Hd & Hchat). by exists r'.
Qed.

Lemma room_history_kept_witness :
  ∃ r', roomHeap (stateAfter [Open 1 1000 aliceEntropy; Open 2 1500 bobEntropy;
                              Tick 0 181000]) !! 0%nat = Some r' ∧
        roomId r' = "room-1" ∧ duration r' = gameDuration.
Proof.
  destruct (room_history_kept (Tick 0 181000) aliceAndBob
              (stateAfter [Open 1 1000 aliceEntropy; Open 2 1500 bobEntropy; Tick 0 181000])
              0 (roomAt aliceAndBob 0))
    as (r' & H1 & H2 & H3 & _).
  - vm_compute. reflexivity.
  - vm_compute. reflexivity.
  - exists r'. split; [exact H1|]. split; [exact H2|exact H3].
Defined.

(** ** Runs in which no handler throws *)



(** ** The scores of a room *)

(** *** Maps *)




(** *** The book under the steps of the handlers *)






(** *** What each step does to the book *)














(** *** The handlers keep the book in order *)






(** *** The sum *)




